(** * simple_image_labeler: a shallow embedding and its verified properties

    Part I follows [simple_image_labeler.py] top to bottom:

    - [PyStr]: the Python [str] and [list] primitives the script calls
      ([endswith], [split], [os.path.splitext], negative indexing,
      text-mode [readlines] and [writelines]);
    - [Os]: the file system as the script sees it ([os.walk],
      [os.path.isfile], [os.rename]);
    - [Startup]: [load_labels] and [load_image_filenames];
    - [Session]: the callbacks [change_img], [undo_click], [on_btn_click],
      [handle_keypress] and the Tk main loop.

    Part II states and proves the properties.

    Modelling conventions.  Characters are 8-bit ([ascii]); a path is the
    list of its components, so [os.path.join p a b] is [p ++ [a; b]]; the
    host is POSIX (text files are written with "\n" line ends, [os.rename]
    replaces an existing regular file).  What the script takes from
    outside is an argument: the draws of [random.shuffle] (a function
    [rnd]), the clock reading of each label action (the string [now],
    already formatted), and which file contents the imaging library opens
    (the field [can_open]).  Dialogs are the values the callbacks return;
    what is printed and what is drawn in the window is left out. *)

From Stdlib Require Import ZArith Ascii String List Permutation Lia.
From stdpp Require Import base option list gmap strings sorting.

Local Open Scope Z_scope.

(** ** Exceptions and results *)

Inductive exn :=
| IndexError
| ValueError
| StopIteration
| OSError
| UnidentifiedImageError.

Inductive result (A : Type) :=
| Ok (a : A)
| Raise (e : exn).
Arguments Ok {A} a.
Arguments Raise {A} e.

Global Instance exn_eq_dec : EqDecision exn.
Proof. solve_decision. Defined.

(** ** Python string and list primitives *)

Module PyStr.

(** [c in s] for a one-character [c]. *)
Fixpoint contains (c : ascii) (s : string) : bool :=
  match s with
  | "" => false
  | String a r => if decide (a = c) then true else contains c r
  end.

(** [s.endswith(suffix)] *)
Fixpoint endswith (s suffix : string) : bool :=
  if decide (s = suffix) then true
  else match s with
       | "" => false
       | String _ r => endswith r suffix
       end.

(** [s[n:]] *)
Fixpoint drop (n : nat) (s : string) : string :=
  match n, s with
  | O, _ => s
  | S _, "" => ""
  | S n', String _ r => drop n' r
  end.

(** [s[:n]] *)
Fixpoint take (n : nat) (s : string) : string :=
  match n, s with
  | O, _ => ""
  | S _, "" => ""
  | S n', String a r => String a (take n' r)
  end.

(** The first occurrence of [sep] in [s]: the text before it and the
    text after it. *)
Fixpoint find_sep (sep s : string) : option (string * string) :=
  if String.prefix sep s then Some ("", drop (String.length sep) s)
  else match s with
       | "" => None
       | String a r =>
           match find_sep sep r with
           | Some (before, after) => Some (String a before, after)
           | None => None
           end
       end.

(** The cutting loop of [str.split(sep)] for a non-empty [sep]; every
    cut consumes at least one character, so [String.length s] rounds
    are always enough ([split_loop_fuel] below). *)
Fixpoint split_loop (fuel : nat) (sep s : string) : list string :=
  match fuel with
  | O => [s]
  | S fuel' =>
      match find_sep sep s with
      | None => [s]
      | Some (before, after) => before :: split_loop fuel' sep after
      end
  end.

(** [s.split(sep)]; an empty separator is a [ValueError]. *)
Definition split (s sep : string) : result (list string) :=
  if decide (sep = "") then Raise ValueError
  else Ok (split_loop (String.length s) sep s).

(** [l[i]] with Python's negative indices. *)
Definition index {A : Type} (l : list A) (i : Z) : result A :=
  let n := Z.of_nat (length l) in
  let k := if decide (i < 0) then i + n else i in
  if decide (0 <= k < n)
  then match l !! Z.to_nat k with
       | Some a => Ok a
       | None => Raise IndexError
       end
  else Raise IndexError.

(** [s.rfind(c)] for a one-character [c]: the last index, or -1. *)
Fixpoint rfind_go (c : ascii) (s : string) (i last : Z) : Z :=
  match s with
  | "" => last
  | String a r => rfind_go c r (i + 1) (if decide (a = c) then i else last)
  end.
Definition rfind (c : ascii) (s : string) : Z := rfind_go c s 0 (-1).

Fixpoint all_dots (s : string) : bool :=
  match s with
  | "" => true
  | String a r => if decide (a = "."%char) then all_dots r else false
  end.

(** [os.path.splitext(p)] (posixpath): the extension starts at the last
    dot after the last slash, unless only dots precede it. *)
Definition splitext (p : string) : string * string :=
  let sepIndex := rfind "/"%char p in
  let dotIndex := rfind "."%char p in
  if decide (dotIndex > sepIndex) then
    let filenameIndex := Z.to_nat (sepIndex + 1) in
    let leading := take (Z.to_nat dotIndex - filenameIndex) (drop filenameIndex p) in
    if all_dots leading then (p, "")
    else (take (Z.to_nat dotIndex) p, drop (Z.to_nat dotIndex) p)
  else (p, "").

(** [sep.join(parts)] *)
Definition join (sep : string) (parts : list string) : string :=
  String.concat sep parts.

(** Universal-newlines translation done by a text-mode read:
    "\r\n" and a lone "\r" both become "\n". *)
Fixpoint translate_newlines (s : string) : string :=
  match s with
  | "" => ""
  | String a r =>
      if decide (a = "013"%char) then
        match r with
        | String b r' =>
            if decide (b = "010"%char) then String "010"%char (translate_newlines r')
            else String "010"%char (translate_newlines r)
        | "" => String "010"%char ""
        end
      else String a (translate_newlines r)
  end.

(** Cutting a text after each "\n", the line ends kept. *)
Fixpoint lines (s : string) : list string :=
  match s with
  | "" => []
  | String a r =>
      if decide (a = "010"%char) then String a "" :: lines r
      else match lines r with
           | [] => [String a ""]
           | l :: ls => String a l :: ls
           end
  end.

(** [f.readlines()] of a file opened for reading in text mode. *)
Definition readlines (content : string) : list string :=
  lines (translate_newlines content).

(** ["".join(ls)], what [f.writelines(ls)] leaves in a fresh file. *)
Fixpoint writelines (ls : list string) : string :=
  match ls with
  | [] => ""
  | l :: ls' => l +:+ writelines ls'
  end.

End PyStr.

(** ** The file system

    A path is the list of its components; a node is a regular file with
    its content or a directory.  Only what the script can observe is
    kept: which paths exist, of which kind, and what the files hold. *)

Inductive node :=
| File (content : string)
| Dir.

Global Instance node_eq_dec : EqDecision node.
Proof. solve_decision. Defined.

Abbreviation path_t := (list string).
Abbreviation filesystem := (gmap (list string) node).

Module Os.

(** [os.path.isfile(p)] *)
Definition isfile (fs : filesystem) (p : path_t) : bool :=
  match fs !! p with
  | Some (File _) => true
  | _ => false
  end.

(** [os.path.isdir(p)] *)
Definition isdir (fs : filesystem) (p : path_t) : bool :=
  match fs !! p with
  | Some Dir => true
  | _ => false
  end.

(** [os.path.dirname(p)] *)
Definition dirname (p : path_t) : path_t := removelast p.

(** The name of [k] inside directory [p], when [k] is an immediate entry
    of [p]. *)
Definition child_name (p k : path_t) : option string :=
  if decide (take (length p) k = p)
  then match drop (length p) k with
       | [n] => Some n
       | _ => None
       end
  else None.

Definition subdir_name (p : path_t) (e : path_t * node) : option string :=
  match e.2 with
  | Dir => child_name p e.1
  | File _ => None
  end.

Definition file_name (p : path_t) (e : path_t * node) : option string :=
  match e.2 with
  | File _ => child_name p e.1
  | Dir => None
  end.

(** The first triple [os.walk(p)] yields, without its [dirpath]:
    the names of the sub-directories and of the files directly in [p],
    in the order the host lists them; nothing when [p] is no directory. *)
Definition walk (fs : filesystem) (p : path_t) : option (list string * list string) :=
  if isdir fs p
  then Some (omap (subdir_name p) (map_to_list fs), omap (file_name p) (map_to_list fs))
  else None.

(** Every path at or below [src] re-rooted at [dst], the others kept. *)
Definition rebase (src dst k : path_t) : path_t :=
  if decide (take (length src) k = src) then dst ++ drop (length src) k else k.

Definition move_tree (src dst : path_t) (fs : filesystem) : filesystem :=
  list_to_map (prod_map (rebase src dst) id <$> map_to_list fs).

Definition below (src k : path_t) : bool :=
  bool_decide (take (length src) k = src).

Definition has_entries (fs : filesystem) (p : path_t) : bool :=
  bool_decide (omap (child_name p) (map_to_list fs).*1 <> []).

(** [os.rename(src, dst)] on a POSIX host.  The source must exist and the
    directory that is to hold [dst] must be a directory.  A regular file
    replaces an existing regular file but not a directory; a directory
    replaces only an empty directory and cannot move below itself. *)
Definition rename (fs : filesystem) (src dst : path_t) : result filesystem :=
  match fs !! src with
  | None => Raise OSError
  | Some (File c) =>
      if negb (isdir fs (dirname dst)) then Raise OSError
      else match fs !! dst with
           | Some Dir => Raise OSError
           | _ => if decide (src = dst) then Ok fs
                  else Ok (<[dst := File c]> (delete src fs))
           end
  | Some Dir =>
      if negb (isdir fs (dirname dst)) then Raise OSError
      else if decide (src = dst) then Ok fs
      else if below src dst then Raise OSError
      else match fs !! dst with
           | Some (File _) => Raise OSError
           | Some Dir =>
               if has_entries fs dst then Raise OSError
               else Ok (move_tree src dst fs)
           | None => Ok (move_tree src dst fs)
           end
  end.

End Os.

(** ** Start-up: labels, shortcuts and the image queue *)

(** The two module-level dictionaries [load_labels] fills. *)
Record shortcuts := {
  keyboard_shortcuts_indexed_by_letter : gmap ascii nat;
  keyboard_shortcuts_indexed_by_idx : gmap nat nat
}.

Definition no_shortcuts : shortcuts :=
  {| keyboard_shortcuts_indexed_by_letter := ∅;
     keyboard_shortcuts_indexed_by_idx := ∅ |}.

Module Startup.

(** The inner loop of [load_labels]: label number [i] takes its first
    letter that is no key of the letter dictionary yet, then [break]. *)
Fixpoint scan_letters (i letter_idx : nat) (label : string) (d : shortcuts) : shortcuts :=
  match label with
  | "" => d
  | String letter rest =>
      match keyboard_shortcuts_indexed_by_letter d !! letter with
      | None =>
          {| keyboard_shortcuts_indexed_by_letter :=
               <[letter := i]> (keyboard_shortcuts_indexed_by_letter d);
             keyboard_shortcuts_indexed_by_idx :=
               <[i := letter_idx]> (keyboard_shortcuts_indexed_by_idx d) |}
      | Some _ => scan_letters i (S letter_idx) rest d
      end
  end.

(** The outer loop, [for i, label in enumerate(labels)], from index [i]. *)
Fixpoint assign_shortcuts (i : nat) (labels : list string) (d : shortcuts) : shortcuts :=
  match labels with
  | [] => d
  | label :: rest => assign_shortcuts (S i) rest (scan_letters i 0 label d)
  end.

(** [labels.sort()]: strings ordered by code point. *)
Definition sort (labels : list string) : list string :=
  merge_sort String.le labels.

(** [load_labels] once [os.walk] has listed the sub-directories. *)
Definition load_labels_from (dirnames : list string) : list string * shortcuts :=
  let labels := sort dirnames in
  (labels, assign_shortcuts 0 labels no_shortcuts).

(** [load_labels(path)]; [next] on an exhausted walk raises. *)
Definition load_labels (fs : filesystem) (p : path_t) : result (list string * shortcuts) :=
  match Os.walk fs p with
  | None => Raise StopIteration
  | Some (dirnames, _) => Ok (load_labels_from dirnames)
  end.

(** [x[i], x[j] = x[j], x[i]] *)
Definition swap {A : Type} (x : list A) (i j : nat) : list A :=
  match x !! i, x !! j with
  | Some a, Some b => <[j := a]> (<[i := b]> x)
  | _, _ => x
  end.

(** [random.shuffle(x)]: for [i] from [len(x) - 1] down to [1], exchange
    [x[i]] with [x[randbelow(i + 1)]].  The generator is the function
    [rnd]: its value at [i], reduced below [i + 1], is the draw of round
    [i]; every sequence of draws is some [rnd]. *)
Fixpoint shuffle_from {A : Type} (rnd : nat -> nat) (i : nat) (x : list A) : list A :=
  match i with
  | O => x
  | S i' => shuffle_from rnd i' (swap x i (rnd i mod (i + 1))%nat)
  end.

Definition shuffle {A : Type} (rnd : nat -> nat) (x : list A) : list A :=
  shuffle_from rnd (length x - 1) x.

(** The test of the list comprehension in [load_image_filenames]. *)
Definition is_image_name (pic : string) : bool :=
  PyStr.endswith pic ".png" || PyStr.endswith pic ".jpg" || PyStr.endswith pic ".jpeg".

Definition load_image_filenames_from (rnd : nat -> nat) (filenames : list string) : list string :=
  shuffle rnd (filter (fun pic => is_image_name pic = true) filenames).

(** [load_image_filenames(path)]; an exhausted walk leaves [f] empty. *)
Definition load_image_filenames (rnd : nat -> nat) (fs : filesystem) (p : path_t) : list string :=
  match Os.walk fs p with
  | None => load_image_filenames_from rnd []
  | Some (_, filenames) => load_image_filenames_from rnd filenames
  end.

(** The letter a label shows in brackets on its button ([add_buttons]):
    the character at the recorded position, when there is one. *)
Definition shortcut_of (labels : list string) (d : shortcuts) (i : nat) : option ascii :=
  match labels !! i, keyboard_shortcuts_indexed_by_idx d !! i with
  | Some label, Some letter_idx => String.get letter_idx label
  | _, _ => None
  end.

(** The label a key press selects ([handle_keypress]). *)
Definition label_of_key (labels : list string) (d : shortcuts) (c : ascii) : option string :=
  match keyboard_shortcuts_indexed_by_letter d !! c with
  | Some i => labels !! i
  | None => None
  end.

End Startup.

(** ** The labelling session *)

(** What start-up fixes for the whole run: the command-line [path], the
    two lists, the shortcut dictionaries, and which file contents the
    imaging library manages to open and scale ([can_open]). *)
Record env := {
  path : path_t;
  labels : list string;
  image_filenames : list string;
  keys : shortcuts;
  can_open : string -> bool
}.

(** [outfile = os.path.join(path, "image_labels.csv")] *)
Definition outfile (g : env) : path_t := path g ++ ["image_labels.csv"].

(** What the callbacks change: the two globals [img_idx] and [undo], the
    disk, and whether [window.quit()] has been called. *)
Record state := {
  img_idx : Z;
  undo : list path_t;
  disk : filesystem;
  quit : bool
}.

Definition set_img_idx (i : Z) (s : state) : state :=
  {| img_idx := i; undo := undo s; disk := disk s; quit := quit s |}.
Definition set_undo (u : list path_t) (s : state) : state :=
  {| img_idx := img_idx s; undo := u; disk := disk s; quit := quit s |}.
Definition set_disk (d : filesystem) (s : state) : state :=
  {| img_idx := img_idx s; undo := undo s; disk := d; quit := quit s |}.
Definition set_quit (q : bool) (s : state) : state :=
  {| img_idx := img_idx s; undo := undo s; disk := disk s; quit := q |}.

(** The dialogs a callback can put up. *)
Inductive dialog :=
| showinfo (labeled : Z)
| showwarning (message : string).

(** A callback is a state transformer that returns or raises; what it
    changed before raising stays changed, as in Python. *)
Definition M (A : Type) : Type := state -> result A * state.

Definition ret {A : Type} (a : A) : M A := fun s => (Ok a, s).
Definition raise {A : Type} (e : exn) : M A := fun s => (Raise e, s).
Definition bind {A B : Type} (m : M A) (f : A -> M B) : M B :=
  fun s => match m s with
           | (Ok a, s') => f a s'
           | (Raise e, s') => (Raise e, s')
           end.
Definition lift {A : Type} (r : result A) : M A := fun s => (r, s).
Definition get : M state := fun s => (Ok s, s).
Definition modify (f : state -> state) : M unit := fun s => (Ok tt, f s).

Declare Scope py_scope.
Delimit Scope py_scope with py.
Notation "x <- m ;; k" := (bind m (fun x => k))
  (at level 100, m at next level, right associativity) : py_scope.
Notation "m ;;; k" := (bind m (fun _ => k))
  (at level 100, right associativity) : py_scope.
Local Open Scope py_scope.

Module Session.

(** [Image.open] and [thumbnail] on the file at [p]. *)
Definition open_image (g : env) (p : path_t) : M unit :=
  s <- get ;;
  match disk s !! p with
  | Some (File c) => if can_open g c then ret tt else raise UnidentifiedImageError
  | _ => raise OSError
  end.

(** [change_img(decrement)] *)
Definition change_img (g : env) (decrement : bool) : M (option dialog) :=
  s <- get ;;
  let idx := if decrement then img_idx s - 1 else img_idx s + 1 in
  modify (set_img_idx idx) ;;;
  if decide (idx >= Z.of_nat (length (image_filenames g))) then
    modify (set_quit true) ;;;
    ret (Some (showinfo idx))
  else
    name <- lift (PyStr.index (image_filenames g) idx) ;;
    open_image g (path g ++ [name]) ;;;
    ret None.

(** [os.rename] as a step of a callback. *)
Definition os_rename (src dst : path_t) : M unit :=
  s <- get ;;
  d <- lift (Os.rename (disk s) src dst) ;;
  modify (set_disk d).

(** [with open(outfile) as f1: lines = f1.readlines()] *)
Definition read_log (g : env) : M (list string) :=
  s <- get ;;
  match disk s !! outfile g with
  | Some (File c) => ret (PyStr.readlines c)
  | _ => raise OSError
  end.

(** [with open(outfile, "w") as f2: f2.writelines(ls)] *)
Definition write_log (g : env) (ls : list string) : M unit :=
  s <- get ;;
  match disk s !! outfile g with
  | Some Dir => raise OSError
  | Some (File _) => modify (set_disk (<[outfile g := File (PyStr.writelines ls)]> (disk s)))
  | None =>
      if Os.isdir (disk s) (Os.dirname (outfile g))
      then modify (set_disk (<[outfile g := File (PyStr.writelines ls)]> (disk s)))
      else raise OSError
  end.

(** [with open(outfile, "a") as outcsv: outcsv.write(row)] *)
Definition append_log (g : env) (row : string) : M unit :=
  s <- get ;;
  match disk s !! outfile g with
  | Some Dir => raise OSError
  | Some (File c) => modify (set_disk (<[outfile g := File (c +:+ row)]> (disk s)))
  | None =>
      if Os.isdir (disk s) (Os.dirname (outfile g))
      then modify (set_disk (<[outfile g := File row]> (disk s)))
      else raise OSError
  end.

(** [lines[:-1]] *)
Definition all_but_last (ls : list string) : list string := removelast ls.

(** [undo_click()] *)
Definition undo_click (g : env) : M (option dialog) :=
  s <- get ;;
  match undo s with
  | [undo0; undo1] =>
      if Os.isfile (disk s) undo0 then
        os_rename undo0 undo1 ;;;
        shown <- change_img g true ;;
        lines <- read_log g ;;
        write_log g (all_but_last lines) ;;;
        ret shown
      else ret (Some (showwarning "Sorry, you can only undo once!"))
  | _ => ret (Some (showwarning "Nothing to undo."))
  end.

(** The serial / iteration / base-name triple of lines 164-167. *)
Definition parse_filename (img_filename : string) : result (string * string * string) :=
  match PyStr.split img_filename "_" with
  | Raise e => Raise e
  | Ok parts =>
      match PyStr.index parts 0 with
      | Raise e => Raise e
      | Ok serial =>
          match PyStr.index parts 1 with
          | Raise e => Raise e
          | Ok parts1 =>
              match PyStr.split parts1 "." with
              | Raise e => Raise e
              | Ok dotted =>
                  match PyStr.index dotted 0 with
                  | Raise e => Raise e
                  | Ok itr =>
                      match PyStr.split img_filename itr with
                      | Raise e => Raise e
                      | Ok pieces =>
                          match PyStr.index pieces 1 with
                          | Raise e => Raise e
                          | Ok piece1 => Ok (serial, itr, (PyStr.splitext piece1).1)
                          end
                      end
                  end
              end
          end
      end
  end.

(** The line written for one label action; [now] is the clock reading
    already formatted by [strftime]. *)
Definition log_row (now serial itr fname label : string) : string :=
  PyStr.join "," [now; serial; itr; fname; label] +:+ String "010"%char "".

(** [on_btn_click(btn_idx)] *)
Definition on_btn_click (g : env) (btn_idx : nat) (now : string) : M (option dialog) :=
  s <- get ;;
  label <- lift (PyStr.index (labels g) (Z.of_nat btn_idx)) ;;
  img_filename <- lift (PyStr.index (image_filenames g) (img_idx s)) ;;
  parsed <- lift (parse_filename img_filename) ;;
  let '(serial, itr, fname) := parsed in
  append_log g (log_row now serial itr fname label) ;;;
  let new_img_filename := path g ++ [label; img_filename] in
  os_rename (path g ++ [img_filename]) new_img_filename ;;;
  modify (set_undo [new_img_filename; path g ++ [img_filename]]) ;;;
  change_img g false.

(** [handle_keypress(event)]; [char] is [event.char]. *)
Definition handle_keypress (g : env) (char : string) (now : string) : M (option dialog) :=
  match char with
  | String c "" =>
      match keyboard_shortcuts_indexed_by_letter (keys g) !! c with
      | Some btn_idx => on_btn_click g btn_idx now
      | None => ret None
      end
  | _ => ret None
  end.

(** What the user does, with the clock reading where it is used. *)
Inductive event :=
| Click (btn_idx : nat) (now : string)
| UndoClick
| KeyPress (char : string) (now : string).

Definition dispatch (g : env) (ev : event) : M (option dialog) :=
  match ev with
  | Click btn_idx now => on_btn_click g btn_idx now
  | UndoClick => undo_click g
  | KeyPress char now => handle_keypress g char now
  end.

(** The event loop: one callback per event until [window.quit()] has
    been called; an exception raised by a callback is reported and the
    loop goes on. *)
Fixpoint run (g : env) (evs : list event) (s : state) : list (result (option dialog)) * state :=
  match evs with
  | [] => ([], s)
  | ev :: evs' =>
      if quit s then ([], s)
      else let '(r, s') := dispatch g ev s in
           let '(rs, s'') := run g evs' s' in
           (r :: rs, s'')
  end.

(** [window.mainloop()]: entering the loop clears an earlier quit request. *)
Definition mainloop (g : env) (evs : list event) (s : state) : list (result (option dialog)) * state :=
  run g evs (set_quit false s).

(** The module-level state before the first [change_img()]. *)
Definition initial (fs : filesystem) : state :=
  {| img_idx := -1; undo := []; disk := fs; quit := false |}.

(** The script from [load_labels] to the end of [mainloop]. *)
Definition script (p : path_t) (rnd : nat -> nat) (opens : string -> bool)
    (evs : list event) (fs : filesystem)
  : result (env * result (option dialog) * list (result (option dialog)) * state) :=
  match Startup.load_labels fs p with
  | Raise e => Raise e
  | Ok (ls, d) =>
      let g := {| path := p; labels := ls;
                  image_filenames := Startup.load_image_filenames rnd fs p;
                  keys := d; can_open := opens |} in
      let '(first, s1) := change_img g false (initial fs) in
      match first with
      | Raise e => Raise e
      | Ok _ =>
          let '(rs, s2) := mainloop g evs s1 in
          Ok (g, first, rs, s2)
      end
  end.

(** The text of the log file: empty while the file does not exist. *)
Definition log_content (g : env) (s : state) : string :=
  match disk s !! outfile g with
  | Some (File c) => c
  | _ => ""
  end.

(** The rows of the log file, as a reader of the file sees them. *)
Definition log_rows (g : env) (s : state) : list string :=
  PyStr.readlines (log_content g s).

End Session.

(** ** The primitives on examples *)

Example endswith_png : PyStr.endswith "a_1.png" ".png" = true.
Proof. reflexivity. Qed.

Example endswith_upper_case : PyStr.endswith "a_1.PNG" ".png" = false.
Proof. reflexivity. Qed.

Example split_underscores : PyStr.split "12_3_x.png" "_" = Ok ["12"; "3"; "x.png"].
Proof. reflexivity. Qed.

Example split_long_separator : PyStr.split "ab--cd--" "--" = Ok ["ab"; "cd"; ""].
Proof. reflexivity. Qed.

Example split_empty_separator : PyStr.split "abc" "" = Raise ValueError.
Proof. reflexivity. Qed.

Example splitext_last_dot : PyStr.splitext "_x.tar.png" = ("_x.tar", ".png").
Proof. reflexivity. Qed.

Example splitext_leading_dot : PyStr.splitext ".png" = (".png", "").
Proof. reflexivity. Qed.

Example index_negative : PyStr.index ["a"; "b"; "c"] (-1) = Ok "c".
Proof. reflexivity. Qed.

Example index_out_of_range : PyStr.index ["a"; "b"; "c"] 3 = Raise IndexError.
Proof. reflexivity. Qed.

Example readlines_universal :
  PyStr.readlines (String "a" (String "010" (String "b" (String "013" (String "010" "c")))))
  = [String "a" (String "010" ""); String "b" (String "010" ""); "c"].
Proof. reflexivity. Qed.

Example shuffle_all_zero : Startup.shuffle (fun _ => 0%nat) [1; 2; 3; 4] = [2; 3; 4; 1].
Proof. reflexivity. Qed.

Example parse_usual : Session.parse_filename "12_3_x.png" = Ok ("12", "3", "_x").
Proof. reflexivity. Qed.

Example parse_short : Session.parse_filename "7_1.png" = Ok ("7", "1", ".png").
Proof. reflexivity. Qed.

Example parse_no_underscore : Session.parse_filename "plain.png" = Raise IndexError.
Proof. reflexivity. Qed.

Example parse_empty_iteration : Session.parse_filename "a_.png" = Raise ValueError.
Proof. reflexivity. Qed.

(** * Part II: properties *)

(** ** Facts about the string primitives *)

Section PyStrFacts.
Import PyStr.

Lemma append_nil_l (s : string) : "" +:+ s = s.
Proof. reflexivity. Qed.

Lemma append_cons (a : ascii) (s t : string) :
  String a s +:+ t = String a (s +:+ t).
Proof. reflexivity. Qed.

Lemma append_nil_r (s : string) : s +:+ "" = s.
Proof. induction s as [|a s IH]; [done|]. by rewrite append_cons, IH. Qed.

Lemma append_assoc (s t u : string) : (s +:+ t) +:+ u = s +:+ (t +:+ u).
Proof. induction s as [|a s IH]; [done|]. by rewrite !append_cons, IH. Qed.

Lemma endswith_unfold (s suffix : string) :
  endswith s suffix =
  if decide (s = suffix) then true
  else match s with
       | "" => false
       | String _ r => endswith r suffix
       end.
Proof. by destruct s. Qed.

(** [endswith] is the suffix test: something may precede [suffix]. *)
Lemma endswith_spec (s suffix : string) :
  endswith s suffix = true <-> exists stem, s = stem +:+ suffix.
Proof.
  split.
  - induction s as [|a r IH]; rewrite endswith_unfold; case_decide as Heq.
    + intros _. exists "". by subst.
    + discriminate.
    + intros _. exists "". by subst.
    + intros [stem ->]%IH. by exists (String a stem).
  - intros [stem ->]. induction stem as [|a stem IH].
    + rewrite append_nil_l, endswith_unfold. by case_decide.
    + rewrite append_cons, endswith_unfold. by case_decide.
Qed.

End PyStrFacts.

(** ** Facts about the file system *)

Section OsFacts.
Import Os.

Lemma child_name_Some (p k : path_t) (n : string) :
  child_name p k = Some n <-> k = p ++ [n].
Proof.
  unfold child_name. split.
  - case_decide as Htake; [|done].
    destruct (drop (length p) k) as [|n' [|??]] eqn:Hdrop; [done| |done].
    intros [= ->]. by rewrite <- (take_drop (length p) k), Htake, Hdrop.
  - intros ->. rewrite take_app_length, drop_app_length.
    by rewrite decide_True.
Qed.

Lemma elem_of_walk_files (fs : filesystem) (p : path_t) (n : string) :
  n ∈ omap (file_name p) (map_to_list fs) <-> exists c, fs !! (p ++ [n]) = Some (File c).
Proof.
  rewrite list_elem_of_omap. split.
  - intros [[k nd] [Hin Hname]]. apply elem_of_map_to_list in Hin.
    unfold file_name in Hname; simpl in Hname. destruct nd as [c|]; [|done].
    apply child_name_Some in Hname as ->. eauto.
  - intros [c Hc]. exists (p ++ [n], File c). split.
    + by apply elem_of_map_to_list.
    + unfold file_name; simpl. by apply child_name_Some.
Qed.

Lemma elem_of_walk_dirs (fs : filesystem) (p : path_t) (n : string) :
  n ∈ omap (subdir_name p) (map_to_list fs) <-> fs !! (p ++ [n]) = Some Dir.
Proof.
  rewrite list_elem_of_omap. split.
  - intros [[k nd] [Hin Hname]]. apply elem_of_map_to_list in Hin.
    unfold subdir_name in Hname; simpl in Hname. destruct nd as [c|]; [done|].
    by apply child_name_Some in Hname as ->.
  - intros Hd. exists (p ++ [n], Dir). split.
    + by apply elem_of_map_to_list.
    + unfold subdir_name; simpl. by apply child_name_Some.
Qed.

Lemma NoDup_omap_fst {B : Type} (f : path_t * node -> option B) (l : list (path_t * node)) :
  (forall e1 e2 b, f e1 = Some b -> f e2 = Some b -> e1.1 = e2.1) ->
  NoDup l.*1 -> NoDup (omap f l).
Proof.
  intros Hinj. induction l as [|e l IH]; simpl; [constructor|].
  intros [Hnotin Hnd]%NoDup_cons. destruct (f e) as [b|] eqn:Hfe; [|by apply IH].
  apply NoDup_cons. split; [|by apply IH].
  intros [e' [Hin' Hfe']]%list_elem_of_omap. apply Hnotin.
  rewrite (Hinj e e' b Hfe Hfe'). apply list_elem_of_fmap. eauto.
Qed.

Lemma NoDup_walk_files (fs : filesystem) (p : path_t) :
  NoDup (omap (file_name p) (map_to_list fs)).
Proof.
  apply NoDup_omap_fst; [|apply NoDup_fst_map_to_list].
  intros [k1 n1] [k2 n2] b; unfold file_name; simpl.
  destruct n1, n2; try done.
  intros H1%child_name_Some H2%child_name_Some. congruence.
Qed.

End OsFacts.

(** ** Start-up: the image queue *)

Section QueueFacts.
Import Startup.
Local Open Scope nat_scope.
Context {A : Type}.

Lemma insert_head_perm (t : list A) (j : nat) (h b : A) :
  t !! j = Some b -> b :: <[j := h]> t ≡ₚ h :: t.
Proof.
  revert j. induction t as [|x t IH]; intros [|j] Hj; simplify_eq/=.
  - apply perm_swap.
  - rewrite perm_swap, (IH j Hj). apply perm_swap.
Qed.

(** One exchange of the shuffle permutes the list. *)
Lemma swap_perm (x : list A) (i j : nat) : swap x i j ≡ₚ x.
Proof.
  unfold swap.
  destruct (x !! i) as [a|] eqn:Hi; [|done].
  destruct (x !! j) as [b|] eqn:Hj; [|done].
  revert i j Hi Hj. induction x as [|h t IH]; intros [|i] [|j] Hi Hj; simplify_eq/=.
  - done.
  - by apply insert_head_perm.
  - by apply insert_head_perm.
  - apply perm_skip. by apply IH.
Qed.

Lemma shuffle_from_perm (rnd : nat -> nat) (i : nat) (x : list A) :
  shuffle_from rnd i x ≡ₚ x.
Proof.
  revert x. induction i as [|i IH]; intros x; simpl; [done|].
  by rewrite IH, swap_perm.
Qed.

Lemma shuffle_perm (rnd : nat -> nat) (x : list A) : shuffle rnd x ≡ₚ x.
Proof. apply shuffle_from_perm. Qed.

End QueueFacts.

(** A name carries one of the three accepted extensions, in lower case. *)
Definition image_extension (n : string) : Prop :=
  exists stem, n = stem +:+ ".png" \/ n = stem +:+ ".jpg" \/ n = stem +:+ ".jpeg".

Lemma is_image_name_spec (n : string) :
  Startup.is_image_name n = true <-> image_extension n.
Proof.
  unfold Startup.is_image_name, image_extension.
  rewrite !orb_true_iff, !endswith_spec. naive_solver.
Qed.

(** The files [os.walk] lists directly in [p]; none when it yields nothing. *)
Definition listed_files (fs : filesystem) (p : path_t) : list string :=
  match Os.walk fs p with
  | Some (_, filenames) => filenames
  | None => []
  end.

Lemma load_image_filenames_perm (rnd : nat -> nat) (fs : filesystem) (p : path_t) :
  Startup.load_image_filenames rnd fs p
  ≡ₚ filter (fun n => Startup.is_image_name n = true) (listed_files fs p).
Proof.
  unfold Startup.load_image_filenames, listed_files, Startup.load_image_filenames_from.
  destruct (Os.walk fs p) as [[ds fnames]|]; apply shuffle_perm.
Qed.

Lemma elem_of_listed_files (fs : filesystem) (p : path_t) (n : string) :
  n ∈ listed_files fs p <->
  Os.isdir fs p = true /\ exists c, fs !! (p ++ [n]) = Some (File c).
Proof.
  unfold listed_files, Os.walk. destruct (Os.isdir fs p).
  - rewrite elem_of_walk_files. naive_solver.
  - split; [by intros ?%not_elem_of_nil|naive_solver].
Qed.

Lemma NoDup_listed_files (fs : filesystem) (p : path_t) : NoDup (listed_files fs p).
Proof.
  unfold listed_files, Os.walk. destruct (Os.isdir fs p).
  - apply NoDup_walk_files.
  - constructor.
Qed.

(** The members of the queue: the regular files directly in the root
    that carry an accepted extension. *)
Lemma elem_of_load_image_filenames
    (rnd : nat -> nat) (fs : filesystem) (p : path_t) (n : string) :
  n ∈ Startup.load_image_filenames rnd fs p <->
  Os.isdir fs p = true
  /\ (exists c, fs !! (p ++ [n]) = Some (File c))
  /\ image_extension n.
Proof.
  rewrite load_image_filenames_perm, list_elem_of_filter, elem_of_listed_files,
    is_image_name_spec.
  naive_solver.
Qed.

(** C4.  Whatever the directory holds and whatever the generator draws,
    the queue built at start-up is a permutation of the listed files that
    carry an accepted extension; it has no repetition, its members are
    exactly the regular files directly in the root whose name ends in
    ".png", ".jpg" or ".jpeg" (lower case only), and no member is the
    name of a sub-directory. *)
Theorem image_queue_is_permutation_of_images
    (rnd : nat -> nat) (fs : filesystem) (p : path_t) :
  let queue := Startup.load_image_filenames rnd fs p in
  queue ≡ₚ filter (fun n => Startup.is_image_name n = true) (listed_files fs p)
  /\ NoDup queue
  /\ (forall n, n ∈ queue <->
        Os.isdir fs p = true
        /\ (exists c, fs !! (p ++ [n]) = Some (File c))
        /\ image_extension n)
  /\ (forall n, n ∈ queue -> fs !! (p ++ [n]) <> Some Dir).
Proof.
  intros queue.
  assert (Hperm := load_image_filenames_perm rnd fs p). fold queue in Hperm.
  split; [done|]. split; [|split].
  - rewrite Hperm. apply NoDup_filter, NoDup_listed_files.
  - apply elem_of_load_image_filenames.
  - intros n (_ & [c Hc] & _)%elem_of_load_image_filenames. congruence.
Qed.

(** The extension test is case-sensitive. *)
Example upper_case_extension_rejected : ~ image_extension "a_1.PNG".
Proof. intros Himg%is_image_name_spec. by vm_compute in Himg. Qed.

(** ** Start-up: the shortcut letters *)

Section ShortcutFacts.
Import Startup PyStr.
Local Open Scope nat_scope.

Local Abbreviation by_letter := keyboard_shortcuts_indexed_by_letter.
Local Abbreviation by_idx := keyboard_shortcuts_indexed_by_idx.

(** The letter [c] is the shortcut of a label that comes before label [i]. *)
Definition claimed_before (d : shortcuts) (i : nat) (c : ascii) : Prop :=
  exists j, j < i /\ by_letter d !! c = Some j.

(** Position (counted from [k]) and letter of the first character of
    [label] that is no key of [taken]. *)
Fixpoint first_unclaimed (taken : gmap ascii nat) (k : nat) (label : string)
  : option (nat * ascii) :=
  match label with
  | "" => None
  | String c rest =>
      match taken !! c with
      | None => Some (k, c)
      | Some _ => first_unclaimed taken (S k) rest
      end
  end.

Lemma first_unclaimed_Some taken k0 label k c :
  first_unclaimed taken k0 label = Some (k, c) ->
  exists k', k = k0 + k' /\ String.get k' label = Some c /\ taken !! c = None /\
    forall j c', j < k' -> String.get j label = Some c' -> is_Some (taken !! c').
Proof.
  revert k0. induction label as [|a rest IH]; intros k0; simpl; [done|].
  destruct (taken !! a) as [i|] eqn:Ha.
  - intros (k' & -> & Hget & Hc & Hbefore)%IH. exists (S k'). repeat split; [lia|done..|].
    intros [|j] c' Hj; simpl.
    + intros [= <-]. eauto.
    + apply Hbefore. lia.
  - intros [= <- <-]. exists 0. repeat split; [lia|done|]. intros; lia.
Qed.

Lemma first_unclaimed_None taken k0 label :
  first_unclaimed taken k0 label = None ->
  forall c, contains c label = true -> is_Some (taken !! c).
Proof.
  revert k0. induction label as [|a rest IH]; intros k0; simpl; [done|].
  destruct (taken !! a) as [i|] eqn:Ha; [|done].
  intros Hnone c. case_decide as Hac; [subst; eauto|]. by apply (IH (S k0)).
Qed.

(** The inner loop stores the first unclaimed letter, or nothing. *)
Lemma scan_letters_first_unclaimed i k label d :
  scan_letters i k label d =
  match first_unclaimed (by_letter d) k label with
  | Some (k', c) => {| by_letter := <[c := i]> (by_letter d);
                       by_idx := <[i := k']> (by_idx d) |}
  | None => d
  end.
Proof.
  revert k. induction label as [|a rest IH]; intros k; simpl; [done|].
  destruct (by_letter d !! a); [apply IH|done].
Qed.

Lemma get_contains k label c : String.get k label = Some c -> contains c label = true.
Proof.
  revert k. induction label as [|a rest IH]; intros [|k]; simpl; try done.
  - intros [= ->]. by rewrite decide_True.
  - intros ?%IH. by case_decide.
Qed.

(** What holds of the dictionaries once labels [0 .. n-1] are done. *)
Record shortcuts_inv (labels : list string) (n : nat) (d : shortcuts) : Prop := {
  inv_letter : forall c i, by_letter d !! c = Some i ->
    i < n /\ shortcut_of labels d i = Some c;
  inv_idx : forall i k, by_idx d !! i = Some k ->
    i < n /\ exists label c, labels !! i = Some label /\ String.get k label = Some c /\
      by_letter d !! c = Some i /\
      forall k' c', k' < k -> String.get k' label = Some c' -> claimed_before d i c';
  inv_none : forall i label, i < n -> labels !! i = Some label -> by_idx d !! i = None ->
    forall c, contains c label = true -> claimed_before d i c
}.

Lemma shortcuts_inv_empty labels : shortcuts_inv labels 0 no_shortcuts.
Proof. split; simpl; intros; (done || lia). Qed.

Lemma shortcuts_inv_step labels n d label :
  shortcuts_inv labels n d -> labels !! n = Some label ->
  shortcuts_inv labels (S n) (scan_letters n 0 label d).
Proof.
  intros [Hl Hi Hn] Hlabel. rewrite scan_letters_first_unclaimed.
  assert (Hfresh : by_idx d !! n = None).
  { destruct (by_idx d !! n) eqn:E; [|done]. apply Hi in E as [? _]. lia. }
  destruct (first_unclaimed (by_letter d) 0 label) as [[k c]|] eqn:Hfirst.
  - apply first_unclaimed_Some in Hfirst as (k' & -> & Hget & Hc & Hbefore). simpl in *.
    assert (Hkeep : forall c' j, by_letter d !! c' = Some j ->
              <[c := n]> (by_letter d) !! c' = Some j).
    { intros c' j Hj. rewrite lookup_insert_ne; [done|congruence]. }
    split; simpl.
    + intros c' i. rewrite lookup_insert. case_decide as Hcc; simplify_eq/=.
      * intros [= <-]. split; [lia|]. unfold shortcut_of; simpl.
        by rewrite Hlabel, lookup_insert_eq.
      * intros Hci. destruct (Hl _ _ Hci) as [Hlt Hs]. split; [lia|].
        unfold shortcut_of in *; simpl. rewrite lookup_insert_ne; [done|lia].
    + intros i k. rewrite lookup_insert. case_decide as Hin; simplify_eq/=.
      * intros [= <-]. split; [lia|]. exists label, c. repeat split; [done..| |].
        { by rewrite lookup_insert_eq. }
        intros j c' Hj Hgetj. destruct (Hbefore j c' Hj Hgetj) as [o Ho].
        exists o. split; [by apply Hl in Ho as [? _]|by apply Hkeep].
      * intros Hik. destruct (Hi _ _ Hik) as (Hlt & lab & c' & ? & ? & Hown & Hb).
        split; [lia|]. exists lab, c'. repeat split; [done..|by apply Hkeep|].
        intros j c'' Hj Hgetj. destruct (Hb j c'' Hj Hgetj) as (o & ? & Ho).
        exists o. split; [done|by apply Hkeep].
    + intros i lab Hlt Hlab. rewrite lookup_insert. case_decide as Hin; [done|].
      intros Hnone c' Hc'. destruct (Hn i lab ltac:(lia) Hlab Hnone c' Hc') as (o & ? & Ho).
      exists o. split; [done|by apply Hkeep].
  - split.
    + intros c i Hc. destruct (Hl _ _ Hc). split; [lia|done].
    + intros i k Hik. destruct (Hi _ _ Hik) as [? ?]. split; [lia|done].
    + intros i lab Hlt Hlab Hnone c Hc.
      destruct (decide (i = n)) as [->|Hne]; [|apply (Hn i lab); (done || lia)].
      simplify_eq. destruct (first_unclaimed_None _ _ _ Hfirst c Hc) as [o Ho].
      exists o. split; [by apply Hl in Ho as [? _]|done].
Qed.

Lemma shortcuts_inv_loop labels rest : forall done d,
  labels = done ++ rest ->
  shortcuts_inv labels (length done) d ->
  shortcuts_inv labels (length labels) (assign_shortcuts (length done) rest d).
Proof.
  induction rest as [|label rest IH]; intros done d Heq Hinv; simpl.
  - rewrite app_nil_r in Heq. by subst.
  - specialize (IH (done ++ [label]) (scan_letters (length done) 0 label d)).
    rewrite length_app in IH; simpl in IH. rewrite Nat.add_1_r in IH. apply IH.
    + by rewrite <- app_assoc.
    + apply shortcuts_inv_step; [done|]. rewrite Heq. by apply list_lookup_middle.
Qed.

Lemma load_labels_from_inv dirnames labels d :
  load_labels_from dirnames = (labels, d) ->
  shortcuts_inv labels (length labels) d.
Proof.
  unfold load_labels_from. intros [= <- <-].
  apply (shortcuts_inv_loop _ _ []); [done|apply shortcuts_inv_empty].
Qed.

Lemma load_labels_from_sorted dirnames labels d :
  load_labels_from dirnames = (labels, d) ->
  Sorted String.le labels /\ labels ≡ₚ dirnames.
Proof.
  unfold load_labels_from, sort. intros [= <- _]. split.
  - apply Sorted_merge_sort; apply _.
  - apply merge_sort_Permutation.
Qed.

End ShortcutFacts.

Section ShortcutTheorems.
Import Startup PyStr.
Local Open Scope nat_scope.

Local Abbreviation by_letter := keyboard_shortcuts_indexed_by_letter.
Local Abbreviation by_idx := keyboard_shortcuts_indexed_by_idx.

(** The key dictionary and the bracketed letter of a button agree. *)
Lemma by_letter_shortcut_of labels n d :
  shortcuts_inv labels n d ->
  forall i c, by_letter d !! c = Some i <-> shortcut_of labels d i = Some c.
Proof.
  intros [Hl Hi _] i c. split; [by intros [_ ?]%Hl|].
  unfold shortcut_of. destruct (labels !! i) as [label|] eqn:Hlab; [|done].
  destruct (by_idx d !! i) as [k|] eqn:Hk; [|done].
  destruct (Hi _ _ Hk) as (_ & label' & c' & ? & ? & ? & _). intros ?. by simplify_eq.
Qed.

(** C5.  The labels are handled in sorted order, and for each of them the
    recorded shortcut position is that of its first character that is not
    the shortcut of an earlier label; that character becomes its key.  A
    label whose every character is the shortcut of an earlier label gets
    no position and no key. *)
Theorem shortcut_is_first_unclaimed_letter
    (dirnames labels : list string) (d : shortcuts) :
  load_labels_from dirnames = (labels, d) ->
  Sorted String.le labels /\ labels ≡ₚ dirnames /\
  forall i label, labels !! i = Some label ->
    match by_idx d !! i with
    | Some k =>
        exists c, String.get k label = Some c
          /\ by_letter d !! c = Some i
          /\ ~ claimed_before d i c
          /\ forall k' c', k' < k -> String.get k' label = Some c' -> claimed_before d i c'
    | None =>
        (forall c, contains c label = true -> claimed_before d i c)
        /\ forall c, by_letter d !! c <> Some i
    end.
Proof.
  intros Hload. destruct (load_labels_from_sorted _ _ _ Hload) as [Hsorted Hperm].
  assert (Hinv := load_labels_from_inv _ _ _ Hload).
  split; [done|]. split; [done|]. intros i label Hlab.
  destruct (by_idx d !! i) as [k|] eqn:Hk.
  - destruct (inv_idx _ _ _ Hinv _ _ Hk) as (_ & label' & c & ? & ? & Hown & Hbefore).
    simplify_eq. exists c. repeat split; [done..| |done].
    intros (j & Hlt & Hj). rewrite Hown in Hj. simplify_eq. lia.
  - split.
    + apply (inv_none _ _ _ Hinv i label); [|done..]. by eapply lookup_lt_Some.
    + intros c Hc. apply (by_letter_shortcut_of _ _ _ Hinv) in Hc.
      unfold shortcut_of in Hc. by rewrite Hlab, Hk in Hc.
Qed.

(** C6.  After label loading no letter is the shortcut of two labels, and
    no label has two shortcut letters: the bracketed letters of different
    buttons differ, each key selects the one label that shows it, and at
    most one key selects any given label. *)
Theorem shortcut_letters_pairwise_distinct
    (dirnames labels : list string) (d : shortcuts) :
  load_labels_from dirnames = (labels, d) ->
  (forall i j ci cj, i <> j ->
     shortcut_of labels d i = Some ci -> shortcut_of labels d j = Some cj -> ci <> cj)
  /\ (forall i c, by_letter d !! c = Some i <-> shortcut_of labels d i = Some c)
  /\ (forall i c1 c2, by_letter d !! c1 = Some i -> by_letter d !! c2 = Some i -> c1 = c2).
Proof.
  intros Hload. assert (Hinv := load_labels_from_inv _ _ _ Hload).
  assert (Hagree := by_letter_shortcut_of _ _ _ Hinv).
  split; [|split; [done|]].
  - intros i j ci cj Hij Hi%Hagree Hj%Hagree ->. congruence.
  - intros i c1 c2 H1%Hagree H2%Hagree. congruence.
Qed.

End ShortcutTheorems.

(** The labels of the running example, as the loader returns them. *)
Definition cat_car_dog : list string * shortcuts :=
  Startup.load_labels_from ["cat"; "car"; "dog"].

(** C2, as the code has it.  The labels are sorted first, so "car" comes
    before "cat": "c" selects car, "a" selects cat (its "c" is taken) and
    "d" selects dog; the bracketed letters are the same three. *)
Theorem cat_car_dog_shortcuts :
  cat_car_dog.1 = ["car"; "cat"; "dog"]
  /\ Startup.label_of_key cat_car_dog.1 cat_car_dog.2 "c" = Some "car"
  /\ Startup.label_of_key cat_car_dog.1 cat_car_dog.2 "a" = Some "cat"
  /\ Startup.label_of_key cat_car_dog.1 cat_car_dog.2 "d" = Some "dog"
  /\ Startup.shortcut_of cat_car_dog.1 cat_car_dog.2 0 = Some "c"%char
  /\ Startup.shortcut_of cat_car_dog.1 cat_car_dog.2 1 = Some "a"%char
  /\ Startup.shortcut_of cat_car_dog.1 cat_car_dog.2 2 = Some "d"%char.
Proof. vm_compute. repeat split. Qed.

(** C2 as the specification words it fails: "c" does not select cat and
    "a" does not select car. *)
Lemma cat_car_dog_c_is_not_cat :
  ~ (Startup.label_of_key cat_car_dog.1 cat_car_dog.2 "c" = Some "cat"
     /\ Startup.label_of_key cat_car_dog.1 cat_car_dog.2 "a" = Some "car"
     /\ Startup.label_of_key cat_car_dog.1 cat_car_dog.2 "d" = Some "dog").
Proof. vm_compute. intros [? _]. discriminate. Qed.

Lemma shortcut_is_first_unclaimed_letter_witness :
  Sorted String.le cat_car_dog.1 /\ cat_car_dog.1 ≡ₚ ["cat"; "car"; "dog"] /\
  forall i label, cat_car_dog.1 !! i = Some label ->
    match keyboard_shortcuts_indexed_by_idx cat_car_dog.2 !! i with
    | Some k =>
        exists c, String.get k label = Some c
          /\ keyboard_shortcuts_indexed_by_letter cat_car_dog.2 !! c = Some i
          /\ ~ claimed_before cat_car_dog.2 i c
          /\ forall k' c', (k' < k)%nat -> String.get k' label = Some c' ->
               claimed_before cat_car_dog.2 i c'
    | None =>
        (forall c, PyStr.contains c label = true -> claimed_before cat_car_dog.2 i c)
        /\ forall c, keyboard_shortcuts_indexed_by_letter cat_car_dog.2 !! c <> Some i
    end.
Proof.
  apply (shortcut_is_first_unclaimed_letter ["cat"; "car"; "dog"]). reflexivity.
Defined.

Lemma shortcut_letters_pairwise_distinct_witness :
  (forall i j ci cj, i <> j ->
     Startup.shortcut_of cat_car_dog.1 cat_car_dog.2 i = Some ci ->
     Startup.shortcut_of cat_car_dog.1 cat_car_dog.2 j = Some cj -> ci <> cj)
  /\ (forall i c, keyboard_shortcuts_indexed_by_letter cat_car_dog.2 !! c = Some i
                  <-> Startup.shortcut_of cat_car_dog.1 cat_car_dog.2 i = Some c)
  /\ (forall i c1 c2,
        keyboard_shortcuts_indexed_by_letter cat_car_dog.2 !! c1 = Some i ->
        keyboard_shortcuts_indexed_by_letter cat_car_dog.2 !! c2 = Some i -> c1 = c2).
Proof.
  apply (shortcut_letters_pairwise_distinct ["cat"; "car"; "dog"]). reflexivity.
Defined.

(** ** Splitting strings *)

Section SplitFacts.
Import PyStr.
Local Open Scope nat_scope.

Lemma length_append (s t : string) :
  String.length (s +:+ t) = String.length s + String.length t.
Proof. induction s as [|a s IH]; [done|]. rewrite append_cons; simpl. by rewrite IH. Qed.

Lemma prefix_nil (s : string) : String.prefix "" s = true.
Proof. by destruct s. Qed.

Lemma prefix_spec (sep s : string) :
  String.prefix sep s = true <-> exists r, s = sep +:+ r.
Proof.
  revert s. induction sep as [|c sep IH]; intros s.
  - rewrite prefix_nil. split; [by exists s|done].
  - destruct s as [|a s]; simpl.
    + split; [done|]. by intros [r Hr].
    + destruct (ascii_dec c a) as [->|Hne].
      * rewrite IH. split; intros [r Hr]; exists r.
        -- by rewrite append_cons, <- Hr.
        -- rewrite append_cons in Hr. by simplify_eq.
      * split; [done|]. intros [r Hr]. rewrite append_cons in Hr. by simplify_eq.
Qed.

Lemma drop_length_append (sep r : string) : drop (String.length sep) (sep +:+ r) = r.
Proof. induction sep as [|c sep IH]; [by destruct r|]. by rewrite append_cons. Qed.

Lemma find_sep_unfold (sep s : string) :
  find_sep sep s =
  if String.prefix sep s then Some ("", drop (String.length sep) s)
  else match s with
       | "" => None
       | String a r =>
           match find_sep sep r with
           | Some (before, after) => Some (String a before, after)
           | None => None
           end
       end.
Proof. by destruct s. Qed.

(** A cut splits the text around an occurrence of the separator. *)
Lemma find_sep_Some (sep s before after : string) :
  find_sep sep s = Some (before, after) -> s = before +:+ sep +:+ after.
Proof.
  revert before. induction s as [|a r IH]; intros before; rewrite find_sep_unfold.
  - destruct sep; [|done]. by intros [= <- <-].
  - destruct (String.prefix sep (String a r)) eqn:Hp.
    + apply prefix_spec in Hp as [r' Hr]. intros [= <- <-].
      by rewrite Hr, drop_length_append.
    + destruct (find_sep sep r) as [[b a']|] eqn:Hfind; [|done].
      intros [= <- <-]. by rewrite append_cons, <- (IH b).
Qed.

(** A separator that occurs is found. *)
Lemma find_sep_occurs (sep x y : string) : is_Some (find_sep sep (x +:+ sep +:+ y)).
Proof.
  induction x as [|a x IH]; rewrite find_sep_unfold.
  - rewrite append_nil_l.
    assert (String.prefix sep (sep +:+ y) = true) as -> by (apply prefix_spec; eauto).
    eauto.
  - destruct (String.prefix sep _); [eauto|].
    rewrite append_cons. by destruct IH as [[b a'] ->].
Qed.

Lemma find_sep_shorter (sep s before after : string) :
  sep <> "" -> find_sep sep s = Some (before, after) ->
  String.length after < String.length s.
Proof.
  intros Hsep ->%find_sep_Some. rewrite !length_append.
  destruct sep; [done|simpl; lia].
Qed.

Lemma find_sep_nil (sep : string) : sep <> "" -> find_sep sep "" = None.
Proof. by destruct sep. Qed.

(** The text up to the first separator, or all of it. *)
Definition first_piece (sep s : string) : string :=
  match find_sep sep s with
  | Some (before, _) => before
  | None => s
  end.

Lemma split_loop_head (sep s : string) (n : nat) :
  sep <> "" -> String.length s <= n ->
  exists tl, split_loop n sep s = first_piece sep s :: tl.
Proof.
  intros Hsep Hn. unfold first_piece. destruct n as [|n]; cbn [split_loop].
  - destruct s; [|simpl in Hn; lia]. rewrite find_sep_nil by done. eauto.
  - destruct (find_sep sep s) as [[b a]|]; eauto.
Qed.

Lemma split_loop_second (sep s : string) (n : nat) :
  sep <> "" -> String.length s <= n ->
  match find_sep sep s with
  | None => split_loop n sep s = [s]
  | Some (before, after) =>
      exists tl, split_loop n sep s = before :: first_piece sep after :: tl
  end.
Proof.
  intros Hsep Hn. destruct (find_sep sep s) as [[b a]|] eqn:Hfind.
  - destruct n as [|n]; cbn [split_loop].
    + destruct s; [|simpl in Hn; lia]. by rewrite find_sep_nil in Hfind.
    + rewrite Hfind. assert (Hlt := find_sep_shorter _ _ _ _ Hsep Hfind).
      destruct (split_loop_head sep a n Hsep ltac:(lia)) as [tl ->]. eauto.
  - destruct n as [|n]; cbn [split_loop]; [done|]. by rewrite Hfind.
Qed.

(** More rounds than the text has characters change nothing: the loop
    of [split] always runs to its end. *)
Lemma split_loop_fuel (sep s : string) (n m : nat) :
  sep <> "" -> String.length s <= n -> String.length s <= m ->
  split_loop n sep s = split_loop m sep s.
Proof.
  intros Hsep. revert s m. induction n as [|n IH]; intros s m Hn Hm.
  - destruct s; [|simpl in Hn; lia]. destruct m; cbn [split_loop]; [done|].
    by rewrite find_sep_nil.
  - destruct m as [|m]; cbn [split_loop].
    + destruct s; [|simpl in Hm; lia]. by rewrite find_sep_nil.
    + destruct (find_sep sep s) as [[b a]|] eqn:Hfind; [|done].
      assert (Hlt := find_sep_shorter _ _ _ _ Hsep Hfind).
      f_equal. apply IH; lia.
Qed.

Lemma first_piece_char_nil (c : ascii) : first_piece (String c "") "" = "".
Proof. done. Qed.

Lemma first_piece_char_cons (c a : ascii) (r : string) :
  first_piece (String c "") (String a r) =
  if decide (a = c) then "" else String a (first_piece (String c "") r).
Proof.
  unfold first_piece. rewrite find_sep_unfold. simpl.
  destruct (ascii_dec c a) as [->|Hne].
  - by rewrite prefix_nil, decide_True.
  - rewrite decide_False by done.
    by destruct (find_sep (String c "") r) as [[b a']|].
Qed.

Lemma find_sep_char (c : ascii) (s : string) :
  match find_sep (String c "") s with
  | Some (before, after) => s = before +:+ String c after /\ contains c before = false
  | None => contains c s = false
  end.
Proof.
  induction s as [|a r IH]; [done|]. rewrite find_sep_unfold. simpl.
  destruct (ascii_dec c a) as [->|Hne].
  - by rewrite prefix_nil.
  - rewrite (decide_False (P := a = c)) by done.
    destruct (find_sep (String c "") r) as [[b a']|]; [|done].
    destruct IH as [-> Hb]. split; [done|]. simpl. by rewrite decide_False.
Qed.

Lemma first_piece_prefix (sep s : string) : exists rest, s = first_piece sep s +:+ rest.
Proof.
  unfold first_piece. destruct (find_sep sep s) as [[b a]|] eqn:Hfind.
  - apply find_sep_Some in Hfind. eauto.
  - exists "". by rewrite append_nil_r.
Qed.

Lemma index_0 {A : Type} (x : A) (l : list A) : index (x :: l) 0 = Ok x.
Proof. unfold index; simpl. done. Qed.

Lemma index_1 {A : Type} (x y : A) (l : list A) : index (x :: y :: l) 1 = Ok y.
Proof.
  unfold index. cbv zeta. rewrite (decide_False (P := 1 < 0)%Z) by lia.
  rewrite decide_True by (simpl length; lia). done.
Qed.

Lemma index_1_single {A : Type} (x : A) : index [x] 1 = Raise IndexError.
Proof. done. Qed.

Lemma index_Ok_elem {A : Type} (l : list A) (i : Z) (x : A) : index l i = Ok x -> x ∈ l.
Proof.
  unfold index. case_decide; [|done].
  destruct (l !! _) eqn:Hl; [|done]. intros [= <-]. by eapply list_elem_of_lookup_2.
Qed.

End SplitFacts.

(** ** Parsing a filename *)

Section ParseFacts.
Import PyStr Session.
Local Open Scope nat_scope.

(** The naming scheme [serial_iteration...]: a serial without underscore,
    an underscore, and an iteration token that is not empty, that is, a
    next character that is neither an underscore nor a dot. *)
Definition follows_pattern (f : string) : Prop :=
  exists serial c rest,
    f = serial +:+ String "_" (String c rest)
    /\ contains "_" serial = false /\ c <> "_"%char /\ c <> "."%char.

Lemma contains_append (c : ascii) (s t : string) :
  contains c (s +:+ t) = contains c s || contains c t.
Proof.
  induction s as [|a s IH]; [done|]. rewrite append_cons; simpl.
  by case_decide.
Qed.

Lemma find_sep_char_first (c : ascii) (b a : string) :
  contains c b = false -> find_sep (String c "") (b +:+ String c a) = Some (b, a).
Proof.
  induction b as [|x b IH]; intros Hb.
  - rewrite append_nil_l, find_sep_unfold. simpl.
    destruct (ascii_dec c c); [|done]. by rewrite prefix_nil.
  - simpl in Hb. case_decide as Hx; [done|].
    rewrite append_cons, find_sep_unfold. simpl.
    destruct (ascii_dec c x); [congruence|]. by rewrite IH.
Qed.

Lemma find_sep_char_None (c : ascii) (s : string) :
  contains c s = false -> find_sep (String c "") s = None.
Proof.
  intros Hs. assert (H := find_sep_char c s).
  destruct (find_sep (String c "") s) as [[b a]|]; [|done].
  destruct H as [-> _]. rewrite contains_append in Hs. simpl in Hs.
  rewrite decide_True in Hs by done. by rewrite orb_true_r in Hs.
Qed.

(** The iteration token the parser takes from the text after the first
    underscore. *)
Definition iteration_of (after : string) : string :=
  first_piece "." (first_piece "_" after).

(** [parse_filename] without the intermediate lists. *)
Lemma parse_filename_eq (f : string) :
  parse_filename f =
  match find_sep "_" f with
  | None => Raise IndexError
  | Some (serial, after) =>
      if decide (iteration_of after = "") then Raise ValueError
      else match find_sep (iteration_of after) f with
           | None => Raise IndexError
           | Some (_, a) =>
               Ok (serial, iteration_of after,
                   (splitext (first_piece (iteration_of after) a)).1)
           end
  end.
Proof.
  unfold parse_filename, split, iteration_of.
  rewrite (decide_False (P := "_" = "")) by done.
  assert (H1 := split_loop_second "_" f (String.length f) ltac:(done) ltac:(lia)).
  destruct (find_sep "_" f) as [[serial after]|]; [|by rewrite H1].
  destruct H1 as [tl ->]. rewrite index_0, index_1.
  rewrite (decide_False (P := "." = "")) by done.
  destruct (split_loop_head "." (first_piece "_" after)
              (String.length (first_piece "_" after)) ltac:(done) ltac:(lia)) as [tl' ->].
  rewrite index_0. case_decide as Hitr; [done|].
  assert (H2 := split_loop_second (first_piece "." (first_piece "_" after)) f
                  (String.length f) Hitr ltac:(lia)).
  destruct (find_sep (first_piece "." (first_piece "_" after)) f) as [[b a]|].
  - destruct H2 as [tl'' ->]. by rewrite index_1.
  - by rewrite H2.
Qed.

Lemma iteration_of_empty (after : string) :
  iteration_of after = "" <->
  after = "" \/ exists c rest, after = String c rest /\ (c = "_"%char \/ c = "."%char).
Proof.
  unfold iteration_of. destruct after as [|c rest].
  - rewrite !first_piece_char_nil. naive_solver.
  - rewrite first_piece_char_cons. case_decide as Hu.
    + rewrite first_piece_char_nil. naive_solver.
    + rewrite first_piece_char_cons. case_decide as Hd; naive_solver.
Qed.

Lemma parse_filename_no_underscore (f : string) :
  contains "_" f = false -> parse_filename f = Raise IndexError.
Proof. intros Hf. by rewrite parse_filename_eq, find_sep_char_None. Qed.

Lemma parse_filename_on_pattern (f : string) :
  follows_pattern f -> exists t, parse_filename f = Ok t.
Proof.
  intros (serial & c & rest & -> & Hserial & Hu & Hd).
  rewrite parse_filename_eq, find_sep_char_first by done.
  rewrite decide_False; last first.
  { rewrite iteration_of_empty. naive_solver. }
  destruct (first_piece_prefix "_" (String c rest)) as [r2 Hr2].
  destruct (first_piece_prefix "." (first_piece "_" (String c rest))) as [r1 Hr1].
  fold (iteration_of (String c rest)) in Hr1.
  assert (Hocc : is_Some (find_sep (iteration_of (String c rest))
                   (serial +:+ String "_" (String c rest)))).
  { rewrite Hr2 at 2. rewrite Hr1.
    replace (serial +:+ String "_" ((iteration_of (String c rest) +:+ r1) +:+ r2))
      with ((serial +:+ "_") +:+ iteration_of (String c rest) +:+ (r1 +:+ r2)).
    - apply find_sep_occurs.
    - by rewrite !append_assoc. }
  destruct Hocc as [[b a] ->]. eauto.
Qed.

Lemma parse_filename_Ok_pattern (f : string) t :
  parse_filename f = Ok t -> follows_pattern f.
Proof.
  rewrite parse_filename_eq. assert (H := find_sep_char "_" f).
  destruct (find_sep "_" f) as [[serial after]|]; [|done].
  destruct H as [-> Hserial]. case_decide as Hitr; [done|]. intros _.
  rewrite iteration_of_empty in Hitr.
  destruct after as [|c rest]; [naive_solver|].
  exists serial, c, rest. repeat split; [done|..]; intros ->; naive_solver.
Qed.

End ParseFacts.

(** ** The text of the log file *)

Section LogTextFacts.
Import PyStr.
Local Open Scope nat_scope.

(** The two line-break characters. *)
Definition LF : ascii := "010"%char.
Definition CR : ascii := "013"%char.

(** A name or field without line break. *)
Definition no_linebreak (s : string) : Prop :=
  contains LF s = false /\ contains CR s = false.

(** The text is empty or its last character is a line feed. *)
Fixpoint terminated (s : string) : bool :=
  match s with
  | "" => true
  | String a r =>
      match r with
      | "" => bool_decide (a = LF)
      | String _ _ => terminated r
      end
  end.

(** A log text that reads back as it was written: no carriage return,
    and every line closed. *)
Definition clean_text (c : string) : Prop :=
  contains CR c = false /\ terminated c = true.

Lemma translate_newlines_id (s : string) :
  contains CR s = false -> translate_newlines s = s.
Proof.
  induction s as [|a r IH]; [done|]. simpl. fold CR.
  case_decide as Ha; [done|]. intros Hr. by rewrite IH.
Qed.

Lemma writelines_lines (s : string) : writelines (lines s) = s.
Proof.
  induction s as [|a r IH]; [done|]. simpl. case_decide as Ha.
  - simpl. by rewrite IH.
  - destruct (lines r) as [|l ls]; simpl in *.
    + by rewrite <- IH.
    + by rewrite append_cons, IH.
Qed.

Lemma lines_cons (a : ascii) (r : string) :
  lines (String a r) =
  if decide (a = LF) then String a "" :: lines r
  else match lines r with
       | [] => [String a ""]
       | l :: ls => String a l :: ls
       end.
Proof. done. Qed.

Lemma lines_nonempty (a : ascii) (r : string) : lines (String a r) <> [].
Proof. simpl. case_decide; [done|]. by destruct (lines r). Qed.

Lemma lines_app_terminated (s t : string) :
  terminated s = true -> lines (s +:+ t) = lines s ++ lines t.
Proof.
  induction s as [|a r IH]; [done|]. intros Hterm. rewrite append_cons.
  destruct r as [|b r'].
  - simpl in Hterm. apply bool_decide_eq_true in Hterm as ->.
    rewrite append_nil_l. by simpl.
  - specialize (IH Hterm). rewrite !(lines_cons a), IH.
    case_decide as Ha; [done|]. assert (Hne := lines_nonempty b r').
    by destruct (lines (String b r')).
Qed.

Lemma lines_one_row (row : string) :
  contains LF row = false -> lines (row +:+ String LF "") = [row +:+ String LF ""].
Proof.
  induction row as [|a r IH]; [done|]. simpl. case_decide as Ha; [done|].
  intros Hr. rewrite (decide_False (P := a = "010"%char)) by done.
  by rewrite (IH Hr).
Qed.

Lemma terminated_append_LF (s : string) : terminated (s +:+ String LF "") = true.
Proof.
  induction s as [|a r IH]; [done|]. rewrite append_cons.
  destruct r as [|b r']; [done|]. by rewrite append_cons in *.
Qed.

Lemma removelast_snoc {A : Type} (l : list A) (x : A) : removelast (l ++ [x]) = l.
Proof. induction l as [|y l IH]; [done|]. simpl. rewrite IH. by destruct l. Qed.

(** Appending one row without line break to a clean text: the text stays
    clean, it reads as one more line, and dropping the last line gives
    the old text back. *)
Lemma clean_text_append (c row : string) :
  clean_text c -> no_linebreak row -> clean_text (c +:+ row +:+ String LF "").
Proof.
  intros [Hcr _] [_ Hrow]. split.
  - rewrite !contains_append, Hcr, Hrow. done.
  - rewrite <- append_assoc. apply terminated_append_LF.
Qed.

Lemma readlines_append (c row : string) :
  clean_text c -> no_linebreak row ->
  readlines (c +:+ row +:+ String LF "") = readlines c ++ [row +:+ String LF ""].
Proof.
  intros Hc Hrow. destruct (clean_text_append c row Hc Hrow) as [Hcr' _].
  destruct Hc as [Hcr Hterm]. destruct Hrow as [Hlf _].
  unfold readlines. rewrite !translate_newlines_id by done.
  by rewrite lines_app_terminated, lines_one_row.
Qed.

Lemma undo_last_row (c row : string) :
  clean_text c -> no_linebreak row ->
  writelines (removelast (readlines (c +:+ row +:+ String LF ""))) = c.
Proof.
  intros Hc Hrow. rewrite readlines_append, removelast_snoc by done.
  unfold readlines. rewrite translate_newlines_id by apply Hc.
  apply writelines_lines.
Qed.

Lemma clean_text_empty : clean_text "".
Proof. done. Qed.

Lemma no_linebreak_append (s t : string) :
  no_linebreak s -> no_linebreak t -> no_linebreak (s +:+ t).
Proof.
  intros [H1 H2] [H3 H4]. split; rewrite contains_append; by rewrite ?H1, ?H2, ?H3, ?H4.
Qed.

Lemma contains_take (c : ascii) (n : nat) (s : string) :
  contains c s = false -> contains c (take n s) = false.
Proof.
  revert n. induction s as [|a r IH]; intros [|n]; simpl; try done.
  case_decide; [done|]. apply IH.
Qed.

Lemma contains_first_piece (c : ascii) (sep s : string) :
  contains c s = false -> contains c (first_piece sep s) = false.
Proof.
  destruct (first_piece_prefix sep s) as [rest Hrest]. intros Hs.
  rewrite Hrest, contains_append in Hs. by apply orb_false_elim in Hs as [? _].
Qed.

Lemma contains_find_sep (c : ascii) (sep s before after : string) :
  find_sep sep s = Some (before, after) -> contains c s = false ->
  contains c before = false /\ contains c after = false.
Proof.
  intros ->%find_sep_Some. rewrite !contains_append.
  intros [? [_ ?]%orb_false_elim]%orb_false_elim. done.
Qed.

Lemma contains_splitext (c : ascii) (p : string) :
  contains c p = false -> contains c (splitext p).1 = false.
Proof.
  intros Hp. unfold splitext. case_decide; [|done].
  destruct (all_dots _); [done|]. simpl. by apply contains_take.
Qed.

(** The fields cut out of a filename have no character the filename
    does not have. *)
Lemma parse_filename_contains (c : ascii) (f serial itr fname : string) :
  Session.parse_filename f = Ok (serial, itr, fname) -> contains c f = false ->
  contains c serial = false /\ contains c itr = false /\ contains c fname = false.
Proof.
  rewrite parse_filename_eq. intros Hparse Hf.
  destruct (find_sep "_" f) as [[b a]|] eqn:Hfind; [|done].
  destruct (contains_find_sep c _ _ _ _ Hfind Hf) as [Hb Ha].
  case_decide; [done|].
  destruct (find_sep (iteration_of a) f) as [[b' a']|] eqn:Hfind'; [|done].
  destruct (contains_find_sep c _ _ _ _ Hfind' Hf) as [_ Ha'].
  simplify_eq. split; [done|]. split.
  - unfold iteration_of. by do 2 apply contains_first_piece.
  - by apply contains_splitext, contains_first_piece.
Qed.

Lemma log_row_no_linebreak (now serial itr fname label : string) :
  no_linebreak now -> no_linebreak serial -> no_linebreak itr ->
  no_linebreak fname -> no_linebreak label ->
  exists row, Session.log_row now serial itr fname label = row +:+ String LF ""
              /\ no_linebreak row.
Proof.
  intros Hnow Hserial Hitr Hfname Hlabel.
  exists (join "," [now; serial; itr; fname; label]). split; [done|].
  unfold join; simpl.
  assert (Hcomma : no_linebreak ",") by done.
  repeat (apply no_linebreak_append; [done|]). done.
Qed.

End LogTextFacts.

(** ** The callbacks, step by step *)

Section CallbackFacts.
Import PyStr Session.

Lemma change_img_eq (g : env) (decrement : bool) (s : state) :
  change_img g decrement s =
  let idx := if decrement then img_idx s - 1 else img_idx s + 1 in
  if decide (idx >= Z.of_nat (length (image_filenames g))) then
    (Ok (Some (showinfo idx)), set_quit true (set_img_idx idx s))
  else
    (match index (image_filenames g) idx with
     | Raise e => Raise e
     | Ok name =>
         match disk s !! (path g ++ [name]) with
         | Some (File c) => if can_open g c then Ok None else Raise UnidentifiedImageError
         | _ => Raise OSError
         end
     end, set_img_idx idx s).
Proof.
  unfold change_img, open_image, bind, get, modify, lift, ret, raise. simpl.
  case_decide; [done|]. destruct (index _ _) as [name|e]; [|done]. simpl.
  destruct (disk s !! _) as [[c|]|]; try done. by destruct (can_open g c).
Qed.

(** [change_img] touches the cursor and the quit flag only. *)
Lemma change_img_frame (g : env) (decrement : bool) (s s' : state) r :
  change_img g decrement s = (r, s') ->
  disk s' = disk s /\ undo s' = undo s
  /\ img_idx s' = (if decrement then img_idx s - 1 else img_idx s + 1).
Proof.
  rewrite change_img_eq. cbv zeta. case_decide; by intros [= <- <-].
Qed.

Lemma append_log_eq (g : env) (row : string) (s : state) :
  append_log g row s =
  match disk s !! outfile g with
  | Some Dir => (Raise OSError, s)
  | Some (File c) => (Ok tt, set_disk (<[outfile g := File (c +:+ row)]> (disk s)) s)
  | None =>
      if Os.isdir (disk s) (Os.dirname (outfile g))
      then (Ok tt, set_disk (<[outfile g := File row]> (disk s)) s)
      else (Raise OSError, s)
  end.
Proof.
  unfold append_log, bind, get, modify, raise.
  destruct (disk s !! outfile g) as [[c|]|]; try done. by destruct (Os.isdir _ _).
Qed.

Lemma os_rename_eq (src dst : path_t) (s : state) :
  os_rename src dst s =
  match Os.rename (disk s) src dst with
  | Ok d => (Ok tt, set_disk d s)
  | Raise e => (Raise e, s)
  end.
Proof.
  unfold os_rename, bind, get, lift, modify. by destruct (Os.rename _ _ _).
Qed.

(** [on_btn_click], one step after the other. *)
Lemma on_btn_click_eq (g : env) (btn_idx : nat) (now : string) (s : state) :
  on_btn_click g btn_idx now s =
  match index (labels g) (Z.of_nat btn_idx) with
  | Raise e => (Raise e, s)
  | Ok label =>
      match index (image_filenames g) (img_idx s) with
      | Raise e => (Raise e, s)
      | Ok img_filename =>
          match parse_filename img_filename with
          | Raise e => (Raise e, s)
          | Ok (serial, itr, fname) =>
              match append_log g (log_row now serial itr fname label) s with
              | (Raise e, s1) => (Raise e, s1)
              | (Ok _, s1) =>
                  match os_rename (path g ++ [img_filename])
                                  (path g ++ [label; img_filename]) s1 with
                  | (Raise e, s2) => (Raise e, s2)
                  | (Ok _, s2) =>
                      change_img g false
                        (set_undo [path g ++ [label; img_filename];
                                   path g ++ [img_filename]] s2)
                  end
              end
          end
      end
  end.
Proof.
  unfold on_btn_click, bind, get, lift, modify.
  destruct (index (labels g) _) as [label|e]; [|done].
  destruct (index (image_filenames g) _) as [f|e]; [|done].
  destruct (parse_filename f) as [[[serial itr] fname]|e]; [|done].
  destruct (append_log _ _ _) as [[[]|e] s1]; [|done].
  by destruct (os_rename _ _ _) as [[[]|e] s2].
Qed.

(** [undo_click], one step after the other. *)
Lemma undo_click_eq (g : env) (s : state) :
  undo_click g s =
  match undo s with
  | [undo0; undo1] =>
      if Os.isfile (disk s) undo0 then
        match os_rename undo0 undo1 s with
        | (Raise e, s1) => (Raise e, s1)
        | (Ok _, s1) =>
            match change_img g true s1 with
            | (Raise e, s2) => (Raise e, s2)
            | (Ok shown, s2) =>
                match disk s2 !! outfile g with
                | Some (File c) =>
                    (Ok shown,
                     set_disk (<[outfile g :=
                                   File (writelines (all_but_last (readlines c)))]> (disk s2)) s2)
                | _ => (Raise OSError, s2)
                end
            end
        end
      else (Ok (Some (showwarning "Sorry, you can only undo once!")), s)
  | _ => (Ok (Some (showwarning "Nothing to undo.")), s)
  end.
Proof.
  unfold undo_click, bind, get, ret.
  destruct (undo s) as [|u0 [|u1 [|??]]]; try done.
  destruct (Os.isfile _ _); [|done].
  destruct (os_rename _ _ _) as [[[]|e] s1]; [|done].
  destruct (change_img _ _ _) as [[shown|e] s2]; [|done].
  unfold read_log, write_log, bind, get, ret, raise, modify.
  destruct (disk s2 !! outfile g) as [[c|]|] eqn:Hlog; try done.
  by rewrite Hlog.
Qed.

(** *** The disk *)

Lemma isfile_true (fs : filesystem) (p : path_t) :
  Os.isfile fs p = true <-> exists c, fs !! p = Some (File c).
Proof.
  unfold Os.isfile. destruct (fs !! p) as [[c|]|]; naive_solver.
Qed.

Lemma isdir_true (fs : filesystem) (p : path_t) :
  Os.isdir fs p = true <-> fs !! p = Some Dir.
Proof.
  unfold Os.isdir. destruct (fs !! p) as [[c|]|]; naive_solver.
Qed.

Lemma dirname_1 (p : path_t) (a : string) : Os.dirname (p ++ [a]) = p.
Proof. apply removelast_snoc. Qed.

Lemma dirname_2 (p : path_t) (a b : string) : Os.dirname (p ++ [a; b]) = p ++ [a].
Proof.
  replace (p ++ [a; b]) with ((p ++ [a]) ++ [b]) by (by rewrite <- app_assoc).
  apply removelast_snoc.
Qed.

(** Renaming a regular file onto a different path that is free or holds
    a regular file, inside an existing directory. *)
Lemma rename_file (fs : filesystem) (src dst : path_t) (c : string) :
  fs !! src = Some (File c) -> src <> dst ->
  Os.rename fs src dst =
  if Os.isdir fs (Os.dirname dst)
  then match fs !! dst with
       | Some Dir => Raise OSError
       | _ => Ok (<[dst := File c]> (delete src fs))
       end
  else Raise OSError.
Proof.
  intros Hsrc Hne. unfold Os.rename. rewrite Hsrc.
  destruct (Os.isdir fs (Os.dirname dst)); simpl; [|done].
  destruct (fs !! dst) as [[c'|]|]; try done; by rewrite decide_False.
Qed.

End CallbackFacts.

(** ** A label action on a filename that does not parse *)

Section ParseTheorems.
Import PyStr Session.

(** C9.  The parse succeeds exactly on the filenames that follow the
    naming scheme.  A filename without underscore makes it raise
    [IndexError]; every filename off the scheme makes it raise, and then
    the label action on that filename raises the same exception. *)
Theorem parse_fails_off_pattern (f : string) :
  (follows_pattern f <-> exists t, parse_filename f = Ok t)
  /\ (contains "_" f = false -> parse_filename f = Raise IndexError)
  /\ (~ follows_pattern f ->
      exists e, parse_filename f = Raise e
        /\ forall g btn_idx now s label,
             index (labels g) (Z.of_nat btn_idx) = Ok label ->
             index (image_filenames g) (img_idx s) = Ok f ->
             (on_btn_click g btn_idx now s).1 = Raise e).
Proof.
  split; [|split].
  - split; [apply parse_filename_on_pattern|].
    intros [t Ht]. by eapply parse_filename_Ok_pattern.
  - apply parse_filename_no_underscore.
  - intros Hoff. destruct (parse_filename f) as [t|e] eqn:Hparse.
    + destruct Hoff. by eapply parse_filename_Ok_pattern.
    + exists e. split; [done|]. intros g btn_idx now s label Hlabel Hf.
      by rewrite on_btn_click_eq, Hlabel, Hf, Hparse.
Qed.

(** C10.  When the filename of the current image does not parse, the
    label action raises the parser's exception and leaves the whole
    state as it was: no row in the log, no file moved, the undo record
    and the cursor untouched. *)
Theorem parse_failure_is_atomic
    (g : env) (btn_idx : nat) (now : string) (s : state)
    (label f : string) (e : exn) :
  index (labels g) (Z.of_nat btn_idx) = Ok label ->
  index (image_filenames g) (img_idx s) = Ok f ->
  parse_filename f = Raise e ->
  on_btn_click g btn_idx now s = (Raise e, s).
Proof.
  intros Hlabel Hf Hparse. by rewrite on_btn_click_eq, Hlabel, Hf, Hparse.
Qed.

End ParseTheorems.

(** ** A small directory to run the callbacks on *)

Definition demo_disk : filesystem :=
  list_to_map
    [ (["imgs"], Dir);
      (["imgs"; "cat"], Dir);
      (["imgs"; "dog"], Dir);
      (["imgs"; "7_1.png"], File "first");
      (["imgs"; "8_2.jpg"], File "second");
      (["imgs"; "plain.png"], File "third") ].

Definition demo_env : env :=
  {| path := ["imgs"];
     labels := ["cat"; "dog"];
     image_filenames := ["7_1.png"; "8_2.jpg"; "plain.png"];
     keys := (Startup.load_labels_from ["cat"; "dog"]).2;
     can_open := fun _ => true |}.

Definition demo_state (i : Z) : state :=
  {| img_idx := i; undo := []; disk := demo_disk; quit := false |}.

Lemma parse_failure_is_atomic_witness :
  Session.on_btn_click demo_env 0 "2024-05-01 10:00:00" (demo_state 2)
  = (Raise IndexError, demo_state 2).
Proof.
  apply (parse_failure_is_atomic demo_env 0 "2024-05-01 10:00:00" (demo_state 2)
           "cat" "plain.png" IndexError); reflexivity.
Defined.

(** ** What holds of every state of a session *)

Section SessionInvariant.
Import PyStr Session.

(** Start-up leaves image names only in the queue. *)
Definition env_ok (g : env) : Prop :=
  forall f, f ∈ image_filenames g -> Startup.is_image_name f = true.

(** The undo record is empty, or it is the pair a label action wrote;
    while the moved file is still in its label directory, its old place
    in the root directory is free. *)
Definition undo_ok (g : env) (s : state) : Prop :=
  undo s = [] \/
  exists label f,
    undo s = [path g ++ [label; f]; path g ++ [f]]
    /\ f ∈ image_filenames g
    /\ (Os.isfile (disk s) (path g ++ [label; f]) = true ->
        disk s !! (path g ++ [f]) = None).

(** The root directory exists, no queued name is a directory, and the
    undo record is in order. *)
Record Inv (g : env) (s : state) : Prop := {
  inv_root : Os.isdir (disk s) (path g) = true;
  inv_queue : forall f, f ∈ image_filenames g -> disk s !! (path g ++ [f]) <> Some Dir;
  inv_undo : undo_ok g s
}.

Lemma path_neq_2_1 (p : path_t) (a b c : string) : p ++ [a; b] <> p ++ [c].
Proof. by intros ?%app_inv_head. Qed.

Lemma path_neq_0_1 (p : path_t) (a : string) : p <> p ++ [a].
Proof. intros H%(f_equal length). rewrite length_app in H. simpl in H. lia. Qed.

Lemma path_neq_0_2 (p : path_t) (a b : string) : p <> p ++ [a; b].
Proof. intros H%(f_equal length). rewrite length_app in H. simpl in H. lia. Qed.

Lemma queued_not_log (g : env) (f : string) :
  env_ok g -> f ∈ image_filenames g -> path g ++ [f] <> outfile g.
Proof.
  intros Hok Hf Heq%app_inv_head. simplify_eq. by apply Hok in Hf.
Qed.

Lemma moved_not_log (g : env) (label f : string) : path g ++ [label; f] <> outfile g.
Proof. apply path_neq_2_1. Qed.

Lemma root_not_log (g : env) : path g <> outfile g.
Proof. apply path_neq_0_1. Qed.

Lemma Inv_frame (g : env) (s s' : state) :
  disk s' = disk s -> undo s' = undo s -> Inv g s -> Inv g s'.
Proof.
  intros Hd Hu [Hroot Hqueue Hundo]. split; unfold undo_ok; rewrite ?Hd, ?Hu; done.
Qed.

(** Writing the log keeps the invariant. *)
Lemma Inv_write_log (g : env) (s : state) (text : string) :
  env_ok g -> Inv g s ->
  Inv g (set_disk (<[outfile g := File text]> (disk s)) s).
Proof.
  intros Hok [Hroot Hqueue Hundo]. split; simpl.
  - apply isdir_true. rewrite lookup_insert_ne by (symmetry; apply root_not_log).
    by apply isdir_true.
  - intros f Hf. rewrite lookup_insert_ne by (symmetry; by apply queued_not_log).
    by apply Hqueue.
  - destruct Hundo as [Hnil|(label & f & Hrec & Hf & Hfree)]; [by left|right].
    exists label, f. simpl. repeat split; [done..|].
    rewrite !isfile_true.
    rewrite lookup_insert_ne by (symmetry; apply moved_not_log).
    rewrite lookup_insert_ne by (symmetry; by apply queued_not_log).
    rewrite <- isfile_true. apply Hfree.
Qed.

(** Moving the current image into a label directory and recording the
    move keeps the invariant. *)
Lemma Inv_move (g : env) (s : state) (label f c : string) :
  Inv g s -> f ∈ image_filenames g ->
  Inv g (set_undo [path g ++ [label; f]; path g ++ [f]]
           (set_disk (<[path g ++ [label; f] := File c]>
                        (delete (path g ++ [f]) (disk s))) s)).
Proof.
  intros [Hroot Hqueue Hundo] Hf. split; simpl.
  - apply isdir_true. rewrite lookup_insert_ne by (symmetry; apply path_neq_0_2).
    rewrite lookup_delete_ne by (symmetry; apply path_neq_0_1). by apply isdir_true.
  - intros f' Hf'. rewrite lookup_insert_ne by apply path_neq_2_1.
    destruct (decide (path g ++ [f] = path g ++ [f'])) as [<-|Hne].
    + by rewrite lookup_delete_eq.
    + rewrite lookup_delete_ne by done. by apply Hqueue.
  - right. exists label, f. simpl. repeat split; [done|].
    intros _. rewrite lookup_insert_ne by apply path_neq_2_1.
    apply lookup_delete_eq.
Qed.

(** Moving the file of the undo record back keeps the invariant. *)
Lemma Inv_move_back (g : env) (s : state) (label f c : string) :
  Inv g s -> undo s = [path g ++ [label; f]; path g ++ [f]] ->
  Inv g (set_disk (<[path g ++ [f] := File c]>
                     (delete (path g ++ [label; f]) (disk s))) s).
Proof.
  intros [Hroot Hqueue Hundo] Hrec. split; simpl.
  - apply isdir_true. rewrite lookup_insert_ne by (symmetry; apply path_neq_0_1).
    rewrite lookup_delete_ne by (symmetry; apply path_neq_0_2). by apply isdir_true.
  - intros f' Hf'. destruct (decide (path g ++ [f] = path g ++ [f'])) as [<-|Hne].
    + by rewrite lookup_insert_eq.
    + rewrite lookup_insert_ne by done.
      rewrite lookup_delete_ne by apply path_neq_2_1. by apply Hqueue.
  - destruct Hundo as [Hnil|(label' & f' & Hrec' & Hf' & _)]; [congruence|].
    right. exists label', f'. simpl. repeat split; [done..|].
    rewrite Hrec in Hrec'. simplify_eq.
    rewrite isfile_true. intros [c' Hc'].
    rewrite lookup_insert_ne in Hc' by (symmetry; apply path_neq_2_1).
    by rewrite lookup_delete_eq in Hc'.
Qed.

Lemma change_img_Inv (g : env) (decrement : bool) (s s' : state) r :
  Inv g s -> change_img g decrement s = (r, s') -> Inv g s'.
Proof.
  intros Hinv (Hd & Hu & _)%change_img_frame. by eapply Inv_frame.
Qed.

Lemma append_log_Inv (g : env) (row : string) (s s' : state) r :
  env_ok g -> Inv g s -> append_log g row s = (r, s') -> Inv g s'.
Proof.
  intros Hok Hinv. rewrite append_log_eq.
  destruct (disk s !! outfile g) as [[c|]|].
  - intros [= <- <-]. by apply Inv_write_log.
  - by intros [= <- <-].
  - destruct (Os.isdir _ _); intros [= <- <-]; [by apply Inv_write_log|done].
Qed.

(** The source of a label action's move is a regular file. *)
Lemma queued_rename_file (g : env) (s : state) (f : string) (dst : path_t) d :
  Inv g s -> f ∈ image_filenames g ->
  Os.rename (disk s) (path g ++ [f]) dst = Ok d ->
  exists c, disk s !! (path g ++ [f]) = Some (File c).
Proof.
  intros Hinv Hf. unfold Os.rename.
  destruct (disk s !! (path g ++ [f])) as [[c|]|] eqn:Hsrc; [eauto| |done].
  by destruct (inv_queue _ _ Hinv f Hf).
Qed.

(** Every outcome of a label action keeps the invariant. *)
Lemma on_btn_click_Inv (g : env) (btn_idx : nat) (now : string) (s s' : state) r :
  env_ok g -> Inv g s -> on_btn_click g btn_idx now s = (r, s') -> Inv g s'.
Proof.
  intros Hok Hinv. rewrite on_btn_click_eq.
  destruct (index (labels g) _) as [label|e]; [|by intros [= <- <-]].
  destruct (index (image_filenames g) _) as [f|e] eqn:Hf; [|by intros [= <- <-]].
  apply index_Ok_elem in Hf.
  destruct (parse_filename f) as [[[serial itr] fname]|e]; [|by intros [= <- <-]].
  destruct (append_log _ _ _) as [[[]|e] s1] eqn:Hlog;
    [|intros [= <- <-]; by eapply append_log_Inv].
  assert (Hinv1 : Inv g s1) by (by eapply append_log_Inv).
  rewrite os_rename_eq.
  destruct (Os.rename _ _ _) as [d|e] eqn:Hren; [|by intros [= <- <-]].
  destruct (queued_rename_file _ _ _ _ _ Hinv1 Hf Hren) as [c Hc].
  rewrite (rename_file _ _ _ c Hc) in Hren by (symmetry; apply path_neq_2_1).
  destruct (Os.isdir _ _); [|done].
  assert (d = <[path g ++ [label; f] := File c]> (delete (path g ++ [f]) (disk s1))) as ->.
  { by destruct (disk s1 !! (path g ++ [label; f])) as [[c'|]|]; simplify_eq. }
  intros Hchange. eapply change_img_Inv; [|exact Hchange].
  by apply Inv_move.
Qed.

(** Every outcome of an undo keeps the invariant. *)
Lemma undo_click_Inv (g : env) (s s' : state) r :
  env_ok g -> Inv g s -> undo_click g s = (r, s') -> Inv g s'.
Proof.
  intros Hok Hinv. rewrite undo_click_eq.
  destruct (inv_undo _ _ Hinv) as [Hnil|(label & f & Hrec & Hf & Hfree)].
  { rewrite Hnil. by intros [= <- <-]. }
  rewrite Hrec. destruct (Os.isfile _ _) eqn:Hfile; [|by intros [= <- <-]].
  specialize (Hfree eq_refl). apply isfile_true in Hfile as [c Hc].
  rewrite os_rename_eq, (rename_file _ _ _ c Hc) by apply path_neq_2_1.
  rewrite dirname_1, (inv_root _ _ Hinv), Hfree.
  destruct (change_img _ _ _) as [[shown|e] s2] eqn:Hchange.
  - assert (Hinv2 : Inv g s2).
    { eapply change_img_Inv; [|exact Hchange]. by apply Inv_move_back. }
    destruct (disk s2 !! outfile g) as [[c'|]|]; intros [= <- <-]; [|done..].
    by apply Inv_write_log.
  - intros [= <- <-]. eapply change_img_Inv; [|exact Hchange]. by apply Inv_move_back.
Qed.

Lemma dispatch_Inv (g : env) (ev : event) (s s' : state) r :
  env_ok g -> Inv g s -> dispatch g ev s = (r, s') -> Inv g s'.
Proof.
  intros Hok Hinv. destruct ev as [btn_idx now| |char now]; simpl.
  - by apply on_btn_click_Inv.
  - by apply undo_click_Inv.
  - unfold handle_keypress. destruct char as [|c [|??]]; try by intros [= <- <-].
    destruct (_ !! c); [by apply on_btn_click_Inv|by intros [= <- <-]].
Qed.

(** The event loop keeps the invariant. *)
Lemma run_Inv (g : env) (evs : list event) (s s' : state) rs :
  env_ok g -> Inv g s -> run g evs s = (rs, s') -> Inv g s'.
Proof.
  intros Hok. revert s rs. induction evs as [|ev evs IH]; intros s rs Hinv; simpl.
  - by intros [= <- <-].
  - destruct (quit s); [by intros [= <- <-]|].
    destruct (dispatch g ev s) as [r s1] eqn:Hd.
    destruct (run g evs s1) as [rs' s2] eqn:Hrun. intros [= <- <-].
    eapply IH; [|exact Hrun]. by eapply dispatch_Inv.
Qed.

(** Start-up establishes the invariant. *)
Lemma startup_Inv (rnd : nat -> nat) (opens : string -> bool)
    (fs : filesystem) (p : path_t) (ls : list string) (d : shortcuts) :
  Startup.load_labels fs p = Ok (ls, d) ->
  let g := {| path := p; labels := ls;
              image_filenames := Startup.load_image_filenames rnd fs p;
              keys := d; can_open := opens |} in
  env_ok g /\ Inv g (initial fs).
Proof.
  intros Hload g.
  split.
  - intros f Hf. apply elem_of_load_image_filenames in Hf as (_ & _ & Himg).
    by apply is_image_name_spec.
  - split; simpl.
    + unfold Startup.load_labels, Os.walk in Hload. by destruct (Os.isdir fs p).
    + intros f (_ & [c Hc] & _)%elem_of_load_image_filenames. congruence.
    + by left.
Qed.

End SessionInvariant.

(** ** What a label action that returns has done *)

Section LabelFacts.
Import PyStr Session.

Lemma index_Ok_lt {A : Type} (l : list A) (i : Z) (x : A) :
  index l i = Ok x -> i < Z.of_nat (length l).
Proof. unfold index. repeat case_decide; (done || lia). Qed.

(** A result that is no exception. *)
Definition succeeded {A : Type} (r : result A) : Prop :=
  match r with
  | Ok _ => True
  | Raise _ => False
  end.

(** The cursor, the dialog and the quit flag after a label action that
    returns: one image further, and finished exactly at the end. *)
Lemma on_btn_click_cursor (g : env) (btn_idx : nat) (now : string) (s s' : state) r :
  on_btn_click g btn_idx now s = (Ok r, s') ->
  img_idx s < Z.of_nat (length (image_filenames g))
  /\ img_idx s' = img_idx s + 1
  /\ r = (if decide (img_idx s + 1 >= Z.of_nat (length (image_filenames g)))
          then Some (showinfo (img_idx s + 1)) else None)
  /\ quit s' = (if decide (img_idx s + 1 >= Z.of_nat (length (image_filenames g)))
                then true else quit s).
Proof.
  rewrite on_btn_click_eq.
  destruct (index (labels g) _) as [label|e]; [|done].
  destruct (index (image_filenames g) _) as [f|e] eqn:Hf; [|done].
  apply index_Ok_lt in Hf.
  destruct (parse_filename f) as [[[serial itr] fname]|e]; [|done].
  destruct (append_log _ _ _) as [[[]|e] s1] eqn:Hlog; [|done].
  assert (img_idx s1 = img_idx s /\ quit s1 = quit s) as [Hi1 Hq1].
  { rewrite append_log_eq in Hlog.
    destruct (disk s !! outfile g) as [[c|]|]; simplify_eq; try done.
    destruct (Os.isdir _ _); by simplify_eq. }
  rewrite os_rename_eq. destruct (Os.rename _ _ _) as [d|e]; [|done].
  rewrite change_img_eq. simpl. rewrite Hi1.
  case_decide.
  - intros [= <- <-]. simpl. done.
  - destruct (index (image_filenames g) _); [|done].
    destruct (_ !! _) as [[c|]|]; try done.
    destruct (can_open g c); [|done]. intros [= <- <-]. simpl. by rewrite Hq1.
Qed.

(** The disk and the undo record after a label action that returns:
    one row more in the log, the current image in its label directory,
    the move recorded. *)
Lemma on_btn_click_Ok (g : env) (btn_idx : nat) (now : string) (s s' : state) r :
  env_ok g -> Inv g s -> on_btn_click g btn_idx now s = (Ok r, s') ->
  exists label f serial itr fname c,
    index (labels g) (Z.of_nat btn_idx) = Ok label
    /\ index (image_filenames g) (img_idx s) = Ok f
    /\ parse_filename f = Ok (serial, itr, fname)
    /\ disk s !! (path g ++ [f]) = Some (File c)
    /\ disk s' =
       <[path g ++ [label; f] := File c]>
         (delete (path g ++ [f])
            (<[outfile g := File (log_content g s +:+ log_row now serial itr fname label)]>
               (disk s)))
    /\ undo s' = [path g ++ [label; f]; path g ++ [f]].
Proof.
  intros Hok Hinv. rewrite on_btn_click_eq.
  destruct (index (labels g) _) as [label|e] eqn:Hlabel; [|done].
  destruct (index (image_filenames g) _) as [f|e] eqn:Hf; [|done].
  assert (Hfq := index_Ok_elem _ _ _ Hf).
  destruct (parse_filename f) as [[[serial itr] fname]|e] eqn:Hparse; [|done].
  destruct (append_log _ _ _) as [[[]|e] s1] eqn:Hlog; [|done].
  assert (Hinv1 : Inv g s1) by (by eapply append_log_Inv).
  assert (Hd1 : disk s1 =
            <[outfile g := File (log_content g s +:+ log_row now serial itr fname label)]>
              (disk s)).
  { rewrite append_log_eq in Hlog. unfold log_content.
    destruct (disk s !! outfile g) as [[c|]|]; simplify_eq; try done.
    destruct (Os.isdir _ _); by simplify_eq. }
  rewrite os_rename_eq.
  destruct (Os.rename _ _ _) as [d|e] eqn:Hren; [|done].
  destruct (queued_rename_file _ _ _ _ _ Hinv1 Hfq Hren) as [c Hc].
  rewrite (rename_file _ _ _ c Hc) in Hren by (symmetry; apply path_neq_2_1).
  destruct (Os.isdir _ _); [|done].
  assert (d = <[path g ++ [label; f] := File c]> (delete (path g ++ [f]) (disk s1))) as ->.
  { by destruct (disk s1 !! (path g ++ [label; f])) as [[c'|]|]; simplify_eq. }
  intros (Hd & Hu & _)%change_img_frame. simpl in Hd, Hu.
  exists label, f, serial, itr, fname, c.
  split; [done|]. split; [done|]. split; [done|]. split; [|split].
  - rewrite Hd1 in Hc.
    by rewrite lookup_insert_ne in Hc by (symmetry; by apply queued_not_log).
  - by rewrite Hd, Hd1.
  - done.
Qed.

(** Line-break-free names: the labels and the queued filenames. *)
Definition tidy_names (g : env) : Prop :=
  (forall label, label ∈ labels g -> no_linebreak label)
  /\ (forall f, f ∈ image_filenames g -> no_linebreak f).

(** With tidy names and a tidy clock reading the row of a label action
    is one line. *)
Lemma row_is_one_line (g : env) (btn_idx : nat) (i : Z) (now label f serial itr fname : string) :
  tidy_names g -> no_linebreak now ->
  index (labels g) (Z.of_nat btn_idx) = Ok label ->
  index (image_filenames g) i = Ok f ->
  parse_filename f = Ok (serial, itr, fname) ->
  exists row, log_row now serial itr fname label = row +:+ String LF ""
              /\ no_linebreak row.
Proof.
  intros [Hlabels Hfiles] Hnow Hlabel%index_Ok_elem Hf%index_Ok_elem Hparse.
  destruct (Hfiles f Hf) as [Hlf Hcr].
  destruct (parse_filename_contains LF _ _ _ _ Hparse Hlf) as (? & ? & ?).
  destruct (parse_filename_contains CR _ _ _ _ Hparse Hcr) as (? & ? & ?).
  apply log_row_no_linebreak; try done. by apply Hlabels.
Qed.

Lemma log_content_insert (g : env) (s : state) (d : filesystem) (text : string) :
  disk s !! outfile g = Some (File text) -> log_content g s = text.
Proof. unfold log_content. by intros ->. Qed.

(** The event loop over a list of events followed by another. *)
Lemma run_app (g : env) (evs1 evs2 : list event) (s : state) :
  run g (evs1 ++ evs2) s =
  let '(rs1, s1) := run g evs1 s in
  let '(rs2, s2) := run g evs2 s1 in
  (rs1 ++ rs2, s2).
Proof.
  revert s. induction evs1 as [|ev evs1 IH]; intros s; simpl.
  - by destruct (run g evs2 s).
  - destruct (quit s) eqn:Hq.
    + destruct evs2; simpl; [done|]. by rewrite Hq.
    + destruct (dispatch g ev s) as [r s1]. rewrite IH.
      destruct (run g evs1 s1) as [rs1 s2]. by destruct (run g evs2 s2).
Qed.

Lemma run_quit (g : env) (evs : list event) (s : state) :
  quit s = true -> run g evs s = ([], s).
Proof. intros Hq. destruct evs; simpl; [done|]. by rewrite Hq. Qed.

End LabelFacts.

(** ** Label, then undo *)

Section UndoTheorems.
Import PyStr Session.

(** The image under the cursor, if it is a regular file, is one the
    imaging library opens: it is, or can be put, on display. *)
Definition current_image_opens (g : env) (s : state) : Prop :=
  forall f c,
    index (image_filenames g) (img_idx s) = Ok f ->
    disk s !! (path g ++ [f]) = Some (File c) ->
    can_open g c = true.

(** The undo that follows a label action, in full. *)
Lemma undo_after_label (g : env) (s1 : state) (label f c old row : string) (i : Z) :
  Inv g s1 -> env_ok g ->
  index (image_filenames g) i = Ok f ->
  can_open g c = true ->
  clean_text old -> no_linebreak row ->
  img_idx s1 = i + 1 ->
  undo s1 = [path g ++ [label; f]; path g ++ [f]] ->
  disk s1 !! (path g ++ [label; f]) = Some (File c) ->
  disk s1 !! (path g ++ [f]) = None ->
  disk s1 !! outfile g = Some (File (old +:+ row +:+ String LF "")) ->
  undo_click g s1 =
  (Ok None,
   set_disk (<[outfile g := File old]>
               (<[path g ++ [f] := File c]> (delete (path g ++ [label; f]) (disk s1))))
     (set_img_idx i s1)).
Proof.
  intros Hinv Hok Hf Hopen Hold Hrow Hi Hu Hdst Hsrc Hlog.
  assert (Hfq := index_Ok_elem _ _ _ Hf). assert (Hlt := index_Ok_lt _ _ _ Hf).
  rewrite undo_click_eq, Hu.
  assert (Os.isfile (disk s1) (path g ++ [label; f]) = true) as ->
    by (apply isfile_true; eauto).
  rewrite os_rename_eq, (rename_file _ _ _ c Hdst) by apply path_neq_2_1.
  rewrite dirname_1, (inv_root _ _ Hinv), Hsrc.
  rewrite change_img_eq. simpl. rewrite Hi.
  replace (i + 1 - 1) with i by lia.
  rewrite decide_False by lia. rewrite Hf, lookup_insert_eq, Hopen. simpl.
  rewrite lookup_insert_ne by (by apply queued_not_log).
  rewrite lookup_delete_ne by apply moved_not_log.
  rewrite Hlog. unfold all_but_last. rewrite undo_last_row by done.
  done.
Qed.

(** C1, with what it rests on.  In a state of a session whose labels,
    queued filenames and clock reading have no line break, whose log text
    is clean and whose current image the imaging library opens: when a
    label action returns, the undo that follows returns too and puts
    (a) the moved file back at its path in the root directory, with its
    content, and out of the label directory, every other path but the log
    as before the label action, (b) the log text and its rows as before,
    (c) the cursor at its old value. *)
Theorem label_then_undo_restores
    (g : env) (btn_idx : nat) (now : string) (s s1 : state) (r : option dialog) :
  env_ok g -> Inv g s ->
  tidy_names g -> no_linebreak now ->
  clean_text (log_content g s) ->
  current_image_opens g s ->
  on_btn_click g btn_idx now s = (Ok r, s1) ->
  exists label f c s2,
    index (labels g) (Z.of_nat btn_idx) = Ok label
    /\ index (image_filenames g) (img_idx s) = Ok f
    /\ disk s !! (path g ++ [f]) = Some (File c)
    /\ disk s1 !! (path g ++ [f]) = None
    /\ disk s1 !! (path g ++ [label; f]) = Some (File c)
    /\ undo_click g s1 = (Ok None, s2)
    /\ disk s2 !! (path g ++ [f]) = Some (File c)
    /\ disk s2 !! (path g ++ [label; f]) = None
    /\ (forall p, p <> outfile g -> p <> path g ++ [label; f] ->
          disk s2 !! p = disk s !! p)
    /\ log_content g s2 = log_content g s
    /\ log_rows g s2 = log_rows g s
    /\ img_idx s2 = img_idx s.
Proof.
  intros Hok Hinv Htidy Hnow Hclean Hopens Hclick.
  destruct (on_btn_click_Ok _ _ _ _ _ _ Hok Hinv Hclick)
    as (label & f & serial & itr & fname & c & Hlabel & Hf & Hparse & Hc & Hd1 & Hu1).
  destruct (on_btn_click_cursor _ _ _ _ _ _ Hclick) as (_ & Hi1 & _ & _).
  assert (Hinv1 : Inv g s1) by (by eapply on_btn_click_Inv).
  destruct (row_is_one_line _ _ _ _ _ _ _ _ _ Htidy Hnow Hlabel Hf Hparse)
    as (row & Hrow & Hrowclean).
  assert (Hfq := index_Ok_elem _ _ _ Hf).
  assert (Hsrc1 : disk s1 !! (path g ++ [f]) = None).
  { rewrite Hd1, lookup_insert_ne by apply path_neq_2_1. apply lookup_delete_eq. }
  assert (Hdst1 : disk s1 !! (path g ++ [label; f]) = Some (File c)).
  { rewrite Hd1. apply lookup_insert_eq. }
  assert (Hlog1 : disk s1 !! outfile g
                  = Some (File (log_content g s +:+ row +:+ String LF ""))).
  { rewrite Hd1, lookup_insert_ne by apply moved_not_log.
    rewrite lookup_delete_ne by (by apply queued_not_log).
    by rewrite lookup_insert_eq, Hrow. }
  assert (Hundo := undo_after_label g s1 label f c _ row (img_idx s) Hinv1 Hok Hf
                     (Hopens f c Hf Hc) Hclean Hrowclean Hi1 Hu1 Hdst1 Hsrc1 Hlog1).
  eexists label, f, c, _.
  do 5 (split; [done|]). split; [exact Hundo|]. simpl.
  assert (Hlog2 : log_content g
            (set_disk (<[outfile g := File (log_content g s)]>
               (<[path g ++ [f] := File c]> (delete (path g ++ [label; f]) (disk s1))))
               (set_img_idx (img_idx s) s1)) = log_content g s).
  { unfold log_content at 1. simpl. by rewrite lookup_insert_eq. }
  split; [|split; [|split; [|split; [done|split; [|done]]]]].
  - rewrite lookup_insert_ne by (symmetry; by apply queued_not_log).
    apply lookup_insert_eq.
  - rewrite lookup_insert_ne by (symmetry; apply moved_not_log).
    rewrite lookup_insert_ne by (symmetry; apply path_neq_2_1).
    apply lookup_delete_eq.
  - intros p Hplog Hpdst. rewrite lookup_insert_ne by done.
    destruct (decide (p = path g ++ [f])) as [->|Hpsrc].
    + by rewrite lookup_insert_eq.
    + rewrite lookup_insert_ne, lookup_delete_ne by done.
      rewrite Hd1, lookup_insert_ne, lookup_delete_ne, lookup_insert_ne by done.
      done.
  - unfold log_rows. by rewrite Hlog2.
Qed.

End UndoTheorems.

(** ** Undo twice *)

Section SecondUndo.
Import PyStr Session.

Lemma undo_click_warns (g : env) (s : state) (label f : string) :
  undo s = [path g ++ [label; f]; path g ++ [f]] ->
  Os.isfile (disk s) (path g ++ [label; f]) = false ->
  undo_click g s = (Ok (Some (showwarning "Sorry, you can only undo once!")), s).
Proof. intros Hrec Hfile. by rewrite undo_click_eq, Hrec, Hfile. Qed.

(** After an undo that got as far as moving the file back, the file of
    the record is no longer in its label directory. *)
Lemma moved_back_gone (g : env) (s : state) (label f c : string) (d : filesystem) :
  d = <[path g ++ [f] := File c]> (delete (path g ++ [label; f]) (disk s)) ->
  Os.isfile d (path g ++ [label; f]) = false
  /\ forall text, Os.isfile (<[outfile g := File text]> d) (path g ++ [label; f]) = false.
Proof.
  intros ->. unfold Os.isfile. split; [|intros text].
  - rewrite lookup_insert_ne by (symmetry; apply path_neq_2_1).
    by rewrite lookup_delete_eq.
  - rewrite lookup_insert_ne by (symmetry; apply moved_not_log).
    rewrite lookup_insert_ne by (symmetry; apply path_neq_2_1).
    by rewrite lookup_delete_eq.
Qed.

(** C3.  In a state of a session, whatever a call of undo did, the call
    that follows it with no label action in between puts up a warning and
    changes nothing; so of two undos in a row at most the first moves a
    file.  An undo with an empty record warns "Nothing to undo." and
    changes nothing, and so does, with the other warning, an undo whose
    recorded file is no longer where the label action put it. *)
Theorem second_undo_only_warns (g : env) (s s1 : state) (r1 : result (option dialog)) :
  Inv g s -> undo_click g s = (r1, s1) ->
  (exists w, undo_click g s1 = (Ok (Some (showwarning w)), s1))
  /\ (undo s = [] ->
      r1 = Ok (Some (showwarning "Nothing to undo.")) /\ s1 = s)
  /\ (forall undo0 undo1, undo s = [undo0; undo1] -> Os.isfile (disk s) undo0 = false ->
      r1 = Ok (Some (showwarning "Sorry, you can only undo once!")) /\ s1 = s).
Proof.
  intros Hinv Hfirst. split; [|split].
  - rewrite undo_click_eq in Hfirst.
    destruct (inv_undo _ _ Hinv) as [Hnil|(label & f & Hrec & Hf & Hfree)].
    { rewrite Hnil in Hfirst. injection Hfirst as <- <-.
      rewrite undo_click_eq, Hnil. eauto. }
    rewrite Hrec in Hfirst.
    destruct (Os.isfile _ _) eqn:Hfile.
    2:{ injection Hfirst as <- <-.
        rewrite (undo_click_warns g s label f) by done. eauto. }
    specialize (Hfree eq_refl). apply isfile_true in Hfile as [c Hc].
    rewrite os_rename_eq, (rename_file _ _ _ c Hc) in Hfirst by apply path_neq_2_1.
    rewrite dirname_1, (inv_root _ _ Hinv), Hfree in Hfirst.
    destruct (change_img _ _ _) as [[shown|e] s2] eqn:Hchange;
      apply change_img_frame in Hchange as (Hd2 & Hu2 & _); simpl in Hd2, Hu2.
    + destruct (moved_back_gone g s label f c _ Hd2) as [Hgone Hgone'].
      destruct (disk s2 !! outfile g) as [[c'|]|]; injection Hfirst as <- <-.
      * rewrite (undo_click_warns g _ label f); [eauto|by simpl; rewrite Hu2|].
        simpl. apply Hgone'.
      * rewrite (undo_click_warns g _ label f); [eauto|by rewrite Hu2|done].
      * rewrite (undo_click_warns g _ label f); [eauto|by rewrite Hu2|done].
    + destruct (moved_back_gone g s label f c _ Hd2) as [Hgone _].
      injection Hfirst as <- <-.
      rewrite (undo_click_warns g _ label f); [eauto|by rewrite Hu2|done].
  - intros Hnil. rewrite undo_click_eq, Hnil in Hfirst. by injection Hfirst as <- <-.
  - intros undo0 undo1 Hrec Hfile. rewrite undo_click_eq, Hrec, Hfile in Hfirst.
    by injection Hfirst as <- <-.
Qed.

End SecondUndo.

(** ** A run of label actions *)

Section LabelRuns.
Import PyStr Session.

(** The button clicks of a list of (button, clock reading) pairs. *)
Definition clicks (acts : list (nat * string)) : list event :=
  map (fun a => Click a.1 a.2) acts.

(** The cursor along a run of label actions that all return: it advances
    by one per action and never passes the end of the queue; the last
    action reports completion exactly when the cursor is at the end, and
    then the quit flag is set. *)
Lemma labels_cursor (g : env) (acts : list (nat * string)) :
  forall s rs s',
    run g (clicks acts) s = (rs, s') -> Forall succeeded rs -> length rs = length acts ->
    img_idx s' = img_idx s + Z.of_nat (length acts)
    /\ (acts <> [] ->
        img_idx s' <= Z.of_nat (length (image_filenames g))
        /\ last rs = Some (Ok (if decide (img_idx s' >= Z.of_nat (length (image_filenames g)))
                               then Some (showinfo (img_idx s')) else None))
        /\ (img_idx s' >= Z.of_nat (length (image_filenames g)) -> quit s' = true)).
Proof.
  induction acts as [|a acts IH]; intros s rs s'; simpl.
  - intros [= <- <-] _ _. split; [lia|done].
  - destruct (quit s); [by intros [= <- <-]|].
    destruct (on_btn_click g a.1 a.2 s) as [r s1] eqn:Hclick.
    destruct (run g (clicks acts) s1) as [rs' s2] eqn:Hrun.
    intros [= <- <-] [Hr Hrs]%Forall_cons [= Hlen].
    destruct r as [dlg|e]; [|done].
    destruct (on_btn_click_cursor _ _ _ _ _ _ Hclick) as (Hlt & Hi1 & Hdlg & Hq).
    destruct (IH _ _ _ Hrun Hrs Hlen) as [Hi2 Hlast].
    split; [lia|]. intros _. destruct acts as [|a' acts].
    + destruct rs'; [|done]. simpl in Hrun. injection Hrun as <-.
      rewrite Hi1. repeat split; [lia|by rewrite Hdlg|].
      intros Hend. rewrite Hq. by rewrite decide_True.
    + destruct (Hlast ltac:(done)) as (Hle & Hl & Hquit).
      repeat split; [done| |done]. destruct rs'; [done|]. exact Hl.
Qed.

(** The log along a run of label actions that all return, when names and
    clock readings have no line break: it stays clean and grows by one
    line per action. *)
Lemma labels_log (g : env) (acts : list (nat * string)) :
  env_ok g -> tidy_names g -> Forall (fun a => no_linebreak a.2) acts ->
  forall s rs s',
    Inv g s -> clean_text (log_content g s) ->
    run g (clicks acts) s = (rs, s') -> Forall succeeded rs -> length rs = length acts ->
    clean_text (log_content g s')
    /\ length (log_rows g s') = (length (log_rows g s) + length acts)%nat.
Proof.
  intros Hok Htidy. induction acts as [|a acts IH]; intros Hnow s rs s' Hinv Hclean; simpl.
  - intros [= <- <-] _ _. split; [done|lia].
  - destruct (quit s); [by intros [= <- <-]|].
    destruct (on_btn_click g a.1 a.2 s) as [r s1] eqn:Hclick.
    destruct (run g (clicks acts) s1) as [rs' s2] eqn:Hrun.
    intros [= <- <-] [Hr Hrs]%Forall_cons [= Hlen].
    apply Forall_cons in Hnow as [Hnow1 Hnow].
    destruct r as [dlg|e]; [|done].
    destruct (on_btn_click_Ok _ _ _ _ _ _ Hok Hinv Hclick)
      as (label & f & serial & itr & fname & c & Hlabel & Hf & Hparse & Hc & Hd1 & Hu1).
    destruct (row_is_one_line _ _ _ _ _ _ _ _ _ Htidy Hnow1 Hlabel Hf Hparse)
      as (row & Hrow & Hrowclean).
    assert (Hfq := index_Ok_elem _ _ _ Hf).
    assert (Hlog1 : log_content g s1 = log_content g s +:+ row +:+ String LF "").
    { unfold log_content at 1. rewrite Hd1, lookup_insert_ne by apply moved_not_log.
      rewrite lookup_delete_ne by (by apply queued_not_log).
      by rewrite lookup_insert_eq, Hrow. }
    assert (Hinv1 : Inv g s1) by (by eapply on_btn_click_Inv).
    assert (Hclean1 : clean_text (log_content g s1)).
    { rewrite Hlog1. by apply clean_text_append. }
    destruct (IH Hnow _ _ _ Hinv1 Hclean1 Hrun Hrs Hlen) as [Hclean2 Hrows].
    split; [done|]. rewrite Hrows. unfold log_rows. rewrite Hlog1.
    rewrite readlines_append, length_app by done. simpl. lia.
Qed.

(** The cursor starts at -1 and the first [change_img()] puts it at 0. *)
Lemma first_change_img (g : env) (fs : filesystem) (s0 : state) r :
  change_img g false (initial fs) = (r, s0) ->
  img_idx s0 = 0 /\ disk s0 = fs /\ undo s0 = [].
Proof. intros (Hd & Hu & Hi)%change_img_frame. done. Qed.

(** C7, with what it rests on.  A fresh session starts with the cursor at
    -1 and the first [change_img()] puts it at 0.  After N label actions
    that all return, with no undo in between, the cursor is N; and when
    no label, no queued filename and no clock reading has a line break,
    the log, empty at the start, has exactly N rows. *)
Theorem rows_and_cursor_after_labels
    (g : env) (fs : filesystem) (d0 : option dialog) (s0 s : state)
    (acts : list (nat * string)) (rs : list (result (option dialog))) :
  env_ok g -> Inv g (initial fs) ->
  tidy_names g -> Forall (fun a => no_linebreak a.2) acts ->
  log_content g (initial fs) = "" ->
  change_img g false (initial fs) = (Ok d0, s0) ->
  run g (clicks acts) s0 = (rs, s) -> Forall succeeded rs -> length rs = length acts ->
  img_idx (initial fs) = -1
  /\ img_idx s0 = 0
  /\ img_idx s = Z.of_nat (length acts)
  /\ length (log_rows g s) = length acts.
Proof.
  intros Hok Hinv Htidy Hnow Hfresh Hfirst Hrun Hrs Hlen.
  destruct (first_change_img _ _ _ _ Hfirst) as (Hi0 & Hd0 & Hu0).
  destruct (labels_cursor _ _ _ _ _ Hrun Hrs Hlen) as [Hi _].
  assert (Hlog0 : log_content g s0 = "").
  { unfold log_content in *. by rewrite Hd0. }
  assert (Hinv0 : Inv g s0) by (by eapply change_img_Inv).
  assert (Hclean0 : clean_text (log_content g s0)) by (by rewrite Hlog0).
  destruct (labels_log _ _ Hok Htidy Hnow _ _ _ Hinv0 Hclean0 Hrun Hrs Hlen) as [_ Hrows].
  repeat split; [done|lia|].
  rewrite Hrows. unfold log_rows. by rewrite Hlog0.
Qed.

(** The cursor part of C7 needs no assumption on the names. *)
Lemma cursor_after_labels
    (g : env) (fs : filesystem) (d0 : option dialog) (s0 s : state)
    (acts : list (nat * string)) (rs : list (result (option dialog))) :
  change_img g false (initial fs) = (Ok d0, s0) ->
  run g (clicks acts) s0 = (rs, s) -> Forall succeeded rs -> length rs = length acts ->
  img_idx s = Z.of_nat (length acts).
Proof.
  intros Hfirst Hrun Hrs Hlen.
  destruct (first_change_img _ _ _ _ Hfirst) as (Hi0 & _).
  destruct (labels_cursor _ _ _ _ _ Hrun Hrs Hlen) as [Hi _]. lia.
Qed.

(** C8.  In a session started afresh, when the K-th of K label actions
    that all return brings the cursor to the end of the queue, that
    action puts up the completion dialog with count K, K is the length
    of the queue, [window.quit()] has been called, and the event loop
    runs no further callback: whatever events follow, no dialog appears
    and the state stays as it is. *)
Theorem completion_after_last_label
    (g : env) (fs : filesystem) (d0 : option dialog) (s0 s : state)
    (acts : list (nat * string)) (rs : list (result (option dialog))) :
  change_img g false (initial fs) = (Ok d0, s0) ->
  run g (clicks acts) s0 = (rs, s) -> Forall succeeded rs -> length rs = length acts ->
  acts <> [] ->
  img_idx s >= Z.of_nat (length (image_filenames g)) ->
  last rs = Some (Ok (Some (showinfo (Z.of_nat (length acts)))))
  /\ length acts = length (image_filenames g)
  /\ quit s = true
  /\ (forall evs, run g evs s = ([], s))
  /\ (forall evs, run g (clicks acts ++ evs) s0 = (rs, s)).
Proof.
  intros Hfirst Hrun Hrs Hlen Hne Hend.
  destruct (first_change_img _ _ _ _ Hfirst) as (Hi0 & _).
  destruct (labels_cursor _ _ _ _ _ Hrun Hrs Hlen) as [Hi Hlast].
  destruct (Hlast Hne) as (Hle & Hl & Hquit). specialize (Hquit Hend).
  rewrite decide_True in Hl by done.
  assert (Hk : img_idx s = Z.of_nat (length acts)) by lia.
  rewrite Hk in Hl. repeat split; [done|lia|done|by intros; apply run_quit|].
  intros evs. rewrite run_app, Hrun, run_quit by done. by rewrite app_nil_r.
Qed.

End LabelRuns.

(** ** The callbacks on concrete directories *)

Section Concrete.
Import PyStr Session.

Lemma env_ok_Forall (g : env) :
  Forall (fun f => Startup.is_image_name f = true) (image_filenames g) -> env_ok g.
Proof. intros H f Hf. by eapply Forall_forall in H. Qed.

Lemma tidy_names_Forall (g : env) :
  Forall no_linebreak (labels g) -> Forall no_linebreak (image_filenames g) ->
  tidy_names g.
Proof. intros H1 H2. split; intros x Hx; by eapply Forall_forall in Hx. Qed.

Lemma Inv_fresh (g : env) (fs : filesystem) (i : Z) (q : bool) :
  Os.isdir fs (path g) = true ->
  Forall (fun f => fs !! (path g ++ [f]) <> Some Dir) (image_filenames g) ->
  Inv g {| img_idx := i; undo := []; disk := fs; quit := q |}.
Proof.
  intros Hroot Hqueue. split; simpl; [done| |by left].
  intros f Hf. by eapply Forall_forall in Hqueue.
Qed.

End Concrete.

(** The session of [demo_disk] with its two well-named images. *)
Definition demo_pair_env : env :=
  {| path := ["imgs"];
     labels := ["cat"; "dog"];
     image_filenames := ["7_1.png"; "8_2.jpg"];
     keys := (Startup.load_labels_from ["cat"; "dog"]).2;
     can_open := fun _ => true |}.

Definition demo_acts : list (nat * string) :=
  [(0%nat, "2024-05-01 10:00:00"); (1%nat, "2024-05-01 10:00:07")].

(** Its state once the first image is on display. *)
Definition demo_shown : state :=
  (Session.change_img demo_pair_env false (Session.initial demo_disk)).2.

Lemma demo_pair_env_ok : env_ok demo_pair_env.
Proof. apply env_ok_Forall. repeat constructor. Qed.

Lemma demo_pair_tidy : tidy_names demo_pair_env.
Proof. apply tidy_names_Forall; repeat constructor. Qed.

Lemma demo_pair_Inv (i : Z) : Inv demo_pair_env (demo_state i).
Proof. apply Inv_fresh; [done|]. repeat constructor; by vm_compute. Qed.

Lemma demo_acts_tidy : Forall (fun a => no_linebreak a.2) demo_acts.
Proof. repeat constructor. Qed.

(** The state after the first image has been labelled "cat". *)
Definition demo_labelled : state :=
  (Session.on_btn_click demo_pair_env 0 "2024-05-01 10:00:00" (demo_state 0)).2.

Lemma demo_labelled_Inv : Inv demo_pair_env demo_labelled.
Proof.
  eapply (on_btn_click_Inv demo_pair_env 0 "2024-05-01 10:00:00" (demo_state 0));
    [apply demo_pair_env_ok|apply demo_pair_Inv|].
  apply surjective_pairing.
Qed.

Lemma label_then_undo_restores_witness :
  exists label f c s2,
    PyStr.index (labels demo_pair_env) (Z.of_nat 0) = Ok label
    /\ PyStr.index (image_filenames demo_pair_env) (img_idx (demo_state 0)) = Ok f
    /\ disk (demo_state 0) !! (path demo_pair_env ++ [f]) = Some (File c)
    /\ disk demo_labelled !! (path demo_pair_env ++ [f]) = None
    /\ disk demo_labelled !! (path demo_pair_env ++ [label; f]) = Some (File c)
    /\ Session.undo_click demo_pair_env demo_labelled = (Ok None, s2)
    /\ disk s2 !! (path demo_pair_env ++ [f]) = Some (File c)
    /\ disk s2 !! (path demo_pair_env ++ [label; f]) = None
    /\ (forall p, p <> outfile demo_pair_env -> p <> path demo_pair_env ++ [label; f] ->
          disk s2 !! p = disk (demo_state 0) !! p)
    /\ Session.log_content demo_pair_env s2 = Session.log_content demo_pair_env (demo_state 0)
    /\ Session.log_rows demo_pair_env s2 = Session.log_rows demo_pair_env (demo_state 0)
    /\ img_idx s2 = img_idx (demo_state 0).
Proof.
  apply (label_then_undo_restores demo_pair_env 0 "2024-05-01 10:00:00"
           (demo_state 0) demo_labelled None).
  - apply demo_pair_env_ok.
  - apply demo_pair_Inv.
  - apply demo_pair_tidy.
  - split; reflexivity.
  - split; reflexivity.
  - intros f c _ _. reflexivity.
  - reflexivity.
Defined.

Lemma second_undo_only_warns_witness :
  (exists w, Session.undo_click demo_pair_env (Session.undo_click demo_pair_env demo_labelled).2
             = (Ok (Some (showwarning w)), (Session.undo_click demo_pair_env demo_labelled).2))
  /\ (undo demo_labelled = [] ->
      Ok None = Ok (Some (showwarning "Nothing to undo."))
      /\ (Session.undo_click demo_pair_env demo_labelled).2 = demo_labelled)
  /\ (forall undo0 undo1, undo demo_labelled = [undo0; undo1] ->
      Os.isfile (disk demo_labelled) undo0 = false ->
      Ok None = Ok (Some (showwarning "Sorry, you can only undo once!"))
      /\ (Session.undo_click demo_pair_env demo_labelled).2 = demo_labelled).
Proof.
  apply (second_undo_only_warns demo_pair_env demo_labelled).
  - apply demo_labelled_Inv.
  - reflexivity.
Defined.

Lemma rows_and_cursor_after_labels_witness :
  img_idx (Session.initial demo_disk) = -1
  /\ img_idx demo_shown = 0
  /\ img_idx (Session.run demo_pair_env (clicks demo_acts) demo_shown).2
     = Z.of_nat (length demo_acts)
  /\ length (Session.log_rows demo_pair_env
               (Session.run demo_pair_env (clicks demo_acts) demo_shown).2)
     = length demo_acts.
Proof.
  apply (rows_and_cursor_after_labels demo_pair_env demo_disk None demo_shown _
           demo_acts (Session.run demo_pair_env (clicks demo_acts) demo_shown).1).
  - apply demo_pair_env_ok.
  - apply (demo_pair_Inv (-1)).
  - apply demo_pair_tidy.
  - apply demo_acts_tidy.
  - reflexivity.
  - reflexivity.
  - reflexivity.
  - vm_compute. repeat constructor.
  - reflexivity.
Defined.

Lemma completion_after_last_label_witness :
  last (Session.run demo_pair_env (clicks demo_acts) demo_shown).1
  = Some (Ok (Some (showinfo (Z.of_nat (length demo_acts)))))
  /\ length demo_acts = length (image_filenames demo_pair_env)
  /\ quit (Session.run demo_pair_env (clicks demo_acts) demo_shown).2 = true
  /\ (forall evs,
        Session.run demo_pair_env evs
          (Session.run demo_pair_env (clicks demo_acts) demo_shown).2
        = ([], (Session.run demo_pair_env (clicks demo_acts) demo_shown).2))
  /\ (forall evs,
        Session.run demo_pair_env (clicks demo_acts ++ evs) demo_shown
        = Session.run demo_pair_env (clicks demo_acts) demo_shown).
Proof.
  apply (completion_after_last_label demo_pair_env demo_disk None demo_shown _
           demo_acts (Session.run demo_pair_env (clicks demo_acts) demo_shown).1).
  - reflexivity.
  - reflexivity.
  - vm_compute. repeat constructor.
  - reflexivity.
  - discriminate.
  - vm_compute. discriminate.
Defined.

(** ** Names with a line break, images that do not open *)

(** A filename that follows the naming scheme and has a line feed in its
    serial: "7", line feed, "_1.png". *)
Definition linebreak_name : string := String "7" (String LF "_1.png").

Definition linebreak_disk : filesystem :=
  list_to_map
    [ (["imgs"], Dir);
      (["imgs"; "cat"], Dir);
      (["imgs"; linebreak_name], File "first");
      (["imgs"; "8_2.jpg"], File "second") ].

Definition linebreak_env : env :=
  {| path := ["imgs"];
     labels := ["cat"];
     image_filenames := [linebreak_name; "8_2.jpg"];
     keys := (Startup.load_labels_from ["cat"]).2;
     can_open := fun _ => true |}.

(** The fresh session on it, the first image on display. *)
Definition linebreak_shown : state :=
  (Session.change_img linebreak_env false (Session.initial linebreak_disk)).2.

Definition linebreak_labelled : state :=
  (Session.on_btn_click linebreak_env 0 "2024-05-01 10:00:00" linebreak_shown).2.

Definition linebreak_undone : state :=
  (Session.undo_click linebreak_env linebreak_labelled).2.

(** C1 as the specification words it fails on such a name: the label
    action and the undo both return, the file and the cursor are back,
    but the log, empty before, keeps the first half of the row. *)
Lemma linebreak_name_undo_keeps_text :
  Session.change_img linebreak_env false (Session.initial linebreak_disk)
  = (Ok None, linebreak_shown)
  /\ Session.on_btn_click linebreak_env 0 "2024-05-01 10:00:00" linebreak_shown
     = (Ok None, linebreak_labelled)
  /\ Session.undo_click linebreak_env linebreak_labelled = (Ok None, linebreak_undone)
  /\ disk linebreak_undone !! ["imgs"; linebreak_name] = Some (File "first")
  /\ img_idx linebreak_undone = img_idx linebreak_shown
  /\ Session.log_content linebreak_env linebreak_shown = ""
  /\ Session.log_content linebreak_env linebreak_undone
     = "2024-05-01 10:00:00,7" +:+ String LF ""
  /\ Session.log_content linebreak_env linebreak_undone
     <> Session.log_content linebreak_env linebreak_shown
  /\ Session.log_rows linebreak_env linebreak_shown = []
  /\ length (Session.log_rows linebreak_env linebreak_undone) = 1%nat.
Proof. vm_compute. repeat split. discriminate. Qed.

(** C7 as the specification words it fails on such a name: one label
    action in a fresh session, and the log has two rows. *)
Lemma linebreak_name_one_label_two_rows :
  Session.log_content linebreak_env (Session.initial linebreak_disk) = ""
  /\ Session.change_img linebreak_env false (Session.initial linebreak_disk)
     = (Ok None, linebreak_shown)
  /\ Session.run linebreak_env (clicks [(0%nat, "2024-05-01 10:00:00")]) linebreak_shown
     = ([Ok None], linebreak_labelled)
  /\ img_idx linebreak_labelled = 1
  /\ Session.log_rows linebreak_env linebreak_labelled
     = [ "2024-05-01 10:00:00,7" +:+ String LF "";
         ",1,.png,cat" +:+ String LF "" ]
  /\ length (Session.log_rows linebreak_env linebreak_labelled) <> 1%nat.
Proof. vm_compute. repeat split. discriminate. Qed.

(** A directory whose second image the imaging library does not open. *)
Definition broken_disk : filesystem :=
  list_to_map
    [ (["imgs"], Dir);
      (["imgs"; "cat"], Dir);
      (["imgs"; "5_1.png"], File "first");
      (["imgs"; "6_2.png"], File "broken");
      (["imgs"; "7_3.png"], File "third") ].

Definition broken_env : env :=
  {| path := ["imgs"];
     labels := ["cat"];
     image_filenames := ["5_1.png"; "6_2.png"; "7_3.png"];
     keys := (Startup.load_labels_from ["cat"]).2;
     can_open := fun c => negb (String.eqb c "broken") |}.

Definition broken_shown : state :=
  (Session.change_img broken_env false (Session.initial broken_disk)).2.

Definition broken_events : list Session.event :=
  [ Session.Click 0 "2024-05-01 10:00:00";
    Session.Click 0 "2024-05-01 10:00:05";
    Session.UndoClick ].

(** Why C1 asks that the current image opens.  The first label action
    raises when it shows the broken second image, the cursor already on
    it; the second label action moves the broken image and returns; the
    undo moves it back and raises in [change_img(True)], before the log
    is cut: the file and the cursor are back, the row stays. *)
Example unopened_image_undo_keeps_row :
  (Session.run broken_env broken_events broken_shown).1
  = [Raise UnidentifiedImageError; Ok None; Raise UnidentifiedImageError]
  /\ img_idx (Session.run broken_env broken_events broken_shown).2 = 1
  /\ disk (Session.run broken_env broken_events broken_shown).2 !! ["imgs"; "6_2.png"]
     = Some (File "broken")
  /\ length (Session.log_rows broken_env
               (Session.run broken_env broken_events broken_shown).2) = 2%nat
  /\ length (Session.log_rows broken_env
               (Session.run broken_env (take 1 broken_events) broken_shown).2) = 1%nat.
Proof. vm_compute. repeat split. Qed.

(** A key that is a shortcut acts as the click on its button; any other
    key does nothing. *)
Lemma handle_keypress_shortcut (g : env) (c : ascii) (now : string) (s : state) :
  Session.handle_keypress g (String c "") now s =
  match keyboard_shortcuts_indexed_by_letter (keys g) !! c with
  | Some btn_idx => Session.on_btn_click g btn_idx now s
  | None => (Ok None, s)
  end.
Proof.
  unfold Session.handle_keypress.
  by destruct (keyboard_shortcuts_indexed_by_letter (keys g) !! c).
Qed.

(** The whole script on the running example: start-up yields an
    environment and a first state that satisfy what the theorems above
    assume. *)
Lemma script_state_Inv (p : path_t) (rnd : nat -> nat) (opens : string -> bool)
    (evs : list Session.event) (fs : filesystem)
    (g : env) first rs (s : state) :
  Session.script p rnd opens evs fs = Ok (g, first, rs, s) ->
  env_ok g /\ Inv g s.
Proof.
  unfold Session.script.
  destruct (Startup.load_labels fs p) as [[ls d]|e] eqn:Hload; [|done].
  destruct (startup_Inv rnd opens fs p ls d Hload) as [Hok Hinv].
  destruct (Session.change_img _ _ _) as [first' s1] eqn:Hfirst.
  destruct first' as [d0|e]; [|done].
  destruct (Session.mainloop _ _ _) as [rs' s2] eqn:Hloop.
  intros [= <- <- <- <-]. split; [done|].
  unfold Session.mainloop in Hloop. eapply run_Inv; [done| |exact Hloop].
  eapply Inv_frame; [| |eapply change_img_Inv; [exact Hinv|exact Hfirst]]; done.
Qed.

(** * Part III: the rest of the script *)

(** ** The button column *)

(** What a button does when pressed: the [command] it was built with. *)
Inductive command :=
| UndoCommand
| LabelCommand (btn_idx : nat).

(** A button as [add_buttons] builds and places it. *)
Record button := {
  text : string;
  on_press : command;
  grid_row : nat;
  grid_column : nat
}.

Module Buttons.

(** The inner loop of [add_buttons]: the label with the letter at
    position [shortcut] put in brackets. *)
Fixpoint bracket_letters (letter_idx shortcut : nat) (label : string) : string :=
  match label with
  | "" => ""
  | String letter rest =>
      (if decide (letter_idx = shortcut)
       then String "[" (String letter "]")
       else String letter "")
      +:+ bracket_letters (S letter_idx) shortcut rest
  end.

(** The text of button [i]. *)
Definition modified_label (d : shortcuts) (i : nat) (label : string) : string :=
  match keyboard_shortcuts_indexed_by_idx d !! i with
  | Some shortcut => bracket_letters 0 shortcut label
  | None => label
  end.

(** The loop over [enumerate(labels)], from label [i] at cell
    ([row], [col]). *)
Fixpoint label_buttons (d : shortcuts) (i row col : nat) (labels : list string)
  : list button :=
  match labels with
  | [] => []
  | label :: rest =>
      {| text := modified_label d i label; on_press := LabelCommand i;
         grid_row := row; grid_column := col |}
      :: (if decide (10 <= row + 1)%nat
          then label_buttons d (S i) 0 (col + 1) rest
          else label_buttons d (S i) (row + 1) col rest)
  end.

(** [add_buttons()]: the undo button at the top, then one button per
    label. *)
Definition add_buttons (labels : list string) (d : shortcuts) : list button :=
  {| text := "undo"; on_press := UndoCommand; grid_row := 0; grid_column := 0 |}
  :: label_buttons d 0 1 0 labels.

(** The event a press of the button is. *)
Definition press (b : button) (now : string) : Session.event :=
  match on_press b with
  | UndoCommand => Session.UndoClick
  | LabelCommand btn_idx => Session.Click btn_idx now
  end.

End Buttons.

Example add_buttons_cat_car_dog :
  Buttons.add_buttons cat_car_dog.1 cat_car_dog.2
  = [ {| text := "undo"; on_press := UndoCommand; grid_row := 0; grid_column := 0 |};
      {| text := "[c]ar"; on_press := LabelCommand 0; grid_row := 1; grid_column := 0 |};
      {| text := "c[a]t"; on_press := LabelCommand 1; grid_row := 2; grid_column := 0 |};
      {| text := "[d]og"; on_press := LabelCommand 2; grid_row := 3; grid_column := 0 |} ].
Proof. reflexivity. Qed.

(** ** Labels and buttons *)

Section ButtonFacts.
Import PyStr Startup Buttons.
Local Open Scope nat_scope.

Local Abbreviation by_letter' := keyboard_shortcuts_indexed_by_letter.
Local Abbreviation by_idx' := keyboard_shortcuts_indexed_by_idx.

Lemma NoDup_walk_dirs (fs : filesystem) (p : path_t) :
  NoDup (omap (Os.subdir_name p) (map_to_list fs)).
Proof.
  apply NoDup_omap_fst; [|apply NoDup_fst_map_to_list].
  intros [k1 n1] [k2 n2] b; unfold Os.subdir_name; simpl.
  destruct n1, n2; try done.
  intros H1%child_name_Some H2%child_name_Some. congruence.
Qed.

(** X1.  [load_labels] raises [StopIteration] exactly when the path is no
    directory; otherwise its labels are exactly the names of the
    sub-directories directly in it, each once, in ascending order, and
    none of them is in the image queue. *)
Theorem load_labels_lists_subdirectories
    (rnd : nat -> nat) (fs : filesystem) (p : path_t) :
  match load_labels fs p with
  | Raise e => e = StopIteration /\ Os.isdir fs p = false
  | Ok (labels, d) =>
      Os.isdir fs p = true
      /\ (forall n, n ∈ labels <-> fs !! (p ++ [n]) = Some Dir)
      /\ NoDup labels
      /\ StronglySorted String.le labels
      /\ (forall n, n ∈ labels -> n ∉ load_image_filenames rnd fs p)
  end.
Proof.
  unfold load_labels, Os.walk. destruct (Os.isdir fs p) eqn:Hdir; [|done].
  unfold load_labels_from, sort.
  assert (Hmem : forall n, n ∈ merge_sort String.le (omap (Os.subdir_name p) (map_to_list fs))
                           <-> fs !! (p ++ [n]) = Some Dir).
  { intros n. by rewrite merge_sort_Permutation, elem_of_walk_dirs. }
  split; [done|]. split; [done|]. split; [|split].
  - rewrite merge_sort_Permutation. apply NoDup_walk_dirs.
  - apply StronglySorted_merge_sort; apply _.
  - intros n Hn%Hmem (_ & [c Hc] & _)%elem_of_load_image_filenames. congruence.
Qed.

Lemma index_nat {A : Type} (l : list A) (i : nat) (x : A) :
  l !! i = Some x -> index l (Z.of_nat i) = Ok x.
Proof.
  intros Hl. assert (Hlt := lookup_lt_Some _ _ _ Hl). unfold index. cbv zeta.
  rewrite (decide_False (P := (Z.of_nat i < 0)%Z)) by lia.
  rewrite decide_True by lia.
  by rewrite Nat2Z.id, Hl.
Qed.

(** The cells of the label buttons follow each other down the columns. *)
Lemma label_buttons_cells (d : shortcuts) (labels : list string) :
  forall i row col, row < 10 -> col * 10 + row = i + 1 ->
  forall k b, label_buttons d i row col labels !! k = Some b ->
    grid_column b * 10 + grid_row b = i + 1 + k
    /\ grid_row b < 10
    /\ on_press b = LabelCommand (i + k)
    /\ exists label, labels !! k = Some label /\ text b = modified_label d (i + k) label.
Proof.
  induction labels as [|label rest IH]; intros i row col Hrow Hcell k b; simpl; [done|].
  destruct k as [|k]; simpl.
  - intros [= <-]. simpl. rewrite !Nat.add_0_r. repeat split; [lia|done|eauto].
  - replace (i + S k) with (S i + k) by lia. replace (i + 1 + S k) with (S i + 1 + k) by lia.
    case_decide; intros Hb; eapply IH in Hb; (done || lia).
Qed.

Lemma length_label_buttons (d : shortcuts) (labels : list string) :
  forall i row col, length (label_buttons d i row col labels) = length labels.
Proof.
  induction labels as [|label rest IH]; intros i row col; simpl; [done|].
  case_decide; by rewrite IH.
Qed.

(** X2.  [add_buttons] builds the undo button and one button per label;
    the button number k (the undo button is number 0, the button of
    label i number i + 1) sits in row k mod 10 of column k / 10, and a
    press of it runs undo or the label action of its own label.  So
    every row is below 10 and no two buttons share a cell. *)
Theorem add_buttons_grid (labels : list string) (d : shortcuts) :
  length (add_buttons labels d) = S (length labels)
  /\ (forall k b, add_buttons labels d !! k = Some b ->
        grid_row b = k mod 10 /\ grid_column b = k / 10
        /\ on_press b = match k with O => UndoCommand | S i => LabelCommand i end)
  /\ NoDup ((fun b => (grid_row b, grid_column b)) <$> add_buttons labels d).
Proof.
  assert (Hcell : forall k b, add_buttons labels d !! k = Some b ->
            grid_row b = k mod 10 /\ grid_column b = k / 10
            /\ on_press b = match k with O => UndoCommand | S i => LabelCommand i end).
  { intros [|k] b Hb; unfold add_buttons in Hb; simpl in Hb.
    - by injection Hb as <-.
    - eapply (label_buttons_cells d labels 0 1 0) in Hb as (Hlin & Hrow & Hcmd & _);
        [|lia..].
      simpl in Hcmd. split; [|split; [|done]].
      + apply (Nat.mod_unique _ _ (grid_column b)); lia.
      + apply (Nat.div_unique _ _ _ (grid_row b)); lia. }
  split; [|split; [done|]].
  - unfold add_buttons. simpl. by rewrite length_label_buttons.
  - apply NoDup_alt. intros k1 k2 cell.
    rewrite !list_lookup_fmap.
    destruct (add_buttons labels d !! k1) as [b1|] eqn:H1; [|done].
    destruct (add_buttons labels d !! k2) as [b2|] eqn:H2; [|done].
    simpl. intros [= <-] [= Hr Hc].
    destruct (Hcell _ _ H1) as (Hr1 & Hc1 & _). destruct (Hcell _ _ H2) as (Hr2 & Hc2 & _).
    rewrite (Nat.div_mod_eq k1 10), (Nat.div_mod_eq k2 10). congruence.
Qed.

Lemma take_drop_get (k : nat) (label : string) (c : ascii) :
  String.get k label = Some c ->
  label = take k label +:+ String c (drop (S k) label).
Proof.
  revert k. induction label as [|a rest IH]; intros [|k]; simpl; try done.
  - by intros [= ->].
  - intros Hget. rewrite append_cons. f_equal. by apply IH.
Qed.

Lemma bracket_letters_none (k0 k : nat) (label : string) :
  String.length label + k0 <= k -> bracket_letters k0 k label = label.
Proof.
  revert k0. induction label as [|a rest IH]; intros k0 Hlen; simpl in *; [done|].
  rewrite decide_False by lia. rewrite IH by lia. done.
Qed.

Lemma bracket_letters_past (k0 k : nat) (label : string) :
  k < k0 -> bracket_letters k0 k label = label.
Proof.
  revert k0. induction label as [|a rest IH]; intros k0 Hlt; simpl; [done|].
  rewrite decide_False by lia. by rewrite IH by lia.
Qed.

(** The inner loop brackets the letter at the shortcut position and
    copies the others. *)
Lemma bracket_letters_get (k0 k : nat) (label : string) (c : ascii) :
  String.get k label = Some c ->
  bracket_letters k0 (k0 + k) label =
  take k label +:+ String "[" (String c (String "]" (drop (S k) label))).
Proof.
  revert k0 k. induction label as [|a rest IH]; intros k0 [|k]; simpl; try done.
  - intros [= ->]. rewrite decide_True by lia.
    by rewrite bracket_letters_past by lia.
  - intros Hget. rewrite decide_False by lia.
    replace (k0 + S k) with (S k0 + k) by lia. by rewrite (IH _ _ Hget).
Qed.

(** X3.  On its button a label shows its shortcut letter in brackets, at
    the place of the first occurrence the loader chose, the rest of the
    label unchanged; that letter is the key that selects the label.  A
    label without shortcut is shown as it is, and no key selects it. *)
Theorem button_text_brackets_the_key
    (dirnames labels : list string) (d : shortcuts) :
  load_labels_from dirnames = (labels, d) ->
  forall i label, labels !! i = Some label ->
    match shortcut_of labels d i with
    | Some c =>
        exists before after,
          label = before +:+ String c after
          /\ modified_label d i label
             = before +:+ String "[" (String c (String "]" after))
          /\ by_letter' d !! c = Some i
          /\ (forall c', contains c' before = true -> claimed_before d i c')
    | None =>
        modified_label d i label = label
        /\ forall c, by_letter' d !! c <> Some i
    end.
Proof.
  intros Hload i label Hlab.
  assert (Hinv := load_labels_from_inv _ _ _ Hload).
  assert (Hagree := by_letter_shortcut_of _ _ _ Hinv).
  unfold shortcut_of, modified_label. rewrite Hlab.
  destruct (by_idx' d !! i) as [k|] eqn:Hk.
  - destruct (inv_idx _ _ _ Hinv _ _ Hk) as (_ & label' & c & ? & Hget & Hown & Hbefore).
    simplify_eq. rewrite Hget.
    exists (take k label), (drop (S k) label).
    split; [by apply take_drop_get|]. split; [apply (bracket_letters_get 0 k _ _ Hget)|].
    split; [done|]. intros c' Hc'.
    assert (exists k', k' < k /\ String.get k' label = Some c') as (k' & Hlt & Hget').
    { clear -Hc' Hget. revert k Hget Hc'.
      induction label as [|a rest IH]; intros [|k]; simpl; try done.
      intros Hget. case_decide as Ha.
      - subst. intros _. exists 0. split; [lia|done].
      - intros (k' & ? & ?)%(IH k Hget). exists (S k'). split; [lia|done]. }
    by eapply Hbefore.
  - split; [done|]. intros c Hc%Hagree. unfold shortcut_of in Hc.
    by rewrite Hlab, Hk in Hc.
Qed.

End ButtonFacts.

(** ** Key presses *)

Section KeyFacts.
Import PyStr Startup Session.

(** X4.  With the dictionaries [load_labels] built, pressing the letter a
    button shows in brackets is the click on that button; every key of
    the dictionary selects an existing label that contains the letter,
    so the label lookup of a key press cannot fail; and a key that is no
    shortcut (or an event without a single character) is ignored: no
    dialog, no change of state. *)
Theorem key_press_is_button_click
    (g : env) (dirnames : list string) (now : string) (s : state) :
  load_labels_from dirnames = (labels g, keys g) ->
  (forall i c, shortcut_of (labels g) (keys g) i = Some c ->
     handle_keypress g (String c "") now s = on_btn_click g i now s)
  /\ (forall c i, keyboard_shortcuts_indexed_by_letter (keys g) !! c = Some i ->
        exists label, index (labels g) (Z.of_nat i) = Ok label
                      /\ contains c label = true)
  /\ (forall char,
        (forall c, char = String c "" ->
           keyboard_shortcuts_indexed_by_letter (keys g) !! c = None) ->
        handle_keypress g char now s = (Ok None, s)).
Proof.
  intros Hload. assert (Hinv := load_labels_from_inv _ _ _ Hload).
  assert (Hagree := by_letter_shortcut_of _ _ _ Hinv).
  split; [|split].
  - intros i c Hc%Hagree. by rewrite handle_keypress_shortcut, Hc.
  - intros c i Hc. destruct (inv_letter _ _ _ Hinv _ _ Hc) as [_ Hs].
    unfold shortcut_of in Hs.
    destruct (labels g !! i) as [label|] eqn:Hlab; [|done].
    destruct (keyboard_shortcuts_indexed_by_idx (keys g) !! i) as [k|]; [|done].
    exists label. split; [by apply index_nat|by eapply get_contains].
  - intros char Hnone. unfold handle_keypress.
    destruct char as [|c [|??]]; try done. by rewrite (Hnone c eq_refl).
Qed.

End KeyFacts.

Definition cat_car_dog_env : env :=
  {| path := ["imgs"];
     labels := cat_car_dog.1;
     image_filenames := ["7_1.png"; "8_2.jpg"];
     keys := cat_car_dog.2;
     can_open := fun _ => true |}.

Lemma key_press_is_button_click_witness :
  (forall i c, Startup.shortcut_of (labels cat_car_dog_env) (keys cat_car_dog_env) i = Some c ->
     Session.handle_keypress cat_car_dog_env (String c "") "2024-05-01 10:00:00" (demo_state 0)
     = Session.on_btn_click cat_car_dog_env i "2024-05-01 10:00:00" (demo_state 0))
  /\ (forall c i,
        keyboard_shortcuts_indexed_by_letter (keys cat_car_dog_env) !! c = Some i ->
        exists label, PyStr.index (labels cat_car_dog_env) (Z.of_nat i) = Ok label
                      /\ PyStr.contains c label = true)
  /\ (forall char,
        (forall c, char = String c "" ->
           keyboard_shortcuts_indexed_by_letter (keys cat_car_dog_env) !! c = None) ->
        Session.handle_keypress cat_car_dog_env char "2024-05-01 10:00:00" (demo_state 0)
        = (Ok None, demo_state 0)).
Proof.
  apply (key_press_is_button_click cat_car_dog_env ["cat"; "car"; "dog"]). reflexivity.
Defined.

Lemma button_text_brackets_the_key_witness :
  match Startup.shortcut_of cat_car_dog.1 cat_car_dog.2 1 with
  | Some c =>
      exists before after,
        "cat" = before +:+ String c after
        /\ Buttons.modified_label cat_car_dog.2 1 "cat"
           = before +:+ String "[" (String c (String "]" after))
        /\ keyboard_shortcuts_indexed_by_letter cat_car_dog.2 !! c = Some 1%nat
        /\ (forall c', PyStr.contains c' before = true -> claimed_before cat_car_dog.2 1 c')
  | None =>
      Buttons.modified_label cat_car_dog.2 1 "cat" = "cat"
      /\ forall c, keyboard_shortcuts_indexed_by_letter cat_car_dog.2 !! c <> Some 1%nat
  end.
Proof.
  apply (button_text_brackets_the_key ["cat"; "car"; "dog"] cat_car_dog.1 cat_car_dog.2);
    reflexivity.
Defined.

(** ** The cursor stays inside the queue *)

Section CursorBounds.
Import PyStr Session.

(** The cursor is between 0 and the length of the queue, and while the
    file of the undo record is in its label directory the cursor is past
    the first image. *)
Record Bounded (g : env) (s : state) : Prop := {
  bounded_idx : 0 <= img_idx s <= Z.of_nat (length (image_filenames g));
  bounded_undo : forall undo0 undo1,
    undo s = [undo0; undo1] -> Os.isfile (disk s) undo0 = true -> 1 <= img_idx s
}.

Lemma Bounded_write_log (g : env) (s : state) (text : string) :
  Inv g s -> Bounded g s ->
  Bounded g (set_disk (<[outfile g := File text]> (disk s)) s).
Proof.
  intros Hinv [Hidx Hundo]. split; simpl; [done|].
  intros undo0 undo1 Hrec Hfile. apply (Hundo undo0 undo1 Hrec).
  destruct (inv_undo _ _ Hinv) as [Hnil|(label & f & Hrec' & _)]; [congruence|].
  rewrite Hrec in Hrec'. simplify_eq.
  apply isfile_true in Hfile as [c Hc]. apply isfile_true. exists c.
  by rewrite lookup_insert_ne in Hc by (symmetry; apply moved_not_log).
Qed.

Lemma on_btn_click_Bounded (g : env) (btn_idx : nat) (now : string) (s s' : state) r :
  env_ok g -> Inv g s -> Bounded g s ->
  on_btn_click g btn_idx now s = (r, s') -> Bounded g s'.
Proof.
  intros Hok Hinv Hb. rewrite on_btn_click_eq.
  destruct (index (labels g) _) as [label|e]; [|by intros [= <- <-]].
  destruct (index (image_filenames g) _) as [f|e] eqn:Hf; [|by intros [= <- <-]].
  apply index_Ok_lt in Hf.
  destruct (parse_filename f) as [[[serial itr] fname]|e]; [|by intros [= <- <-]].
  rewrite append_log_eq.
  assert (Hb1 : forall text,
            Bounded g (set_disk (<[outfile g := File text]> (disk s)) s))
    by (intros; by apply Bounded_write_log).
  assert (Hstep : forall s1, Bounded g s1 -> img_idx s1 = img_idx s ->
            match os_rename (path g ++ [f]) (path g ++ [label; f]) s1 with
            | (Raise e, s2) => (Raise e, s2)
            | (Ok _, s2) =>
                change_img g false
                  (set_undo [path g ++ [label; f]; path g ++ [f]] s2)
            end = (r, s') -> Bounded g s').
  { intros s1 Hbs1 Hi1. rewrite os_rename_eq.
    destruct (Os.rename _ _ _) as [d|e]; [|by intros [= <- <-]].
    intros (_ & _ & Hi)%change_img_frame. simpl in Hi.
    destruct Hb as [Hidx _]. split; [lia|]. intros; lia. }
  destruct (disk s !! outfile g) as [[c|]|].
  - by apply Hstep.
  - by intros [= <- <-].
  - destruct (Os.isdir _ _); [by apply Hstep|by intros [= <- <-]].
Qed.

Lemma undo_click_Bounded (g : env) (s s' : state) r :
  Inv g s -> Bounded g s -> undo_click g s = (r, s') -> Bounded g s'.
Proof.
  intros Hinv Hb. rewrite undo_click_eq.
  destruct (inv_undo _ _ Hinv) as [Hnil|(label & f & Hrec & Hf & Hfree)].
  { rewrite Hnil. by intros [= <- <-]. }
  rewrite Hrec. destruct (Os.isfile _ _) eqn:Hfile; [|by intros [= <- <-]].
  assert (Hpast := bounded_undo _ _ Hb _ _ Hrec Hfile).
  specialize (Hfree eq_refl). apply isfile_true in Hfile as [c Hc].
  rewrite os_rename_eq, (rename_file _ _ _ c Hc) by apply path_neq_2_1.
  rewrite dirname_1, (inv_root _ _ Hinv), Hfree.
  destruct Hb as [Hidx _].
  destruct (change_img _ _ _) as [[shown|e] s2] eqn:Hchange;
    apply change_img_frame in Hchange as (Hd2 & Hu2 & Hi2); simpl in Hd2, Hu2, Hi2;
    destruct (moved_back_gone g s label f c _ Hd2) as [Hgone Hgone'].
  - destruct (disk s2 !! outfile g) as [[c'|]|]; intros [= <- <-];
      (split; simpl; [lia|]); intros undo0 undo1 Hrec2; rewrite Hu2, Hrec in Hrec2;
      simplify_eq; by rewrite ?Hgone, ?Hgone'.
  - intros [= <- <-]. split; [lia|]. intros undo0 undo1 Hrec2.
    rewrite Hu2, Hrec in Hrec2. simplify_eq. by rewrite Hgone.
Qed.

Lemma dispatch_Bounded (g : env) (ev : event) (s s' : state) r :
  env_ok g -> Inv g s -> Bounded g s -> dispatch g ev s = (r, s') -> Bounded g s'.
Proof.
  intros Hok Hinv Hb. destruct ev as [btn_idx now| |char now]; simpl.
  - by apply on_btn_click_Bounded.
  - by apply undo_click_Bounded.
  - unfold handle_keypress. destruct char as [|c [|??]]; try by intros [= <- <-].
    destruct (_ !! c); [by apply on_btn_click_Bounded|by intros [= <- <-]].
Qed.

Lemma run_Bounded (g : env) (evs : list event) (s s' : state) rs :
  env_ok g -> Inv g s -> Bounded g s -> run g evs s = (rs, s') -> Bounded g s'.
Proof.
  intros Hok. revert s rs. induction evs as [|ev evs IH]; intros s rs Hinv Hb; simpl.
  - by intros [= <- <-].
  - destruct (quit s); [by intros [= <- <-]|].
    destruct (dispatch g ev s) as [r s1] eqn:Hd.
    destruct (run g evs s1) as [rs' s2] eqn:Hrun. intros [= <- <-].
    eapply IH; [| |exact Hrun]; [by eapply dispatch_Inv|by eapply dispatch_Bounded].
Qed.

(** X5.  In a session the cursor, -1 before the first [change_img()] and
    0 after it, stays between 0 and the length of the queue whatever the
    user does and whether the callbacks return or raise: an undo never
    takes it below 0, so the queue is never subscripted from its end. *)
Theorem cursor_stays_in_queue
    (g : env) (fs : filesystem) (evs : list event) (s0 s : state) r0 rs :
  env_ok g -> Inv g (initial fs) ->
  change_img g false (initial fs) = (r0, s0) ->
  run g evs s0 = (rs, s) ->
  img_idx (initial fs) = -1 /\ img_idx s0 = 0
  /\ 0 <= img_idx s <= Z.of_nat (length (image_filenames g)).
Proof.
  intros Hok Hinv Hfirst Hrun.
  destruct (first_change_img _ _ _ _ Hfirst) as (Hi0 & Hd0 & Hu0).
  split; [done|]. split; [done|].
  eapply (bounded_idx g s), run_Bounded; [done| | |exact Hrun].
  - by eapply change_img_Inv.
  - split; [lia|]. intros undo0 undo1 Hrec. congruence.
Qed.

End CursorBounds.

Lemma cursor_stays_in_queue_witness :
  img_idx (Session.initial demo_disk) = -1 /\ img_idx demo_shown = 0
  /\ 0 <= img_idx (Session.run demo_pair_env
                    [Session.Click 0 "2024-05-01 10:00:00"; Session.UndoClick;
                     Session.UndoClick] demo_shown).2
       <= Z.of_nat (length (image_filenames demo_pair_env)).
Proof.
  apply (cursor_stays_in_queue demo_pair_env demo_disk
           [Session.Click 0 "2024-05-01 10:00:00"; Session.UndoClick; Session.UndoClick]
           demo_shown _ (Ok None)
           (Session.run demo_pair_env
              [Session.Click 0 "2024-05-01 10:00:00"; Session.UndoClick;
               Session.UndoClick] demo_shown).1).
  - apply demo_pair_env_ok.
  - apply (demo_pair_Inv (-1)).
  - reflexivity.
  - reflexivity.
Defined.

(** ** Label actions that fail after the log was written *)

Section FailingLabel.
Import PyStr Session.

(** X6.  The log is written before the file is moved and nothing ties the
    two together: when the directory of the chosen label does not exist,
    [os.rename] raises, and the label action ends with the row already
    appended to the log, the image still in the root directory, and the
    undo record, the cursor and the quit flag as they were. *)
Theorem missing_label_directory_leaves_row
    (g : env) (btn_idx : nat) (now : string) (s : state)
    (label f serial itr fname c : string) :
  env_ok g ->
  index (labels g) (Z.of_nat btn_idx) = Ok label ->
  index (image_filenames g) (img_idx s) = Ok f ->
  parse_filename f = Ok (serial, itr, fname) ->
  disk s !! (path g ++ [f]) = Some (File c) ->
  Os.isdir (disk s) (path g) = true ->
  disk s !! outfile g <> Some Dir ->
  Os.isdir (disk s) (path g ++ [label]) = false ->
  on_btn_click g btn_idx now s =
  (Raise OSError,
   set_disk (<[outfile g := File (log_content g s +:+ log_row now serial itr fname label)]>
               (disk s)) s).
Proof.
  intros Hok Hlabel Hf Hparse Hc Hroot Hlog Hmissing.
  assert (Hfq := index_Ok_elem _ _ _ Hf).
  rewrite on_btn_click_eq, Hlabel, Hf, Hparse, append_log_eq.
  assert (Hrename : forall text,
            os_rename (path g ++ [f]) (path g ++ [label; f])
              (set_disk (<[outfile g := File text]> (disk s)) s)
            = (Raise OSError, set_disk (<[outfile g := File text]> (disk s)) s)).
  { intros text. rewrite os_rename_eq. simpl.
    rewrite (rename_file _ _ _ c) by
      (rewrite ?lookup_insert_ne by (symmetry; by apply queued_not_log);
       (done || (symmetry; apply path_neq_2_1))).
    rewrite dirname_2.
    assert (Os.isdir (<[outfile g := File text]> (disk s)) (path g ++ [label]) = false) as ->;
      [|done].
    unfold Os.isdir in *.
    destruct (decide (outfile g = path g ++ [label])) as [<-|Hne].
    - by rewrite lookup_insert_eq.
    - by rewrite lookup_insert_ne. }
  unfold log_content.
  destruct (disk s !! outfile g) as [[c0|]|]; [by rewrite Hrename|by destruct Hlog|].
  unfold outfile at 1. rewrite dirname_1, Hroot. by rewrite Hrename.
Qed.

(** X7.  With an empty queue the first [change_img()] reports completion
    with count 0, and afterwards no event changes anything while the
    undo record is empty: a label action raises [IndexError] at the
    first lookup, an undo warns, a key is ignored or acts as a click. *)
Theorem empty_queue_changes_nothing
    (g : env) (fs : filesystem) (evs : list event) (s s' : state) rs :
  image_filenames g = [] ->
  undo s = [] ->
  run g evs s = (rs, s') ->
  (change_img g false (initial fs)).1 = Ok (Some (showinfo 0))
  /\ s' = s
  /\ Forall (fun r => r = Raise IndexError
                      \/ r = Ok None
                      \/ r = Ok (Some (showwarning "Nothing to undo."))) rs.
Proof.
  intros Hempty Hundo Hrun. split; [by rewrite change_img_eq, Hempty|].
  assert (Hclick : forall btn_idx now,
            on_btn_click g btn_idx now s = (Raise IndexError, s)).
  { intros btn_idx now. rewrite on_btn_click_eq, Hempty.
    destruct (index (labels g) _) as [label|e] eqn:Hlabel.
    - unfold index. simpl. by rewrite decide_False by (case_decide; lia).
    - unfold index in Hlabel. cbv zeta in Hlabel.
      case_decide; [|by simplify_eq]. destruct (labels g !! _); by simplify_eq. }
  clear fs. revert rs s' Hrun. induction evs as [|ev evs IH]; intros rs s'; simpl.
  - by intros [= <- <-].
  - destruct (quit s); [by intros [= <- <-]|].
    assert (exists r, dispatch g ev s = (r, s)
              /\ (r = Raise IndexError \/ r = Ok None
                  \/ r = Ok (Some (showwarning "Nothing to undo.")))) as (r & -> & Hr).
    { destruct ev as [btn_idx now| |char now]; simpl.
      - rewrite Hclick. eauto.
      - rewrite undo_click_eq, Hundo. eauto.
      - unfold handle_keypress. destruct char as [|c [|??]]; eauto.
        destruct (_ !! c); [rewrite Hclick|]; eauto. }
    destruct (run g evs s) as [rs' s2] eqn:Hrun'.
    destruct (IH rs' s2 eq_refl) as [-> Hrs]. intros [= <- <-]. split; [done|].
    by constructor.
Qed.

End FailingLabel.

(** The directory of [demo_disk] without its "dog" label. *)
Definition no_dog_state : state :=
  {| img_idx := 0; undo := [];
     disk := delete ["imgs"; "dog"] demo_disk; quit := false |}.

Lemma missing_label_directory_leaves_row_witness :
  Session.on_btn_click demo_pair_env 1 "2024-05-01 10:00:00" no_dog_state =
  (Raise OSError,
   set_disk (<[outfile demo_pair_env :=
                 File (Session.log_content demo_pair_env no_dog_state
                       +:+ Session.log_row "2024-05-01 10:00:00" "7" "1" ".png" "dog")]>
               (disk no_dog_state)) no_dog_state).
Proof.
  apply (missing_label_directory_leaves_row demo_pair_env 1 "2024-05-01 10:00:00"
           no_dog_state "dog" "7_1.png" "7" "1" ".png" "first").
  - apply demo_pair_env_ok.
  - reflexivity.
  - reflexivity.
  - reflexivity.
  - reflexivity.
  - reflexivity.
  - by vm_compute.
  - reflexivity.
Defined.

Definition empty_queue_env : env :=
  {| path := ["imgs"];
     labels := ["cat"; "dog"];
     image_filenames := [];
     keys := (Startup.load_labels_from ["cat"; "dog"]).2;
     can_open := fun _ => true |}.

Definition empty_queue_events : list Session.event :=
  [ Session.Click 0 "2024-05-01 10:00:00"; Session.UndoClick;
    Session.KeyPress "d" "2024-05-01 10:00:09"; Session.KeyPress "x" "2024-05-01 10:00:10" ].

Lemma empty_queue_changes_nothing_witness :
  (Session.change_img empty_queue_env false (Session.initial demo_disk)).1
  = Ok (Some (showinfo 0))
  /\ (Session.run empty_queue_env empty_queue_events (demo_state 0)).2 = demo_state 0
  /\ Forall (fun r => r = Raise IndexError
                      \/ r = Ok None
                      \/ r = Ok (Some (showwarning "Nothing to undo.")))
       (Session.run empty_queue_env empty_queue_events (demo_state 0)).1.
Proof.
  apply (empty_queue_changes_nothing empty_queue_env demo_disk empty_queue_events
           (demo_state 0)); reflexivity.
Defined.

(** ** The columns of a row *)

Section RowFacts.
Import PyStr Session.
Local Open Scope nat_scope.

Lemma first_piece_char_spec (c : ascii) (s : string) :
  exists rest, s = first_piece (String c "") s +:+ rest
               /\ contains c (first_piece (String c "") s) = false
               /\ (rest = "" \/ exists r, rest = String c r).
Proof.
  unfold first_piece. assert (H := find_sep_char c s).
  destruct (find_sep (String c "") s) as [[b a]|].
  - destruct H as [-> Hb]. exists (String c a). eauto.
  - exists "". rewrite append_nil_r. eauto.
Qed.

Lemma first_piece_char_app (c : ascii) (x y : string) :
  contains c x = false ->
  first_piece (String c "") (x +:+ y) = x +:+ first_piece (String c "") y.
Proof.
  induction x as [|a x IH]; [done|]. simpl. case_decide as Ha; [done|]. intros Hx.
  rewrite append_cons, first_piece_char_cons, decide_False by done.
  by rewrite IH.
Qed.

Lemma first_piece_char_stop (c : ascii) (x rest : string) :
  contains c x = false -> (rest = "" \/ exists r, rest = String c r) ->
  first_piece (String c "") (x +:+ rest) = x.
Proof.
  intros Hx Hrest. rewrite first_piece_char_app by done.
  destruct Hrest as [->|[r ->]].
  - by rewrite first_piece_char_nil, append_nil_r.
  - rewrite first_piece_char_cons, decide_True by done. apply append_nil_r.
Qed.

Lemma first_piece_char_whole (c : ascii) (x : string) :
  contains c x = false -> first_piece (String c "") x = x.
Proof.
  intros Hx. rewrite <- (append_nil_r x) at 1.
  apply first_piece_char_stop; eauto.
Qed.

(** X8.  What the parser puts in the first two columns.  The parse of a
    filename succeeds with serial [serial] and iteration [itr] exactly
    when the filename is [serial], an underscore, [itr] and a rest, where
    [serial] has no underscore, [itr] is not empty and has neither
    underscore nor dot, and the rest is empty or starts with an
    underscore or a dot. *)
Theorem parse_serial_and_iteration (f serial itr : string) :
  (exists fname, parse_filename f = Ok (serial, itr, fname)) <->
  (exists rest,
     f = serial +:+ String "_" (itr +:+ rest)
     /\ contains "_" serial = false
     /\ contains "_" itr = false /\ contains "." itr = false /\ itr <> ""
     /\ (rest = "" \/ exists c r, rest = String c r /\ (c = "_"%char \/ c = "."%char))).
Proof.
  split.
  - intros [fname Hparse]. rewrite parse_filename_eq in Hparse.
    assert (H := find_sep_char "_" f).
    destruct (find_sep "_" f) as [[b after]|]; [|done].
    destruct H as [-> Hserial]. case_decide as Hitr; [done|].
    destruct (find_sep (iteration_of after) _) as [[b' a']|]; [|done].
    simplify_eq. unfold iteration_of in *.
    destruct (first_piece_char_spec "_" after) as (r1 & Hafter & Hp1 & Hr1).
    destruct (first_piece_char_spec "." (first_piece "_" after)) as (r2 & Hpiece & Hit & Hr2).
    set (itr := first_piece "." (first_piece "_" after)) in *.
    exists (r2 +:+ r1). rewrite Hpiece, contains_append in Hp1.
    apply orb_false_elim in Hp1 as [Hit' Hr2'].
    split; [by rewrite <- append_assoc, <- Hpiece, <- Hafter|].
    do 4 (split; [done|]).
    destruct Hr2 as [->|[r ->]].
    + rewrite append_nil_l. destruct Hr1 as [->|[r ->]]; [by left|right; eauto].
    + right. rewrite append_cons. eauto.
  - intros (rest & -> & Hserial & Hu & Hd & Hne & Hrest).
    assert (Hitr : iteration_of (itr +:+ rest) = itr).
    { unfold iteration_of. destruct Hrest as [->|(c & r & -> & [->| ->])].
      - rewrite append_nil_r, (first_piece_char_whole "_") by done.
        by apply first_piece_char_whole.
      - rewrite (first_piece_char_stop "_" itr) by eauto.
        by apply first_piece_char_whole.
      - rewrite first_piece_char_app by done.
        apply first_piece_char_stop; [done|].
        right. rewrite first_piece_char_cons, decide_False by done. eauto. }
    rewrite parse_filename_eq, find_sep_char_first, Hitr by done.
    rewrite decide_False by done.
    assert (Hocc : is_Some (find_sep itr (serial +:+ String "_" (itr +:+ rest)))).
    { replace (serial +:+ String "_" (itr +:+ rest))
        with ((serial +:+ "_") +:+ itr +:+ rest) by (by rewrite append_assoc).
      apply find_sep_occurs. }
    destruct Hocc as [[b a] ->]. eauto.
Qed.

Lemma join_cons (c : ascii) (x y : string) (l : list string) :
  join (String c "") (x :: y :: l) = x +:+ String c (join (String c "") (y :: l)).
Proof. done. Qed.

(** Splitting at a character undoes joining with it, when no piece has
    the character. *)
Lemma split_loop_join (c : ascii) (fields : list string) :
  fields <> [] -> Forall (fun x => contains c x = false) fields ->
  forall n, String.length (join (String c "") fields) <= n ->
  split_loop n (String c "") (join (String c "") fields) = fields.
Proof.
  induction fields as [|x [|y l] IH]; [done| |]; intros _ Hfields n Hn.
  - apply Forall_cons in Hfields as [Hx _]. unfold join. simpl.
    destruct n; cbn [split_loop]; [done|]. by rewrite find_sep_char_None.
  - apply Forall_cons in Hfields as [Hx Hrest]. rewrite join_cons in *.
    rewrite length_append in Hn. cbn [String.length] in Hn.
    destruct n as [|n]; [lia|]. cbn [split_loop].
    rewrite find_sep_char_first by done. f_equal. apply IH; [done..|lia].
Qed.

(** X9.  A row of the log reads back into its five columns: the row is a
    line that ends with a line feed, and when no column contains a comma,
    splitting the line at the commas gives the clock reading, the serial,
    the iteration, the base name and the label, in this order. *)
Theorem log_row_columns (now serial itr fname label : string) :
  Forall (fun x => contains "," x = false) [now; serial; itr; fname; label] ->
  exists line,
    log_row now serial itr fname label = line +:+ String LF ""
    /\ split line "," = Ok [now; serial; itr; fname; label].
Proof.
  intros Hfields. exists (join "," [now; serial; itr; fname; label]).
  split; [done|]. unfold split. rewrite decide_False by done.
  f_equal. by apply split_loop_join.
Qed.

End RowFacts.

Lemma log_row_columns_witness :
  exists line,
    Session.log_row "2024-05-01 10:00:00" "7" "1" ".png" "cat" = line +:+ String LF ""
    /\ PyStr.split line "," = Ok ["2024-05-01 10:00:00"; "7"; "1"; ".png"; "cat"].
Proof.
  apply (log_row_columns "2024-05-01 10:00:00" "7" "1" ".png" "cat").
  repeat constructor.
Defined.

(** A comma in a label shifts the columns. *)
Example comma_in_label_makes_six_columns :
  PyStr.split (PyStr.join "," ["2024-05-01 10:00:00"; "7"; "1"; ".png"; "cats,dogs"]) ","
  = Ok ["2024-05-01 10:00:00"; "7"; "1"; ".png"; "cats"; "dogs"].
Proof. reflexivity. Qed.

(** When the iteration token also occurs in the serial, the base name is
    cut out of the serial's end instead of the name's tail. *)
Example iteration_token_in_serial :
  Session.parse_filename "21_1_left.png" = Ok ("21", "1", "_").
Proof. reflexivity. Qed.

(** ** What the callbacks do to the disk, in elementary changes *)

Section Changes.
Import PyStr Session.

(** The four ways a callback changes the disk and the undo record:
    not at all, by writing the log, by moving the current image into a
    label directory and recording the move, by moving the recorded file
    back. *)
Inductive change (g : env) (s s' : state) : Prop :=
| change_none :
    disk s' = disk s -> undo s' = undo s -> change g s s'
| change_log (text : string) :
    disk s' = <[outfile g := File text]> (disk s) -> undo s' = undo s -> change g s s'
| change_move (label f c : string) :
    f ∈ image_filenames g -> label ∈ labels g ->
    disk s !! (path g ++ [f]) = Some (File c) ->
    disk s' = <[path g ++ [label; f] := File c]> (delete (path g ++ [f]) (disk s)) ->
    undo s' = [path g ++ [label; f]; path g ++ [f]] ->
    change g s s'
| change_move_back (label f c : string) :
    undo s = [path g ++ [label; f]; path g ++ [f]] ->
    disk s !! (path g ++ [label; f]) = Some (File c) ->
    disk s !! (path g ++ [f]) = None ->
    disk s' = <[path g ++ [f] := File c]> (delete (path g ++ [label; f]) (disk s)) ->
    undo s' = undo s ->
    change g s s'.

(** A property of states that every elementary change keeps. *)
Definition stable (g : env) (P : state -> Prop) : Prop :=
  forall s s', Inv g s -> P s -> change g s s' -> P s'.

Lemma on_btn_click_stable (g : env) (P : state -> Prop)
    (btn_idx : nat) (now : string) (s s' : state) r :
  env_ok g -> stable g P -> Inv g s -> P s ->
  on_btn_click g btn_idx now s = (r, s') -> P s'.
Proof.
  intros Hok Hstable Hinv HP. rewrite on_btn_click_eq.
  destruct (index (labels g) _) as [label|e] eqn:Hlabel; [|by intros [= <- <-]].
  apply index_Ok_elem in Hlabel.
  destruct (index (image_filenames g) _) as [f|e] eqn:Hf; [|by intros [= <- <-]].
  apply index_Ok_elem in Hf.
  destruct (parse_filename f) as [[[serial itr] fname]|e]; [|by intros [= <- <-]].
  destruct (append_log _ _ _) as [[[]|e] s1] eqn:Hlog.
  2:{ intros [= <- <-]. rewrite append_log_eq in Hlog.
      destruct (disk s !! outfile g) as [[c|]|]; simplify_eq; [done|].
      destruct (Os.isdir _ _); by simplify_eq. }
  assert (Hinv1 : Inv g s1) by (by eapply append_log_Inv).
  assert (HP1 : P s1).
  { rewrite append_log_eq in Hlog.
    destruct (disk s !! outfile g) as [[c|]|]; simplify_eq.
    - eapply (Hstable s); [exact Hinv|exact HP|]. by eapply change_log.
    - destruct (Os.isdir _ _); simplify_eq.
      eapply (Hstable s); [exact Hinv|exact HP|]. by eapply change_log. }
  rewrite os_rename_eq.
  destruct (Os.rename _ _ _) as [d|e] eqn:Hren; [|by intros [= <- <-]].
  destruct (queued_rename_file _ _ _ _ _ Hinv1 Hf Hren) as [c Hc].
  rewrite (rename_file _ _ _ c Hc) in Hren by (symmetry; apply path_neq_2_1).
  destruct (Os.isdir _ _); [|done].
  assert (d = <[path g ++ [label; f] := File c]> (delete (path g ++ [f]) (disk s1))) as ->.
  { by destruct (disk s1 !! (path g ++ [label; f])) as [[c'|]|]; simplify_eq. }
  intros (Hd & Hu & _)%change_img_frame. simpl in Hd, Hu.
  eapply Hstable; [exact Hinv1|exact HP1|]. by eapply (change_move g s1 s' label f c).
Qed.

Lemma undo_click_stable (g : env) (P : state -> Prop) (s s' : state) r :
  env_ok g -> stable g P -> Inv g s -> P s ->
  undo_click g s = (r, s') -> P s'.
Proof.
  intros Hok Hstable Hinv HP. rewrite undo_click_eq.
  destruct (inv_undo _ _ Hinv) as [Hnil|(label & f & Hrec & Hf & Hfree)].
  { rewrite Hnil. by intros [= <- <-]. }
  rewrite Hrec. destruct (Os.isfile _ _) eqn:Hfile; [|by intros [= <- <-]].
  specialize (Hfree eq_refl). apply isfile_true in Hfile as [c Hc].
  rewrite os_rename_eq, (rename_file _ _ _ c Hc) by apply path_neq_2_1.
  rewrite dirname_1, (inv_root _ _ Hinv), Hfree.
  destruct (change_img _ _ _) as [r2 s2] eqn:Hchange.
  assert (Hinv2 : Inv g s2).
  { eapply change_img_Inv; [|exact Hchange]. by apply Inv_move_back. }
  apply change_img_frame in Hchange as (Hd2 & Hu2 & _). simpl in Hd2, Hu2.
  assert (HP2 : P s2).
  { eapply Hstable; [exact Hinv|exact HP|].
    by eapply (change_move_back g s s2 label f c). }
  destruct r2 as [shown|e]; [|by intros [= <- <-]].
  destruct (disk s2 !! outfile g) as [[c'|]|]; intros [= <- <-]; [|done..].
  eapply Hstable; [exact Hinv2|exact HP2|]. by eapply change_log.
Qed.

Lemma dispatch_stable (g : env) (P : state -> Prop) (ev : event) (s s' : state) r :
  env_ok g -> stable g P -> Inv g s -> P s ->
  dispatch g ev s = (r, s') -> P s'.
Proof.
  intros Hok Hstable Hinv HP. destruct ev as [btn_idx now| |char now]; simpl.
  - by apply on_btn_click_stable.
  - by apply undo_click_stable.
  - unfold handle_keypress. destruct char as [|c [|??]]; try by intros [= <- <-].
    destruct (_ !! c); [by apply on_btn_click_stable|by intros [= <- <-]].
Qed.

(** What every elementary change keeps, the event loop keeps. *)
Lemma run_stable (g : env) (P : state -> Prop) (evs : list event) (s s' : state) rs :
  env_ok g -> stable g P -> Inv g s -> P s ->
  run g evs s = (rs, s') -> P s'.
Proof.
  intros Hok Hstable. revert s rs. induction evs as [|ev evs IH]; intros s rs Hinv HP; simpl.
  - by intros [= <- <-].
  - destruct (quit s); [by intros [= <- <-]|].
    destruct (dispatch g ev s) as [r s1] eqn:Hd.
    destruct (run g evs s1) as [rs' s2] eqn:Hrun. intros [= <- <-].
    eapply IH; [| |exact Hrun]; [by eapply dispatch_Inv|by eapply dispatch_stable].
Qed.

End Changes.

(** ** No image is lost *)

Section NoImageLost.
Import PyStr Session.

(** Every queued name that was a regular file of the root directory on
    the disk [fs0] is, with the content it had there, either still in the
    root directory or in a label directory and then not in the root; and
    the file of the undo record holds the content its name had on [fs0]. *)
Definition kept (g : env) (fs0 : filesystem) (s : state) : Prop :=
  (forall f c, f ∈ image_filenames g -> fs0 !! (path g ++ [f]) = Some (File c) ->
     disk s !! (path g ++ [f]) = Some (File c)
     \/ (disk s !! (path g ++ [f]) = None
         /\ exists label, label ∈ labels g
                          /\ disk s !! (path g ++ [label; f]) = Some (File c)))
  /\ (forall label f c c',
        undo s = [path g ++ [label; f]; path g ++ [f]] ->
        fs0 !! (path g ++ [f]) = Some (File c) ->
        disk s !! (path g ++ [label; f]) = Some (File c') -> c' = c).

Lemma path_inj_1 (p : path_t) (a b : string) : p ++ [a] = p ++ [b] -> a = b.
Proof. intros H%app_inv_head. by simplify_eq. Qed.

Lemma path_inj_2 (p : path_t) (a b a' b' : string) :
  p ++ [a; b] = p ++ [a'; b'] -> a = a' /\ b = b'.
Proof. intros H%app_inv_head. by simplify_eq. Qed.

Lemma kept_stable (g : env) (fs0 : filesystem) :
  env_ok g -> stable g (kept g fs0).
Proof.
  intros Hok s s' Hinv [Hkept Hrec] Hchange.
  destruct Hchange as [Hd Hu|text Hd Hu|label0 f0 c0 Hf0 Hlabel0 Hc0 Hd Hu
                      |label0 f0 c0 Hu0 Hc0 Hfree Hd Hu].
  - split; [intros f c Hf Hc|intros label f c c']; rewrite ?Hd, ?Hu; eauto.
  - split.
    + intros f c Hf Hc. rewrite Hd.
      rewrite lookup_insert_ne by (symmetry; by apply queued_not_log).
      destruct (Hkept f c Hf Hc) as [?|(? & label & ? & ?)]; [by left|right].
      split; [done|]. exists label.
      by rewrite lookup_insert_ne by (symmetry; apply moved_not_log).
    + intros label f c c'. rewrite Hd, Hu.
      rewrite lookup_insert_ne by (symmetry; apply moved_not_log). eauto.
  - split.
    + intros f c Hf Hc. rewrite Hd.
      rewrite lookup_insert_ne by apply path_neq_2_1.
      destruct (decide (f = f0)) as [->|Hne].
      * right. rewrite lookup_delete_eq. split; [done|]. exists label0. split; [done|].
        rewrite lookup_insert_eq.
        destruct (Hkept f0 c Hf Hc) as [?|[? _]]; congruence.
      * rewrite lookup_delete_ne by (by intros ?%path_inj_1).
        destruct (Hkept f c Hf Hc) as [?|(? & label & ? & ?)]; [by left|right].
        split; [done|]. exists label. split; [done|].
        rewrite lookup_insert_ne by (by intros [_ ?]%path_inj_2).
        by rewrite lookup_delete_ne by (symmetry; apply path_neq_2_1).
    + intros label f c c'. rewrite Hd, Hu.
      intros [= [-> ->]%path_inj_2] Hc. rewrite lookup_insert_eq. intros [= <-].
      destruct (Hkept f c Hf0 Hc) as [?|[? _]]; congruence.
  - split.
    + intros f c Hf Hc. rewrite Hd.
      destruct (decide (f = f0)) as [->|Hne].
      * left. rewrite lookup_insert_eq.
        by rewrite (Hrec label0 f0 c c0 Hu0 Hc Hc0).
      * rewrite lookup_insert_ne by (by intros ?%path_inj_1).
        rewrite lookup_delete_ne by apply path_neq_2_1.
        destruct (Hkept f c Hf Hc) as [?|(? & label & ? & ?)]; [by left|right].
        split; [done|]. exists label. split; [done|].
        rewrite lookup_insert_ne by (symmetry; apply path_neq_2_1).
        by rewrite lookup_delete_ne by (by intros [_ ?]%path_inj_2).
    + intros label f c c'. rewrite Hd, Hu, Hu0.
      intros [= [-> ->]%path_inj_2] Hc.
      rewrite lookup_insert_ne by (symmetry; apply path_neq_2_1).
      by rewrite lookup_delete_eq.
Qed.

(** X10.  No image is lost or altered.  At every point of a session,
    whatever the events and whether the callbacks return or raise, each
    queued name that was a regular file of the root directory at start
    is, with the content it had then, either still in the root
    directory or in the directory of one of the labels and no longer in
    the root. *)
Theorem no_image_is_lost
    (g : env) (fs : filesystem) (evs : list event) (s0 s : state) r0 rs :
  env_ok g -> Inv g (initial fs) ->
  change_img g false (initial fs) = (r0, s0) ->
  run g evs s0 = (rs, s) ->
  forall f c, f ∈ image_filenames g -> fs !! (path g ++ [f]) = Some (File c) ->
    disk s !! (path g ++ [f]) = Some (File c)
    \/ (disk s !! (path g ++ [f]) = None
        /\ exists label, label ∈ labels g
                         /\ disk s !! (path g ++ [label; f]) = Some (File c)).
Proof.
  intros Hok Hinv Hfirst Hrun.
  destruct (first_change_img _ _ _ _ Hfirst) as (_ & Hd0 & Hu0).
  assert (Hkept0 : kept g fs s0).
  { split; [intros f c _ Hc; left; by rewrite Hd0|]. intros label f c c'. by rewrite Hu0. }
  assert (Hinv0 : Inv g s0) by (by eapply change_img_Inv).
  apply (run_stable g (kept g fs) evs s0 s rs Hok (kept_stable g fs Hok) Hinv0 Hkept0 Hrun).
Qed.

End NoImageLost.

Definition demo_events : list Session.event :=
  [ Session.Click 0 "2024-05-01 10:00:00"; Session.UndoClick;
    Session.KeyPress "d" "2024-05-01 10:00:09"; Session.Click 1 "2024-05-01 10:00:12" ].

Lemma no_image_is_lost_witness :
  disk (Session.run demo_pair_env demo_events demo_shown).2
    !! (path demo_pair_env ++ ["7_1.png"]) = Some (File "first")
  \/ (disk (Session.run demo_pair_env demo_events demo_shown).2
        !! (path demo_pair_env ++ ["7_1.png"]) = None
      /\ exists label, label ∈ labels demo_pair_env
           /\ disk (Session.run demo_pair_env demo_events demo_shown).2
                !! (path demo_pair_env ++ [label; "7_1.png"]) = Some (File "first")).
Proof.
  apply (no_image_is_lost demo_pair_env demo_disk demo_events demo_shown _ (Ok None)
           (Session.run demo_pair_env demo_events demo_shown).1).
  - apply demo_pair_env_ok.
  - apply (demo_pair_Inv (-1)).
  - reflexivity.
  - reflexivity.
  - apply list_elem_of_here.
  - reflexivity.
Defined.

(** ** The log follows the cursor *)

Section RowsFollowCursor.
Import PyStr Session.

(** A closed text that is not empty ends with a last line. *)
Lemma terminated_last_line (c : string) :
  terminated c = true -> c <> "" ->
  exists c0 row, c = c0 +:+ row +:+ String LF ""
                 /\ terminated c0 = true /\ contains LF row = false.
Proof.
  induction c as [|a r IH]; [done|]. intros Hterm _.
  destruct r as [|b r'].
  - simpl in Hterm. apply bool_decide_eq_true in Hterm as ->. by exists "", "".
  - destruct (IH Hterm ltac:(done)) as (c0 & row & Heq & Hc0 & Hrow). rewrite Heq.
    destruct c0 as [|x c0'].
    + rewrite append_nil_l. destruct (decide (a = LF)) as [->|Ha].
      * exists (String LF ""), row. by rewrite append_cons, append_nil_l.
      * exists "", (String a row). rewrite append_nil_l, append_cons. split; [done|].
        split; [done|]. simpl. by rewrite decide_False.
    + exists (String a (String x c0')), row. by rewrite !append_cons.
Qed.

(** Cutting the last line off a clean text leaves a clean text with one
    row less (none less when there was none). *)
Lemma cut_last_line (c : string) :
  clean_text c ->
  clean_text (writelines (all_but_last (readlines c)))
  /\ length (readlines (writelines (all_but_last (readlines c))))
     = pred (length (readlines c)).
Proof.
  intros [Hcr Hterm]. destruct (decide (c = "")) as [->|Hne]; [done|].
  destruct (terminated_last_line c Hterm Hne) as (c0 & row & -> & Hc0 & Hrow).
  rewrite !contains_append in Hcr.
  apply orb_false_elim in Hcr as [Hcr0 [Hcrrow _]%orb_false_elim].
  assert (Hclean0 : clean_text c0) by done.
  assert (Hrowclean : no_linebreak row) by done.
  unfold all_but_last. rewrite undo_last_row by done. split; [done|].
  rewrite readlines_append, length_app by done. simpl. lia.
Qed.

(** The log after a label action that returns, names and clock reading
    without line break: clean, one row more. *)
Lemma on_btn_click_Ok_rows (g : env) (btn_idx : nat) (now : string) (s s1 : state) r :
  env_ok g -> Inv g s -> tidy_names g -> no_linebreak now ->
  clean_text (log_content g s) ->
  on_btn_click g btn_idx now s = (Ok r, s1) ->
  clean_text (log_content g s1)
  /\ length (log_rows g s1) = S (length (log_rows g s)).
Proof.
  intros Hok Hinv Htidy Hnow Hclean Hclick.
  destruct (on_btn_click_Ok _ _ _ _ _ _ Hok Hinv Hclick)
    as (label & f & serial & itr & fname & c & Hlabel & Hf & Hparse & Hc & Hd1 & Hu1).
  destruct (row_is_one_line _ _ _ _ _ _ _ _ _ Htidy Hnow Hlabel Hf Hparse)
    as (row & Hrow & Hrowclean).
  assert (Hfq := index_Ok_elem _ _ _ Hf).
  assert (Hlog1 : log_content g s1 = log_content g s +:+ row +:+ String LF "").
  { unfold log_content at 1. rewrite Hd1, lookup_insert_ne by apply moved_not_log.
    rewrite lookup_delete_ne by (by apply queued_not_log).
    by rewrite lookup_insert_eq, Hrow. }
  rewrite Hlog1. split; [by apply clean_text_append|].
  unfold log_rows. rewrite Hlog1, readlines_append, length_app by done. simpl. lia.
Qed.

(** An undo that returns either only warned, or took the cursor one back
    and cut the last line off the log. *)
Lemma undo_click_Ok_rows (g : env) (s s' : state) shown :
  env_ok g -> Inv g s -> Bounded g s ->
  undo_click g s = (Ok shown, s') ->
  s' = s
  \/ (1 <= img_idx s /\ img_idx s' = img_idx s - 1
      /\ log_content g s'
         = writelines (all_but_last (readlines (log_content g s)))).
Proof.
  intros Hok Hinv Hb. rewrite undo_click_eq.
  destruct (inv_undo _ _ Hinv) as [Hnil|(label & f & Hrec & Hf & Hfree)].
  { rewrite Hnil. intros [= <- <-]. by left. }
  rewrite Hrec. destruct (Os.isfile _ _) eqn:Hfile; [|intros [= <- <-]; by left].
  assert (Hpast := bounded_undo _ _ Hb _ _ Hrec Hfile).
  specialize (Hfree eq_refl). apply isfile_true in Hfile as [c Hc].
  rewrite os_rename_eq, (rename_file _ _ _ c Hc) by apply path_neq_2_1.
  rewrite dirname_1, (inv_root _ _ Hinv), Hfree.
  destruct (change_img _ _ _) as [[shown2|e] s2] eqn:Hchange; [|done].
  apply change_img_frame in Hchange as (Hd2 & Hu2 & Hi2). simpl in Hd2, Hu2, Hi2.
  assert (Hlog2 : disk s2 !! outfile g = disk s !! outfile g).
  { rewrite Hd2, lookup_insert_ne by (by apply queued_not_log).
    by rewrite lookup_delete_ne by apply moved_not_log. }
  rewrite Hlog2.
  destruct (disk s !! outfile g) as [[c'|]|] eqn:Hlog; [|done..].
  intros [= <- <-]. right. split; [done|]. split; [done|].
  unfold log_content. simpl. by rewrite lookup_insert_eq, Hlog.
Qed.

(** The clock reading of an event that has one is without line break. *)
Definition tidy_event (ev : event) : Prop :=
  match ev with
  | Click _ now => no_linebreak now
  | UndoClick => True
  | KeyPress _ now => no_linebreak now
  end.

(** The log is clean and has as many rows as the cursor says. *)
Definition synced (g : env) (s : state) : Prop :=
  clean_text (log_content g s)
  /\ Z.of_nat (length (log_rows g s)) = img_idx s.

Lemma dispatch_synced (g : env) (ev : event) (s s' : state) r :
  env_ok g -> tidy_names g -> tidy_event ev ->
  Inv g s -> Bounded g s -> synced g s ->
  dispatch g ev s = (Ok r, s') -> synced g s'.
Proof.
  intros Hok Htidy Hev Hinv Hb [Hclean Hrows].
  assert (Hclick : forall btn_idx now, no_linebreak now ->
            on_btn_click g btn_idx now s = (Ok r, s') -> synced g s').
  { intros btn_idx now Hnow Hclick.
    destruct (on_btn_click_Ok_rows _ _ _ _ _ _ Hok Hinv Htidy Hnow Hclean Hclick)
      as [Hclean1 Hrows1].
    destruct (on_btn_click_cursor _ _ _ _ _ _ Hclick) as (_ & Hi1 & _).
    split; [done|]. rewrite Hrows1, Hi1. lia. }
  destruct ev as [btn_idx now| |char now]; simpl.
  - by apply Hclick.
  - intros Hundo.
    destruct (undo_click_Ok_rows _ _ _ _ Hok Hinv Hb Hundo) as [->|(Hpast & Hi & Hlog)];
      [done|].
    destruct (cut_last_line _ Hclean) as [Hclean' Hrows'].
    unfold synced, log_rows. rewrite Hlog. split; [done|].
    rewrite Hrows', Hi. unfold log_rows in Hrows. lia.
  - unfold handle_keypress. destruct char as [|c [|??]]; try by intros [= <- <-].
    destruct (_ !! c); [by apply Hclick|by intros [= <- <-]].
Qed.

(** X11.  In a fresh session whose labels, queued filenames and clock
    readings have no line break, after any sequence of label actions,
    undos and key presses in which no callback raised, the log has as
    many rows as the cursor says: one per image labelled and not undone. *)
Theorem rows_follow_cursor
    (g : env) (fs : filesystem) (d0 : option dialog) (s0 s : state)
    (evs : list event) (rs : list (result (option dialog))) :
  env_ok g -> Inv g (initial fs) ->
  tidy_names g -> Forall tidy_event evs ->
  log_content g (initial fs) = "" ->
  change_img g false (initial fs) = (Ok d0, s0) ->
  run g evs s0 = (rs, s) -> Forall succeeded rs ->
  Z.of_nat (length (log_rows g s)) = img_idx s.
Proof.
  intros Hok Hinv Htidy Hevs Hfresh Hfirst Hrun Hrs.
  destruct (first_change_img _ _ _ _ Hfirst) as (Hi0 & Hd0 & Hu0).
  assert (Hinv0 : Inv g s0) by (by eapply change_img_Inv).
  assert (Hb0 : Bounded g s0).
  { split; [lia|]. intros undo0 undo1 Hrec. congruence. }
  assert (Hlog0 : log_content g s0 = "").
  { unfold log_content in *. by rewrite Hd0. }
  assert (Hs0 : synced g s0).
  { unfold synced, log_rows. rewrite Hlog0. split; [done|]. by rewrite Hi0. }
  clear Hfirst Hi0 Hd0 Hu0 Hlog0 Hfresh Hinv.
  revert s0 rs Hrun Hrs Hinv0 Hb0 Hs0.
  induction evs as [|ev evs IH]; intros s0 rs; simpl.
  - intros [= <- <-] _ _ _ [_ ?]. done.
  - destruct (quit s0); [intros [= <- <-] _ _ _ [_ ?]; done|].
    destruct (dispatch g ev s0) as [r s1] eqn:Hd.
    destruct (run g evs s1) as [rs' s2] eqn:Hrun.
    intros [= <- <-] [Hr Hrs]%Forall_cons Hinv0 Hb0 Hs0.
    apply Forall_cons in Hevs as [Hev Hevs].
    destruct r as [dlg|e]; [|done].
    eapply (IH Hevs s1 rs'); [done..| | |].
    + by eapply dispatch_Inv.
    + by eapply dispatch_Bounded.
    + by eapply dispatch_synced.
Qed.

End RowsFollowCursor.

Lemma rows_follow_cursor_witness :
  Z.of_nat (length (Session.log_rows demo_pair_env
                      (Session.run demo_pair_env demo_events demo_shown).2))
  = img_idx (Session.run demo_pair_env demo_events demo_shown).2.
Proof.
  apply (rows_follow_cursor demo_pair_env demo_disk None demo_shown _ demo_events
           (Session.run demo_pair_env demo_events demo_shown).1).
  - apply demo_pair_env_ok.
  - apply (demo_pair_Inv (-1)).
  - apply demo_pair_tidy.
  - repeat constructor.
  - reflexivity.
  - reflexivity.
  - reflexivity.
  - vm_compute. repeat constructor.
Defined.

(** ** Label, undo, label again *)

Section Relabel.
Import PyStr Session.

Lemma path_neq_1_2 (p : path_t) (a b c : string) : p ++ [a] <> p ++ [b; c].
Proof. by intros ?%app_inv_head. Qed.

(** A label action that returns, in full: the lookups, the row, the move
    into an existing label directory, and the last step [change_img()]
    on the state so reached. *)
Lemma on_btn_click_Ok_full (g : env) (btn_idx : nat) (now : string) (s s' : state) r :
  env_ok g -> Inv g s -> on_btn_click g btn_idx now s = (Ok r, s') ->
  exists label f serial itr fname c,
    index (labels g) (Z.of_nat btn_idx) = Ok label
    /\ index (image_filenames g) (img_idx s) = Ok f
    /\ parse_filename f = Ok (serial, itr, fname)
    /\ disk s !! (path g ++ [f]) = Some (File c)
    /\ disk s !! (path g ++ [label]) = Some Dir
    /\ path g ++ [label] <> outfile g
    /\ change_img g false
         {| img_idx := img_idx s;
            undo := [path g ++ [label; f]; path g ++ [f]];
            disk := <[path g ++ [label; f] := File c]>
                      (delete (path g ++ [f])
                         (<[outfile g :=
                              File (log_content g s
                                    +:+ log_row now serial itr fname label)]> (disk s)));
            quit := quit s |}
       = (Ok r, s').
Proof.
  intros Hok Hinv. rewrite on_btn_click_eq.
  destruct (index (labels g) _) as [label|e] eqn:Hlabel; [|done].
  destruct (index (image_filenames g) _) as [f|e] eqn:Hf; [|done].
  assert (Hfq := index_Ok_elem _ _ _ Hf).
  destruct (parse_filename f) as [[[serial itr] fname]|e] eqn:Hparse; [|done].
  destruct (append_log _ _ _) as [[[]|e] s1] eqn:Hlog; [|done].
  assert (Hinv1 : Inv g s1) by (by eapply append_log_Inv).
  assert (Hs1 : s1 = set_disk
            (<[outfile g := File (log_content g s +:+ log_row now serial itr fname label)]>
               (disk s)) s).
  { rewrite append_log_eq in Hlog. unfold log_content.
    destruct (disk s !! outfile g) as [[c|]|]; simplify_eq; try done.
    destruct (Os.isdir _ _); by simplify_eq. }
  rewrite os_rename_eq.
  destruct (Os.rename _ _ _) as [d|e] eqn:Hren; [|done].
  destruct (queued_rename_file _ _ _ _ _ Hinv1 Hfq Hren) as [c Hc].
  rewrite (rename_file _ _ _ c Hc) in Hren by (symmetry; apply path_neq_2_1).
  rewrite dirname_2 in Hren.
  destruct (Os.isdir _ _) eqn:Hdir; [|done].
  assert (d = <[path g ++ [label; f] := File c]> (delete (path g ++ [f]) (disk s1))) as ->.
  { by destruct (disk s1 !! (path g ++ [label; f])) as [[c'|]|]; simplify_eq. }
  intros Hchange. exists label, f, serial, itr, fname, c.
  rewrite Hs1 in Hc, Hdir, Hchange. simpl in Hc, Hdir, Hchange.
  rewrite lookup_insert_ne in Hc by (symmetry; by apply queued_not_log).
  apply isdir_true in Hdir.
  assert (Hnotlog : path g ++ [label] <> outfile g).
  { intros Heq. by rewrite Heq, lookup_insert_eq in Hdir. }
  rewrite lookup_insert_ne in Hdir by done.
  done.
Qed.

(** A label action whose lookups, log write and move go through is the
    last step [change_img()] on the state so reached. *)
Lemma on_btn_click_through (g : env) (btn_idx : nat) (now : string) (s : state)
    (label f serial itr fname c old : string) :
  env_ok g ->
  index (labels g) (Z.of_nat btn_idx) = Ok label ->
  index (image_filenames g) (img_idx s) = Ok f ->
  parse_filename f = Ok (serial, itr, fname) ->
  disk s !! outfile g = Some (File old) ->
  disk s !! (path g ++ [f]) = Some (File c) ->
  disk s !! (path g ++ [label]) = Some Dir ->
  disk s !! (path g ++ [label; f]) = None ->
  on_btn_click g btn_idx now s =
  change_img g false
    {| img_idx := img_idx s;
       undo := [path g ++ [label; f]; path g ++ [f]];
       disk := <[path g ++ [label; f] := File c]>
                 (delete (path g ++ [f])
                    (<[outfile g := File (old +:+ log_row now serial itr fname label)]>
                       (disk s)));
       quit := quit s |}.
Proof.
  intros Hok Hlabel Hf Hparse Hlog Hc Hdir Hdst.
  assert (Hfq := index_Ok_elem _ _ _ Hf).
  assert (Hnotlog : path g ++ [label] <> outfile g) by (intros Heq; congruence).
  rewrite on_btn_click_eq, Hlabel, Hf, Hparse, append_log_eq, Hlog, os_rename_eq. simpl.
  rewrite (rename_file _ _ _ c); [| |symmetry; apply path_neq_2_1].
  2:{ by rewrite lookup_insert_ne by (symmetry; by apply queued_not_log). }
  rewrite dirname_2.
  assert (Os.isdir (<[outfile g := File (old +:+ log_row now serial itr fname label)]>
                      (disk s)) (path g ++ [label]) = true) as ->.
  { apply isdir_true. by rewrite lookup_insert_ne. }
  by rewrite lookup_insert_ne, Hdst by (symmetry; apply moved_not_log).
Qed.

(** X12.  Undo is a true inverse of the label action: under the
    assumptions of C1, after a label action that returns and the undo
    that follows it, the same label action with the same clock reading
    returns the same dialog and leads to exactly the state the first one
    led to. *)
Theorem relabel_after_undo
    (g : env) (btn_idx : nat) (now : string) (s s1 : state) (r : option dialog) :
  env_ok g -> Inv g s ->
  tidy_names g -> no_linebreak now ->
  clean_text (log_content g s) ->
  current_image_opens g s ->
  on_btn_click g btn_idx now s = (Ok r, s1) ->
  exists s2,
    undo_click g s1 = (Ok None, s2)
    /\ on_btn_click g btn_idx now s2 = (Ok r, s1).
Proof.
  intros Hok Hinv Htidy Hnow Hclean Hopens Hclick.
  destruct (on_btn_click_Ok_full _ _ _ _ _ _ Hok Hinv Hclick)
    as (label & f & serial & itr & fname & c
        & Hlabel & Hf & Hparse & Hc & Hdir & Hnotlog & Hchange).
  destruct (on_btn_click_cursor _ _ _ _ _ _ Hclick) as (_ & Hi1 & _ & _).
  assert (Hinv1 : Inv g s1) by (by eapply on_btn_click_Inv).
  destruct (row_is_one_line _ _ _ _ _ _ _ _ _ Htidy Hnow Hlabel Hf Hparse)
    as (row & Hrow & Hrowclean).
  assert (Hfq := index_Ok_elem _ _ _ Hf).
  assert (Hfr := change_img_frame _ _ _ _ _ Hchange). simpl in Hfr.
  destruct Hfr as (Hd1 & Hu1 & _).
  assert (Hsrc1 : disk s1 !! (path g ++ [f]) = None).
  { rewrite Hd1, lookup_insert_ne by apply path_neq_2_1. apply lookup_delete_eq. }
  assert (Hdst1 : disk s1 !! (path g ++ [label; f]) = Some (File c)).
  { rewrite Hd1. apply lookup_insert_eq. }
  assert (Hlog1 : disk s1 !! outfile g
                  = Some (File (log_content g s +:+ row +:+ String LF ""))).
  { rewrite Hd1, lookup_insert_ne by apply moved_not_log.
    rewrite lookup_delete_ne by (by apply queued_not_log).
    by rewrite lookup_insert_eq, Hrow. }
  assert (Hlabel_ne_src : path g ++ [label] <> path g ++ [f]) by (intros Heq; congruence).
  assert (Hdir1 : disk s1 !! (path g ++ [label]) = Some Dir).
  { rewrite Hd1, lookup_insert_ne by (symmetry; apply path_neq_1_2).
    by rewrite lookup_delete_ne, lookup_insert_ne by done. }
  assert (Hundo := undo_after_label g s1 label f c _ row (img_idx s) Hinv1 Hok Hf
                     (Hopens f c Hf Hc) Hclean Hrowclean Hi1 Hu1 Hdst1 Hsrc1 Hlog1).
  eexists. split; [exact Hundo|].
  rewrite (on_btn_click_through g btn_idx now _ label f serial itr fname c
             (log_content g s) Hok Hlabel); simpl; [|done..| | | |].
  2:{ apply lookup_insert_eq. }
  2:{ rewrite lookup_insert_ne by (symmetry; by apply queued_not_log).
      apply lookup_insert_eq. }
  2:{ rewrite lookup_insert_ne by done.
      rewrite lookup_insert_ne by done.
      by rewrite lookup_delete_ne by (symmetry; apply path_neq_1_2). }
  2:{ rewrite lookup_insert_ne by (symmetry; apply moved_not_log).
      rewrite lookup_insert_ne by (symmetry; apply path_neq_2_1).
      apply lookup_delete_eq. }
  assert (Hdisk :
    <[path g ++ [label; f] := File c]>
      (delete (path g ++ [f])
         (<[outfile g := File (log_content g s +:+ log_row now serial itr fname label)]>
            (<[outfile g := File (log_content g s)]>
               (<[path g ++ [f] := File c]>
                  (delete (path g ++ [label; f]) (disk s1))))))
    = disk s1).
  { apply map_eq. intros p.
    destruct (decide (p = path g ++ [label; f])) as [->|Hpdst].
    { by rewrite lookup_insert_eq, Hdst1. }
    rewrite lookup_insert_ne by done.
    destruct (decide (p = path g ++ [f])) as [->|Hpsrc].
    { by rewrite lookup_delete_eq, Hsrc1. }
    rewrite lookup_delete_ne by done.
    destruct (decide (p = outfile g)) as [->|Hplog].
    { by rewrite lookup_insert_eq, Hlog1, Hrow. }
    rewrite !lookup_insert_ne by done. by rewrite lookup_delete_ne. }
  rewrite Hdisk. rewrite <- Hd1 in Hchange.
  rewrite change_img_eq in Hchange |- *. simpl in Hchange |- *.
  case_decide as Hend.
  - injection Hchange as <- <-. done.
  - injection Hchange as Hr Hs1. rewrite Hr. f_equal.
    rewrite <- Hs1. done.
Qed.

Lemma relabel_after_undo_witness :
  exists s2,
    Session.undo_click demo_pair_env demo_labelled = (Ok None, s2)
    /\ Session.on_btn_click demo_pair_env 0 "2024-05-01 10:00:00" s2
       = (Ok None, demo_labelled).
Proof.
  apply (relabel_after_undo demo_pair_env 0 "2024-05-01 10:00:00"
           (demo_state 0) demo_labelled None).
  - apply demo_pair_env_ok.
  - apply demo_pair_Inv.
  - apply demo_pair_tidy.
  - split; reflexivity.
  - split; reflexivity.
  - intros f c _ _. reflexivity.
  - reflexivity.
Defined.

End Relabel.

(** ** What a session leaves alone *)

Section Frame.
Import PyStr Session.

(** The paths a session has no business with: neither the log, nor a
    queued image in the root directory, nor a queued image in the
    directory of a label. *)
Definition outside (g : env) (q : path_t) : Prop :=
  q <> outfile g
  /\ (forall f, f ∈ image_filenames g -> q <> path g ++ [f])
  /\ (forall label f, label ∈ labels g -> f ∈ image_filenames g ->
        q <> path g ++ [label; f]).

(** The disk agrees with [fs0] outside these paths, and the undo record
    names the directory of a label. *)
Definition untouched (g : env) (fs0 : filesystem) (s : state) : Prop :=
  (forall q, outside g q -> disk s !! q = fs0 !! q)
  /\ (forall label f, undo s = [path g ++ [label; f]; path g ++ [f]] -> label ∈ labels g).

Lemma untouched_stable (g : env) (fs0 : filesystem) : stable g (untouched g fs0).
Proof.
  intros s s' Hinv [Hsame Hrec] Hchange.
  destruct Hchange as [Hd Hu|text Hd Hu|label0 f0 c0 Hf0 Hlabel0 Hc0 Hd Hu
                      |label0 f0 c0 Hu0 Hc0 Hfree Hd Hu].
  - split; [intros q Hq|intros label f]; rewrite ?Hd, ?Hu; eauto.
  - split; [intros q Hq|intros label f; rewrite Hu; eauto].
    rewrite Hd. destruct Hq as (Hlog & Hroot & Hmoved).
    rewrite lookup_insert_ne by done. by apply Hsame.
  - split.
    + intros q Hq. destruct Hq as (Hlog & Hroot & Hmoved).
      rewrite Hd, lookup_insert_ne by (symmetry; by apply Hmoved).
      rewrite lookup_delete_ne by (symmetry; by apply Hroot).
      by apply Hsame.
    + intros label f. rewrite Hu. by intros [= [-> _]%path_inj_2].
  - assert (Hlabel0 : label0 ∈ labels g) by eauto.
    assert (Hf0 : f0 ∈ image_filenames g).
    { destruct (inv_undo _ _ Hinv) as [Hnil|(label & f & Hu' & Hf & _)]; [congruence|].
      rewrite Hu0 in Hu'. injection Hu' as _ Heq%path_inj_1. by subst. }
    split; [|intros label f; rewrite Hu; eauto].
    intros q Hq. destruct Hq as (Hlog & Hroot & Hmoved).
    rewrite Hd, lookup_insert_ne by (symmetry; by apply Hroot).
    rewrite lookup_delete_ne by (symmetry; by apply Hmoved).
    by apply Hsame.
Qed.

(** X13.  A session touches nothing but the log, the queued images in
    the root directory and their places in the label directories: at
    every point of a session, whatever the events and whether the
    callbacks return or raise, every other path of the disk holds what
    it held at start. *)
Theorem session_touches_only_log_and_images
    (g : env) (fs : filesystem) (evs : list event) (s0 s : state) r0 rs (q : path_t) :
  env_ok g -> Inv g (initial fs) ->
  change_img g false (initial fs) = (r0, s0) ->
  run g evs s0 = (rs, s) ->
  q <> outfile g ->
  (forall f, f ∈ image_filenames g -> q <> path g ++ [f]) ->
  (forall label f, label ∈ labels g -> f ∈ image_filenames g -> q <> path g ++ [label; f]) ->
  disk s !! q = fs !! q.
Proof.
  intros Hok Hinv Hfirst Hrun Hlog Hroot Hmoved.
  destruct (first_change_img _ _ _ _ Hfirst) as (_ & Hd0 & Hu0).
  assert (Hun0 : untouched g fs s0).
  { split; [intros q' _; by rewrite Hd0|]. intros label f. by rewrite Hu0. }
  assert (Hinv0 : Inv g s0) by (by eapply change_img_Inv).
  by apply (run_stable g (untouched g fs) evs s0 s rs Hok (untouched_stable g fs)
              Hinv0 Hun0 Hrun).
Qed.

End Frame.

Lemma session_touches_only_log_and_images_witness :
  disk (Session.run demo_pair_env demo_events demo_shown).2 !! ["imgs"; "plain.png"]
  = demo_disk !! ["imgs"; "plain.png"].
Proof.
  apply (session_touches_only_log_and_images demo_pair_env demo_disk demo_events
           demo_shown _ (Ok None) (Session.run demo_pair_env demo_events demo_shown).1).
  - apply demo_pair_env_ok.
  - apply (demo_pair_Inv (-1)).
  - reflexivity.
  - reflexivity.
  - discriminate.
  - intros f Hf Heq. injection Heq as <-.
    repeat (apply elem_of_cons in Hf as [Hf|Hf]; [discriminate|]).
    by apply elem_of_nil in Hf.
  - discriminate.
Defined.

(** ** The script as a whole *)

Section WholeScript.
Import PyStr Session.

(** X14.  The script from start-up to the end of the main loop, when
    [load_labels] and the first [change_img()] return: every regular
    file directly in the directory
    whose name ends in .png, .jpg or .jpeg is, with its content, either
    still there or in a sub-directory the directory had at start and no
    longer in the directory itself; every other regular file directly
    in the directory, the log image_labels.csv apart, is as it was. *)
Theorem script_moves_only_images
    (p : path_t) (rnd : nat -> nat) (opens : string -> bool) (evs : list event)
    (fs : filesystem) (g : env) first rs (s : state) (n c : string) :
  script p rnd opens evs fs = Ok (g, first, rs, s) ->
  fs !! (p ++ [n]) = Some (File c) ->
  (image_extension n ->
     disk s !! (p ++ [n]) = Some (File c)
     \/ (disk s !! (p ++ [n]) = None
         /\ exists label, fs !! (p ++ [label]) = Some Dir
                          /\ disk s !! (p ++ [label; n]) = Some (File c)))
  /\ (~ image_extension n -> n <> "image_labels.csv" ->
      disk s !! (p ++ [n]) = Some (File c)).
Proof.
  unfold script. intros Hscript Hc.
  destruct (Startup.load_labels fs p) as [[ls d]|e] eqn:Hload; [|done].
  destruct (startup_Inv rnd opens fs p ls d Hload) as [Hok Hinv].
  assert (Hdir : Os.isdir fs p = true).
  { unfold Startup.load_labels, Os.walk in Hload. by destruct (Os.isdir fs p). }
  assert (Hls : forall label, label ∈ ls -> fs !! (p ++ [label]) = Some Dir).
  { intros label. unfold Startup.load_labels, Os.walk in Hload. rewrite Hdir in Hload.
    unfold Startup.load_labels_from, Startup.sort in Hload. injection Hload as <- _.
    by rewrite merge_sort_Permutation, elem_of_walk_dirs. }
  set (g0 := {| path := p; labels := ls;
                image_filenames := Startup.load_image_filenames rnd fs p;
                keys := d; can_open := opens |}) in *.
  destruct (change_img _ _ _) as [first' s1] eqn:Hfirst.
  destruct first' as [d0|e]; [|done].
  destruct (mainloop _ _ _) as [rs' s2] eqn:Hloop.
  injection Hscript as <- <- <- <-.
  unfold mainloop in Hloop.
  destruct (first_change_img _ _ _ _ Hfirst) as (_ & Hd0 & Hu0).
  assert (Hinv1 : Inv g0 (set_quit false s1)).
  { eapply Inv_frame; [| |eapply change_img_Inv; [exact Hinv|exact Hfirst]]; done. }
  split.
  - intros Himg.
    assert (Hkept0 : kept g0 fs (set_quit false s1)).
    { split; [intros f c' _ Hc'; left; simpl; by rewrite Hd0|].
      intros label f c1 c2. simpl. by rewrite Hu0. }
    destruct (run_stable g0 _ _ _ _ _ Hok (kept_stable g0 fs Hok) Hinv1 Hkept0 Hloop)
      as [Hkept _].
    destruct (Hkept n c) as [?|(? & label & Hlabel & ?)]; simpl in *; [|done|by left|].
    { apply elem_of_load_image_filenames. eauto. }
    right. split; [done|]. exists label. eauto.
  - intros Hother Hnotlog.
    assert (Hun0 : untouched g0 fs (set_quit false s1)).
    { split; [intros q' _; simpl; by rewrite Hd0|]. intros label f. simpl. by rewrite Hu0. }
    destruct (run_stable g0 _ _ _ _ _ Hok (untouched_stable g0 fs) Hinv1 Hun0 Hloop)
      as [Hsame _].
    rewrite <- Hc. apply Hsame. split; [|split]; simpl.
    + unfold outfile. simpl. intros Heq%path_inj_1. done.
    + intros f (_ & _ & Himg)%elem_of_load_image_filenames Heq%path_inj_1. by subst.
    + intros label f _ _. symmetry. apply path_neq_2_1.
Qed.

End WholeScript.

(** The script on [demo_disk] with a note beside the images, a generator
    that always draws 0, and every image readable. *)
Definition demo_script
  : result (env * result (option dialog) * list (result (option dialog)) * state) :=
  Session.script ["imgs"] (fun _ => 0%nat) (fun _ => true) demo_events
    (<[["imgs"; "notes.txt"] := File "keep"]> demo_disk).

Lemma script_moves_only_images_witness :
  exists g first rs s,
    demo_script = Ok (g, first, rs, s)
    /\ (disk s !! ["imgs"; "7_1.png"] = Some (File "first")
        \/ (disk s !! ["imgs"; "7_1.png"] = None
            /\ exists label,
                 (<[["imgs"; "notes.txt"] := File "keep"]> demo_disk) !! ["imgs"; label]
                 = Some Dir
                 /\ disk s !! ["imgs"; label; "7_1.png"] = Some (File "first"))).
Proof.
  do 4 eexists. split; [vm_compute; reflexivity|].
  eapply (script_moves_only_images ["imgs"] (fun _ => 0%nat) (fun _ => true) demo_events
            (<[["imgs"; "notes.txt"] := File "keep"]> demo_disk) _ _ _ _ "7_1.png" "first").
  - vm_compute. reflexivity.
  - reflexivity.
  - exists "7_1". by left.
Defined.
